(** * Transcript ingestion and temporal alignment: a shallow embedding

    The development follows [video_processor.py]: the timestamp normaliser,
    the three transcript parsers with their speaker resolver, the turn
    consolidator and metrics aggregator, the frame merge and downsampling
    steps and the temporal aligner.

    Modelling conventions.
    - A Python [str] is a list of characters; a character is a code point
      below 256 ([ascii]), with Python's classification of that range.
    - A Python [float] is a rational ([Q]).  Sums, differences and
      comparisons of times are exact; the quotients and products of the
      metrics and of the downsampling index, and [round], are rounded to
      binary64 as the program rounds them.  Infinities and NaN are outside
      the model.
    - An uncaught exception is the [Raise] outcome of the [outcome] monad.
    - The regular expressions of the source are terms of [regex], run by a
      backtracking matcher with Python's priorities. *)

From Stdlib Require Import QArith Qround Qabs Qpower Lia Lqa Ascii String.
From Stdlib Require Import DecimalString DecimalNat Permutation.
From stdpp Require Import base list sorting gmap.

(** ** Python strings *)

Abbreviation pystr := (list ascii).

Definition str (s : string) : pystr := list_ascii_of_string s.

Definition code (c : ascii) : nat := nat_of_ascii c.

Definition in_range (lo hi : nat) (c : ascii) : bool :=
  (lo <=? code c) && (code c <=? hi).

(** [\d] of [re] on [str] patterns (decimal digits). *)
Definition is_digit (c : ascii) : bool := in_range 48 57 c.

(** [str.isdigit] on one character: the decimal digits and the
    superscript digits of the Latin-1 block. *)
Definition isdigit (c : ascii) : bool :=
  is_digit c || (code c =? 178) || (code c =? 179) || (code c =? 185).

(** [str.isspace], which is also [\s] and what [strip] and [split] remove. *)
Definition is_space (c : ascii) : bool :=
  in_range 9 13 c || in_range 28 32 c || (code c =? 133) || (code c =? 160).

Definition is_letter (c : ascii) : bool := in_range 65 90 c || in_range 97 122 c.

Definition is_char (a c : ascii) : bool := Ascii.eqb c a.

Definition not_char (a c : ascii) : bool := negb (Ascii.eqb c a).

Definition newline : ascii := ascii_of_nat 10.

Fixpoint lstrip (s : pystr) : pystr :=
  match s with
  | c :: s' => if is_space c then lstrip s' else s
  | [] => []
  end.

Definition rstrip (s : pystr) : pystr := rev (lstrip (rev s)).

(** [s.strip()] *)
Definition strip (s : pystr) : pystr := rstrip (lstrip s).

(** [s.split(sep)] for a one-character separator. *)
Fixpoint split_on (sep : ascii) (s : pystr) : list pystr :=
  match s with
  | [] => [[]]
  | c :: s' =>
      if Ascii.eqb c sep then [] :: split_on sep s'
      else match split_on sep s' with
           | w :: ws => (c :: w) :: ws
           | [] => [[c]]
           end
  end.

Fixpoint words_go (w : pystr) (s : pystr) : list pystr :=
  match s with
  | [] => match w with [] => [] | _ => [rev w] end
  | c :: s' =>
      if is_space c
      then match w with [] => words_go [] s' | _ => rev w :: words_go [] s' end
      else words_go (c :: w) s'
  end.

(** [s.split()] *)
Definition split_ws (s : pystr) : list pystr := words_go [] s.

(** [sep.join(parts)] *)
Fixpoint join (sep : pystr) (parts : list pystr) : pystr :=
  match parts with
  | [] => []
  | [x] => x
  | x :: rest => x ++ sep ++ join sep rest
  end.

(** [s.startswith(p)] *)
Fixpoint startswith (p s : pystr) : bool :=
  match p, s with
  | [], _ => true
  | a :: p', c :: s' => Ascii.eqb a c && startswith p' s'
  | _ :: _, [] => false
  end.

(** Truthiness of a [str] or a [list], and of an [Optional[str]]. *)
Definition truthy {A : Type} (l : list A) : bool :=
  match l with [] => false | _ => true end.

Definition truthy_opt (o : option pystr) : bool :=
  match o with Some s => truthy s | None => false end.

(** [str(n)] for a natural number. *)
Definition str_of_nat (n : nat) : pystr :=
  str (NilZero.string_of_uint (Nat.to_uint n)).

(** ** Exceptions *)

Inductive exn : Type := ValueError | ZeroDivisionError | IndexError | OutOfFuel.

Inductive outcome (A : Type) : Type :=
| Ret (a : A)
| Raise (e : exn).

Arguments Ret {A} a.
Arguments Raise {A} e.

Definition obind {A B : Type} (m : outcome A) (k : A → outcome B) : outcome B :=
  match m with
  | Ret a => k a
  | Raise e => Raise e
  end.

Notation "'do' x <- m ; k" := (obind m (fun x => k))
  (at level 10, x name, m at level 100, k at level 200).

(** ** Regular expressions

    Only the constructs the source uses: character classes, sequencing, a
    greedy optional part, greedy and lazy repetition of a character class,
    capture groups and the end anchor.  [re.match] anchors at the start, so
    a leading [^] is implicit. *)

Inductive regex : Type :=
| Eps
| Chr (p : ascii → bool)
| Seq (r1 r2 : regex)
| Opt (r : regex)
| Star (p : ascii → bool)
| StarLazy (p : ascii → bool)
| Grp (n : nat) (r : regex)
| Eol.

Abbreviation groups := (list (nat * pystr)).

Fixpoint star_greedy {A : Type} (p : ascii → bool) (s : pystr) (pos : nat)
    (k : pystr → nat → option A) : option A :=
  match s with
  | c :: s' =>
      if p c
      then match star_greedy p s' (S pos) k with
           | Some a => Some a
           | None => k s pos
           end
      else k s pos
  | [] => k [] pos
  end.

Fixpoint star_lazy {A : Type} (p : ascii → bool) (s : pystr) (pos : nat)
    (k : pystr → nat → option A) : option A :=
  match k s pos with
  | Some a => Some a
  | None =>
      match s with
      | c :: s' => if p c then star_lazy p s' (S pos) k else None
      | [] => None
      end
  end.

(** The matcher in continuation-passing style: [k] receives the rest of the
    input, the number of characters consumed so far and the groups captured
    so far; a [None] from [k] makes the matcher backtrack into the next
    alternative, in Python's order. *)
Fixpoint rmatch {A : Type} (r : regex) (s : pystr) (pos : nat) (g : groups)
    (k : pystr → nat → groups → option A) : option A :=
  match r with
  | Eps => k s pos g
  | Chr p =>
      match s with
      | c :: s' => if p c then k s' (S pos) g else None
      | [] => None
      end
  | Seq r1 r2 => rmatch r1 s pos g (λ s1 pos1 g1, rmatch r2 s1 pos1 g1 k)
  | Opt r1 =>
      match rmatch r1 s pos g k with
      | Some a => Some a
      | None => k s pos g
      end
  | Star p => star_greedy p s pos (λ s' pos', k s' pos' g)
  | StarLazy p => star_lazy p s pos (λ s' pos', k s' pos' g)
  | Grp n r1 =>
      rmatch r1 s pos g (λ s' pos' g', k s' pos' ((n, take (pos' - pos) s) :: g'))
  | Eol =>
      match s with
      | [] => k s pos g
      | [c] => if Ascii.eqb c newline then k s pos g else None
      | _ => None
      end
  end.

(** [re.match(r, s)]: the captured groups and the unmatched rest. *)
Definition re_match (r : regex) (s : pystr) : option (groups * pystr) :=
  rmatch r s 0 [] (λ s' _ g, Some (g, s')).

Definition matches (r : regex) (s : pystr) : bool :=
  match re_match r s with Some _ => true | None => false end.

(** [m.group(n)] *)
Fixpoint group (n : nat) (g : groups) : pystr :=
  match g with
  | (i, v) :: g' => if i =? n then v else group n g'
  | [] => []
  end.

(** [m.end()] of [re.match(r, s)] *)
Definition match_length (r : regex) (s : pystr) : option nat :=
  rmatch r s 0 [] (λ _ pos _, Some pos).

(** [re.sub(r, '', s)], for a pattern with no empty match. *)
Fixpoint re_sub_go (r : regex) (skip : nat) (s : pystr) : pystr :=
  match s with
  | [] => []
  | c :: s' =>
      match skip with
      | S n => re_sub_go r n s'
      | O =>
          match match_length r s with
          | Some (S n) => re_sub_go r n s'
          | _ => c :: re_sub_go r 0 s'
          end
      end
  end.

Definition re_sub (r : regex) (s : pystr) : pystr := re_sub_go r 0 s.

(** [re.split(r, s)], for a pattern with no group and no empty match.
    [cur] is the current piece, reversed. *)
Fixpoint re_split_go (r : regex) (skip : nat) (cur : pystr) (s : pystr)
    : list pystr :=
  match s with
  | [] => [rev cur]
  | c :: s' =>
      match skip with
      | S n => re_split_go r n cur s'
      | O =>
          match match_length r s with
          | Some (S n) => rev cur :: re_split_go r n [] s'
          | _ => re_split_go r 0 (c :: cur) s'
          end
      end
  end.

Definition re_split (r : regex) (s : pystr) : list pystr := re_split_go r 0 [] s.

(** Regex building blocks. *)

Fixpoint cat (rs : list regex) : regex :=
  match rs with
  | [] => Eps
  | [r] => r
  | r :: rs' => Seq r (cat rs')
  end.

Definition Lit (s : string) : regex := cat (map (λ a, Chr (is_char a)) (str s)).

Definition Plus (p : ascii → bool) : regex := Seq (Chr p) (Star p).

Definition dig : regex := Chr is_digit.

(** [\d{1,2}], [\d{2}], [\d{3}] *)
Definition dig12 : regex := Seq dig (Opt dig).
Definition dig2 : regex := Seq dig dig.
Definition dig3 : regex := Seq dig (Seq dig dig).

(** [[,.]] *)
Definition is_comma_dot (c : ascii) : bool := is_char "," c || is_char "." c.

(** [.] *)
Definition any_char (c : ascii) : bool := not_char newline c.

(** [[\d:,.]] *)
Definition is_ts_char (c : ascii) : bool :=
  is_digit c || is_char ":" c || is_char "," c || is_char "." c.

(** ** Timestamp normaliser *)

Definition digit_val (c : ascii) : Z := (Z.of_nat (code c) - 48)%Z.

(** [int(s)] on a string of decimal digits; the model raises on every other
    string. *)
Definition py_int (s : pystr) : outcome Z :=
  if truthy s && forallb is_digit s
  then Ret (fold_left (λ acc c, (10 * acc + digit_val c)%Z) s 0%Z)
  else Raise ValueError.

(** [(\d{1,2}):(\d{2}):(\d{2})[,.](\d{3})] *)
Definition re_hms_ms : regex :=
  cat [Grp 1 dig12; Lit ":"; Grp 2 dig2; Lit ":"; Grp 3 dig2;
       Chr is_comma_dot; Grp 4 dig3].

(** [(\d{1,2}):(\d{2}):(\d{2})] *)
Definition re_hms : regex :=
  cat [Grp 1 dig12; Lit ":"; Grp 2 dig2; Lit ":"; Grp 3 dig2].

(** [(\d{1,2}):(\d{2})[,.](\d{3})] *)
Definition re_ms_ms : regex :=
  cat [Grp 1 dig12; Lit ":"; Grp 2 dig2; Chr is_comma_dot; Grp 3 dig3].

(** [(\d{1,2}):(\d{2})] *)
Definition re_ms : regex := cat [Grp 1 dig12; Lit ":"; Grp 2 dig2].

Section Timestamp.

(** The builtin [float] on a [str]: [None] stands for its [ValueError]. *)
Variable py_float : pystr → option Q.

Definition parse_timestamp (ts : pystr) : outcome Q :=
  let ts := strip ts in
  match re_match re_hms_ms ts with
  | Some (g, _) =>
      do h <- py_int (group 1 g); do m <- py_int (group 2 g);
      do s <- py_int (group 3 g); do ms <- py_int (group 4 g);
      Ret (inject_Z (h * 3600 + m * 60 + s) + inject_Z ms / 1000)%Q
  | None =>
  match re_match re_hms ts with
  | Some (g, _) =>
      do h <- py_int (group 1 g); do m <- py_int (group 2 g);
      do s <- py_int (group 3 g);
      Ret (inject_Z (h * 3600 + m * 60 + s))
  | None =>
  match re_match re_ms_ms ts with
  | Some (g, _) =>
      do m <- py_int (group 1 g); do s <- py_int (group 2 g);
      do ms <- py_int (group 3 g);
      Ret (inject_Z (m * 60 + s) + inject_Z ms / 1000)%Q
  | None =>
  match re_match re_ms ts with
  | Some (g, _) =>
      do m <- py_int (group 1 g); do s <- py_int (group 2 g);
      Ret (inject_Z (m * 60 + s))
  | None =>
      match py_float ts with
      | Some v => Ret v
      | None => Ret 0%Q
      end
  end end end end.

End Timestamp.

(** [int(x)] on a float: truncation towards zero. *)
Definition py_trunc (x : Q) : Z :=
  if Qle_bool 0 x then Qfloor x else Qceiling x.

(** [a // b] and [a % b] on floats. *)
Definition py_floordiv (a b : Q) : Q := inject_Z (Qfloor (a / b)).

Definition py_mod (a b : Q) : Q := (a - b * py_floordiv a b)%Q.

(** [str(z)] for an integer. *)
Definition str_of_Z (z : Z) : pystr :=
  if (z <? 0)%Z then str "-" ++ str_of_nat (Z.to_nat (- z))
  else str_of_nat (Z.to_nat z).

(** The format [{z:02d}]: zero padding to width two, the sign counted. *)
Definition fmt_02d (z : Z) : pystr :=
  if ((0 <=? z) && (z <? 10))%Z then str "0" ++ str_of_Z z else str_of_Z z.

Definition seconds_to_timestamp (seconds : Q) : pystr :=
  let h := py_trunc (py_floordiv seconds 3600) in
  let m := py_trunc (py_floordiv (py_mod seconds 3600) 60) in
  let s := py_trunc (py_mod seconds 60) in
  fmt_02d h ++ str ":" ++ fmt_02d m ++ str ":" ++ fmt_02d s.

(** ** Data model *)

Record TranscriptSegment : Type := mkSegment {
  start_seconds : Q;
  end_seconds : Q;
  text : pystr;
  speaker_id : option pystr;
  speaker_name : option pystr
}.

(** [SpeakerSegment]: a consolidated speaker turn. *)
Record SpeakerSegment : Type := mkTurn {
  turn_speaker_id : pystr;
  turn_speaker_name : option pystr;
  turn_start_seconds : Q;
  turn_end_seconds : Q;
  turn_text : pystr;
  turn_word_count : nat
}.

Record SpeakerMetrics : Type := mkMetrics {
  m_speaker_id : pystr;
  m_speaker_name : option pystr;
  talk_time_seconds : Q;
  talk_time_pct : Q;
  m_word_count : nat;
  speaking_pace_wpm : Q;
  turn_count : nat;
  avg_turn_length_seconds : Q
}.

(** A candidate frame of the sampler: [(timestamp, filename)]. *)
Abbreviation frame := (Q * pystr)%type.

(** ** Speaker identity resolver

    The block "Assign speaker ID", which the three parsers repeat verbatim
    on their [speaker_counter] dictionary. *)
Definition assign_speaker_id (speaker_counter : gmap pystr pystr)
    (speaker : option pystr) : gmap pystr pystr * option pystr :=
  match speaker with
  | Some sp =>
      if truthy sp then
        match speaker_counter !! sp with
        | Some id => (speaker_counter, Some id)
        | None =>
            let id := str "speaker_" ++ str_of_nat (size speaker_counter + 1) in
            (<[sp := id]> speaker_counter, Some id)
        end
      else (speaker_counter, None)
  | None => (speaker_counter, None)
  end.

(** ** Speaker notations inside a cue *)

(** [<v\s+([^>]+)>( .* )(?:</v>)?] (the second group is "dot star") *)
Definition re_voice : regex :=
  cat [Lit "<v"; Plus is_space; Grp 1 (Plus (not_char ">")); Lit ">";
       Grp 2 (Star any_char); Opt (Lit "</v>")].

(** [<[^>]+>] *)
Definition re_tag : regex := cat [Lit "<"; Plus (not_char ">"); Lit ">"].

(** [^([^:]+):\s*(.+)$] *)
Definition re_speaker_colon : regex :=
  cat [Grp 1 (Plus (not_char ":")); Lit ":"; Star is_space;
       Grp 2 (Plus any_char); Eol].

(** The acceptance test of the cue parsers for a candidate name:
    [len(potential_speaker.split()) <= 4 and
     not any(c.isdigit() for c in potential_speaker)]. *)
Definition speaker_name_ok (potential_speaker : pystr) : bool :=
  (length (split_ws potential_speaker) <=? 4)
  && negb (existsb isdigit potential_speaker).

Definition extract_speaker_from_vtt_line (line : pystr) : option pystr * pystr :=
  match re_match re_voice line with
  | Some (g, _) =>
      let speaker := strip (group 1 g) in
      let text := strip (group 2 g) in
      (Some speaker, re_sub re_tag text)
  | None =>
      match re_match re_speaker_colon line with
      | Some (g, _) =>
          let potential_speaker := strip (group 1 g) in
          if speaker_name_ok potential_speaker
          then (Some potential_speaker, strip (group 2 g))
          else (None, re_sub re_tag line)
      | None => (None, re_sub re_tag line)
      end
  end.

(** ** Cue-block parser (WebVTT) *)

(** [\d{2}:\d{2}] *)
Definition re_vtt_start : regex := cat [dig2; Lit ":"; dig2].

(** [([\d:,.]+)\s*-->\s*([\d:,.]+)] *)
Definition re_arrow : regex :=
  cat [Grp 1 (Plus is_ts_char); Star is_space; Lit "-->"; Star is_space;
       Grp 2 (Plus is_ts_char)].

(** [^\d+$] *)
Definition re_number : regex := cat [Plus is_digit; Eol].

(** The header skip: [while i < len(lines) and not re.match(...)]. *)
Fixpoint skip_header (lines : list pystr) : list pystr :=
  match lines with
  | l :: rest => if matches re_vtt_start l then lines else skip_header rest
  | [] => []
  end.

(** The inner loop collecting the text lines of one cue.  It returns
    [text_lines], [segment_speaker] and the lines from index [i] on: the
    line that stopped the loop is not consumed. *)
Fixpoint vtt_collect (lines : list pystr) (text_lines : list pystr)
    (segment_speaker : option pystr)
    : list pystr * option pystr * list pystr :=
  match lines with
  | [] => (text_lines, segment_speaker, [])
  | l :: rest =>
      let text_line := strip l in
      if negb (truthy text_line) || matches re_arrow text_line
      then (text_lines, segment_speaker, lines)
      else
        if negb (matches re_number text_line)
           && negb (startswith (str "NOTE") text_line)
        then
          let '(speaker, cleaned_text) := extract_speaker_from_vtt_line text_line in
          let segment_speaker :=
            if truthy_opt speaker && negb (truthy_opt segment_speaker)
            then speaker else segment_speaker in
          let text_lines :=
            if truthy cleaned_text then text_lines ++ [cleaned_text]
            else text_lines in
          vtt_collect rest text_lines segment_speaker
        else vtt_collect rest text_lines segment_speaker
  end.

Section Parsers.

Variable py_float : pystr → option Q.

(** The main [while i < len(lines)] loop on the lines from index [i] on.
    [fuel] bounds the number of iterations; [OutOfFuel] is not a Python
    exception and is shown unreachable from [parse_vtt]. *)
Fixpoint vtt_loop (fuel : nat) (lines : list pystr)
    (segments : list TranscriptSegment) (speaker_counter : gmap pystr pystr)
    : outcome (list TranscriptSegment) :=
  match lines with
  | [] => Ret segments
  | l :: rest =>
      match fuel with
      | O => Raise OutOfFuel
      | S fuel' =>
          let line := strip l in
          match re_match re_arrow line with
          | Some (g, _) =>
              do start <- parse_timestamp py_float (group 1 g);
              do end_ <- parse_timestamp py_float (group 2 g);
              let '(text_lines, segment_speaker, rest') :=
                vtt_collect rest [] None in
              if truthy text_lines then
                let '(speaker_counter', sid) :=
                  assign_speaker_id speaker_counter segment_speaker in
                vtt_loop fuel' rest'
                  (segments ++ [mkSegment start end_ (join (str " ") text_lines)
                                  sid segment_speaker])
                  speaker_counter'
              else vtt_loop fuel' rest' segments speaker_counter
          | None => vtt_loop fuel' rest segments speaker_counter
          end
      end
  end.

Definition parse_vtt (content : pystr) : outcome (list TranscriptSegment) :=
  let lines := split_on newline (strip content) in
  let lines := skip_header lines in
  vtt_loop (length lines) lines [] ∅.

(** ** Indexed cue-block parser (SRT) *)

(** [\n\s*\n] *)
Definition re_blank : regex :=
  cat [Chr (is_char newline); Star is_space; Chr (is_char newline)].

(** The body of [for text_line in text_lines]. *)
Definition srt_text_line (text_line : pystr)
    (st : option pystr * list pystr) : option pystr * list pystr :=
  let '(segment_speaker, cleaned_lines) := st in
  let text_line := re_sub re_tag text_line in
  match re_match re_speaker_colon text_line with
  | Some (g, _) =>
      let potential_speaker := strip (group 1 g) in
      if speaker_name_ok potential_speaker then
        (if negb (truthy_opt segment_speaker) then Some potential_speaker
         else segment_speaker,
         cleaned_lines ++ [strip (group 2 g)])
      else (segment_speaker, cleaned_lines ++ [text_line])
  | None => (segment_speaker, cleaned_lines ++ [text_line])
  end.

Definition srt_text_lines (text_lines : list pystr) : option pystr * list pystr :=
  fold_left (λ st text_line, srt_text_line text_line st) text_lines (None, []).

(** [for i, line in enumerate(lines)] up to its [break]: the groups of the
    first timestamp line and [lines[i+1:]]. *)
Fixpoint srt_find_arrow (lines : list pystr) : option (groups * list pystr) :=
  match lines with
  | [] => None
  | line :: rest =>
      match re_match re_arrow line with
      | Some (g, _) => Some (g, rest)
      | None => srt_find_arrow rest
      end
  end.

(** The body of [for block in blocks]. *)
Definition srt_block (block : pystr)
    (segments : list TranscriptSegment) (speaker_counter : gmap pystr pystr)
    : outcome (list TranscriptSegment * gmap pystr pystr) :=
  let lines := split_on newline (strip block) in
  if length lines <? 2 then Ret (segments, speaker_counter)
  else
    match srt_find_arrow lines with
    | Some (g, text_lines) =>
        do start <- parse_timestamp py_float (group 1 g);
        do end_ <- parse_timestamp py_float (group 2 g);
        let '(segment_speaker, cleaned_lines) := srt_text_lines text_lines in
        let text := strip (join (str " ") cleaned_lines) in
        let '(speaker_counter', sid) :=
          assign_speaker_id speaker_counter segment_speaker in
        Ret (segments ++ [mkSegment start end_ text sid segment_speaker],
             speaker_counter')
    | None => Ret (segments, speaker_counter)
    end.

Fixpoint srt_loop (blocks : list pystr)
    (segments : list TranscriptSegment) (speaker_counter : gmap pystr pystr)
    : outcome (list TranscriptSegment) :=
  match blocks with
  | [] => Ret segments
  | block :: rest =>
      do st <- srt_block block segments speaker_counter;
      srt_loop rest st.1 st.2
  end.

Definition parse_srt (content : pystr) : outcome (list TranscriptSegment) :=
  srt_loop (re_split re_blank (strip content)) [] ∅.

(** ** Freeform line parser *)

Definition is_open (c : ascii) : bool := is_char "[" c || is_char "(" c.

Definition is_close (c : ascii) : bool := is_char "]" c || is_char ")" c.

(** The class excluding the four bracket characters. *)
Definition not_bracket (c : ascii) : bool := negb (is_open c || is_close c).

Definition is_dash_colon (c : ascii) : bool := is_char "-" c || is_char ":" c.

(** Pattern [speaker_first], "Speaker [00:00:00]: Text": a letter, a lazy
    run of non-bracket characters, spaces, a bracketed timestamp, a colon,
    spaces, the text. *)
Definition re_speaker_first : regex :=
  cat [Grp 1 (Seq (Chr is_letter) (StarLazy not_bracket)); Star is_space;
       Chr is_open; Grp 2 (Plus is_ts_char); Chr is_close; Lit ":";
       Star is_space; Grp 3 (Plus any_char); Eol].

(** Pattern [ts_speaker], "[00:00:00] Speaker: Text". *)
Definition re_ts_speaker : regex :=
  cat [Chr is_open; Grp 1 (Plus is_ts_char); Chr is_close; Star is_space;
       Grp 2 (Seq (Chr is_letter) (StarLazy (not_char ":"))); Lit ":";
       Star is_space; Grp 3 (Plus any_char); Eol].

(** Pattern [ts_only], "[00:00:00] Text". *)
Definition re_ts_only : regex :=
  cat [Chr is_open; Grp 1 (Plus is_ts_char); Chr is_close; Star is_space;
       Grp 2 (Plus any_char); Eol].

(** Pattern [ts_dash], "00:00:00 - Text" or "00:00:00: Text". *)
Definition re_ts_dash : regex :=
  cat [Grp 1 (Plus is_ts_char); Star is_space; Chr is_dash_colon;
       Star is_space; Grp 2 (Plus any_char); Eol].

(** The embedded-name pattern, "Speaker: text" at the start of the text. *)
Definition re_speaker_in_text : regex :=
  cat [Grp 1 (Seq (Chr is_letter) (StarLazy (not_char ":"))); Lit ":";
       Star is_space; Grp 2 (Plus any_char); Eol].

(** The embedded-name check of the [ts_only] and [ts_dash] branches: the
    text to keep and the speaker. *)
Definition speaker_in_text (text : pystr) : pystr * option pystr :=
  match re_match re_speaker_in_text text with
  | Some (g, _) =>
      let potential_speaker := strip (group 1 g) in
      if length (split_ws potential_speaker) <=? 4
      then (strip (group 2 g), Some potential_speaker)
      else (text, None)
  | None => (text, None)
  end.

(** The body of [for line in lines]: the item appended to [parsed_items],
    if any. *)
Definition plain_line (line : pystr) : outcome (option (Q * pystr * option pystr)) :=
  let line := strip line in
  if negb (truthy line) then Ret None
  else
    match re_match re_speaker_first line with
    | Some (g, _) =>
        let speaker := strip (group 1 g) in
        do ts <- parse_timestamp py_float (group 2 g);
        let text := strip (group 3 g) in
        Ret (Some (ts, text, Some speaker))
    | None =>
    match re_match re_ts_speaker line with
    | Some (g, _) =>
        do ts <- parse_timestamp py_float (group 1 g);
        let speaker := strip (group 2 g) in
        let text := strip (group 3 g) in
        Ret (Some (ts, text, Some speaker))
    | None =>
    match re_match re_ts_only line with
    | Some (g, _) =>
        do ts <- parse_timestamp py_float (group 1 g);
        let '(text, speaker) := speaker_in_text (strip (group 2 g)) in
        Ret (Some (ts, text, speaker))
    | None =>
    match re_match re_ts_dash line with
    | Some (g, _) =>
        do ts <- parse_timestamp py_float (group 1 g);
        let '(text, speaker) := speaker_in_text (strip (group 2 g)) in
        Ret (Some (ts, text, speaker))
    | None => Ret None
    end end end end.

Fixpoint plain_items (lines : list pystr)
    : outcome (list (Q * pystr * option pystr)) :=
  match lines with
  | [] => Ret []
  | line :: rest =>
      do item <- plain_line line;
      do items <- plain_items rest;
      Ret (match item with Some it => it :: items | None => items end)
  end.

(** The loop [for i, (start, text, speaker) in enumerate(parsed_items)], on
    the items from index [i] on. *)
Fixpoint plain_segments (parsed_items : list (Q * pystr * option pystr))
    (segments : list TranscriptSegment) (speaker_counter : gmap pystr pystr)
    : list TranscriptSegment :=
  match parsed_items with
  | [] => segments
  | (start, text, speaker) :: rest =>
      let end_ :=
        match rest with
        | (next_start, _, _) :: _ => next_start
        | [] => (start + 10)%Q
        end in
      let '(speaker_counter', sid) := assign_speaker_id speaker_counter speaker in
      plain_segments rest
        (segments ++ [mkSegment start end_ text sid speaker]) speaker_counter'
  end.

Definition parse_plain_text (content : pystr) : outcome (list TranscriptSegment) :=
  let lines := split_on newline (strip content) in
  do parsed_items <- plain_items lines;
  Ret (plain_segments parsed_items [] ∅).

End Parsers.

(** ** Turn consolidator and metrics aggregator *)

Definition unknown : pystr := str "unknown".

(** [x or "unknown"] *)
Definition or_unknown (x : option pystr) : pystr :=
  match x with
  | Some s => if truthy s then s else unknown
  | None => unknown
  end.

(** [len(text.split())] *)
Definition word_count_of (text : pystr) : nat := length (split_ws text).

(** The loop state of the consolidation: the five [current_*] variables and
    the turns emitted so far.  [current_speaker_name] is unbound in the
    source until the first iteration binds it; it is never read before. *)
Record consolidation : Type := mkCons {
  current_speaker : option pystr;
  current_speaker_name : option pystr;
  current_start : Q;
  current_end : Q;
  current_text_parts : list pystr;
  speaker_segments : list SpeakerSegment
}.

(** The body of [for seg in segments]. *)
Definition consolidate_step (st : consolidation) (seg : TranscriptSegment)
    : consolidation :=
  let speaker := or_unknown (speaker_id seg) in
  if bool_decide (Some speaker ≠ current_speaker st) then
    let saved :=
      if truthy (current_text_parts st) then
        let text := join (str " ") (current_text_parts st) in
        speaker_segments st ++
          [mkTurn (or_unknown (current_speaker st)) (current_speaker_name st)
             (current_start st) (current_end st) text (word_count_of text)]
      else speaker_segments st in
    mkCons (Some speaker) (speaker_name seg) (start_seconds seg)
      (end_seconds seg) [text seg] saved
  else
    mkCons (current_speaker st) (current_speaker_name st) (current_start st)
      (end_seconds seg) (current_text_parts st ++ [text seg])
      (speaker_segments st).

(** "Don't forget the last segment". *)
Definition consolidate_finish (st : consolidation) : list SpeakerSegment :=
  if truthy (current_text_parts st) then
    let text := join (str " ") (current_text_parts st) in
    speaker_segments st ++
      [mkTurn (or_unknown (current_speaker st))
         (if truthy_opt (current_speaker st) then current_speaker_name st
          else None)
         (current_start st) (current_end st) text (word_count_of text)]
  else speaker_segments st.

Definition consolidate (segments : list TranscriptSegment) : list SpeakerSegment :=
  consolidate_finish
    (fold_left consolidate_step segments (mkCons None None 0 0 [] [])).

(** One value of the [speaker_data] dictionary. *)
Record speaker_datum : Type := mkDatum {
  d_talk_time : Q;
  d_word_count : nat;
  d_turns : nat;
  d_speaker_name : option pystr
}.

(** [speaker_data] is iterated in insertion order, so it is an association
    list: a new key goes to the end, an update keeps the position. *)
Fixpoint dict_get {V : Type} (k : pystr) (d : list (pystr * V)) : option V :=
  match d with
  | [] => None
  | (k', v) :: rest => if bool_decide (k' = k) then Some v else dict_get k rest
  end.

Fixpoint dict_set {V : Type} (k : pystr) (v : V) (d : list (pystr * V))
    : list (pystr * V) :=
  match d with
  | [] => [(k, v)]
  | (k', v') :: rest =>
      if bool_decide (k' = k) then (k, v) :: rest
      else (k', v') :: dict_set k v rest
  end.

(** The body of [for seg in speaker_segments]. *)
Definition data_step (speaker_data : list (pystr * speaker_datum))
    (seg : SpeakerSegment) : list (pystr * speaker_datum) :=
  let sid := turn_speaker_id seg in
  let d :=
    match dict_get sid speaker_data with
    | Some d => d
    | None => mkDatum 0 0 0 (turn_speaker_name seg)
    end in
  let duration := (turn_end_seconds seg - turn_start_seconds seg)%Q in
  dict_set sid
    (mkDatum (d_talk_time d + duration)%Q (d_word_count d + turn_word_count seg)
       (d_turns d + 1) (d_speaker_name d))
    speaker_data.

(** [sum(...)] over floats and over ints. *)
Definition Qsum (l : list Q) : Q := fold_left Qplus l 0%Q.

Definition nat_sum (l : list nat) : nat := fold_left Nat.add l 0.

(** Rounding to the nearest integer, ties to even. *)
Definition round_half_even (x : Q) : Z :=
  let f := Qfloor x in
  match (x - inject_Z f ?= 1 # 2)%Q with
  | Lt => f
  | Gt => (f + 1)%Z
  | Eq => if Z.even f then f else (f + 1)%Z
  end.

(** ** Binary floating point

    Python's [float] is the IEEE 754 binary64 format.  Sums and differences
    of times are kept exact in this development; where the result of the
    program depends on the rounding of a quotient or a product, or on
    [round], the operation is modelled with its rounding: [binary64 x] is the
    binary64 number nearest to the real number [x], ties to the even
    significand.  The exponent range is not limited (no overflow and no
    gradual underflow, which only matter beyond 1e308 and below 1e-308). *)

(** The exponent of a positive rational: the [e] with
    [2^e <= x < 2^(e+1)]. *)
Definition Qexponent (x : Q) : Z :=
  if Qle_bool 1 x then Z.log2 (Qfloor x)
  else (- Z.log2_up (Qceiling (/ x)))%Z.

Definition binary64 (x : Q) : Q :=
  let a := Qabs x in
  if Qle_bool a 0 then 0%Q
  else
    let ulp := (2 ^ (Qexponent a - 52))%Q in
    let r := (inject_Z (round_half_even (a / ulp)) * ulp)%Q in
    Qred (if Qle_bool 0 x then r else - r).

(** [a / b] and [a * b] on floats (and [a / b] on two ints): the exact
    result, rounded once. *)
Definition float_div (a b : Q) : Q := binary64 (a / b).

Definition float_mul (a b : Q) : Q := binary64 (a * b).

(** [round(x, ndigits)] on a float: the decimal rounding, ties to even, of
    the binary64 number [x], and of that the nearest binary64 number. *)
Definition py_round (x : Q) (ndigits : nat) : Q :=
  let scale := inject_Z (10 ^ Z.of_nat ndigits) in
  binary64 (inject_Z (round_half_even (binary64 x * scale)) / scale).

(** [0 < x] on floats *)
Definition Qpos_bool (x : Q) : bool := negb (Qle_bool x 0).

Definition make_metrics (total_talk_time : Q) (item : pystr * speaker_datum)
    : SpeakerMetrics :=
  let '(sid, data) := item in
  let talk_time := d_talk_time data in
  let word_count := d_word_count data in
  let turns := d_turns data in
  mkMetrics sid (d_speaker_name data)
    (py_round talk_time 2)
    (py_round (if Qpos_bool total_talk_time
               then float_mul (float_div talk_time total_talk_time) 100
               else 0) 1)
    word_count
    (py_round (if Qpos_bool talk_time
               then float_mul
                      (float_div (inject_Z (Z.of_nat word_count)) talk_time) 60
               else 0) 1)
    turns
    (py_round (if 0 <? turns
               then float_div talk_time (inject_Z (Z.of_nat turns)) else 0) 2).

(** [list.sort(key=...)]: a stable sort; [before x y] tells that [x] may
    stay in front of [y]. *)
Fixpoint sort_insert {A : Type} (before : A → A → bool) (x : A) (l : list A)
    : list A :=
  match l with
  | [] => [x]
  | y :: l' => if before x y then x :: l else y :: sort_insert before x l'
  end.

Definition stable_sort {A : Type} (before : A → A → bool) (l : list A) : list A :=
  foldr (sort_insert before) [] l.

(** [key=lambda m: m.talk_time_seconds, reverse=True] *)
Definition by_talk_time_desc (x y : SpeakerMetrics) : bool :=
  Qle_bool (talk_time_seconds y) (talk_time_seconds x).

Definition compute_speaker_metrics (segments : list TranscriptSegment)
    : list SpeakerMetrics * list SpeakerSegment * nat :=
  if negb (truthy segments) then ([], [], 0)
  else
    let speaker_segments := consolidate segments in
    let speaker_data := fold_left data_step speaker_segments [] in
    let total_talk_time := Qsum (map (λ kv, d_talk_time kv.2) speaker_data) in
    let total_turns := nat_sum (map (λ kv, d_turns kv.2) speaker_data) in
    let metrics := map (make_metrics total_talk_time) speaker_data in
    (stable_sort by_talk_time_desc metrics, speaker_segments, total_turns).

(** ** Frame sampler: merge and downsampling *)

(** [key=lambda x: x[0]] *)
Definition by_timestamp (x y : frame) : bool := Qle_bool x.1 y.1.

(** The sweep [for timestamp, filename in all_frames]. *)
Fixpoint merge_sweep (min_gap last_time : Q) (all_frames : list frame)
    : list frame :=
  match all_frames with
  | [] => []
  | (timestamp, filename) :: rest =>
      if Qle_bool min_gap (timestamp - last_time)
      then (timestamp, filename) :: merge_sweep min_gap timestamp rest
      else merge_sweep min_gap last_time rest
  end.

Definition merge_frames (baseline scene_changes : list frame) (min_gap : Q)
    : list frame :=
  merge_sweep min_gap (- min_gap) (stable_sort by_timestamp (baseline ++ scene_changes)).

(** [l[i]] with Python's negative indices. *)
Definition py_index {A : Type} (l : list A) (i : Z) : outcome A :=
  let n := Z.of_nat (length l) in
  let j := if (i <? 0)%Z then (n + i)%Z else i in
  if (j <? 0)%Z then Raise IndexError
  else match l !! Z.to_nat j with
       | Some x => Ret x
       | None => Raise IndexError
       end.

(** [range(n)] *)
Definition py_range (n : Z) : list Z := map Z.of_nat (seq 0 (Z.to_nat n)).

Fixpoint omap_list {A B : Type} (f : A → outcome B) (l : list A)
    : outcome (list B) :=
  match l with
  | [] => Ret []
  | x :: l' => do y <- f x; do ys <- omap_list f l'; Ret (y :: ys)
  end.

(** The step "Adjust if we have too many frames" of [process_video], with
    the index arithmetic idealised: [len / target] and [i * step] exact.
    The statements about the whole pipeline use this form; they do not
    depend on which frame an index picks. *)
Definition downsample_frames (all_frames : list frame) (target_frames : Z)
    : outcome (list frame) :=
  let len := Z.of_nat (length all_frames) in
  if (target_frames <? len)%Z then
    if (target_frames =? 0)%Z then Raise ZeroDivisionError
    else
      let step := (inject_Z len / inject_Z target_frames)%Q in
      omap_list (λ i, py_index all_frames (py_trunc (inject_Z i * step)))
        (py_range target_frames)
  else Ret all_frames.

(** The index [int(i * step)] as the program computes it: [step] is the
    binary64 quotient of the two ints, [i * step] the binary64 product, and
    [int] truncates. *)
Definition binary64_index (len target i : Z) : Z :=
  py_trunc (float_mul (inject_Z i) (float_div (inject_Z len) (inject_Z target))).

(** The same step with the index arithmetic in binary64. *)
Definition downsample_frames_binary64 (all_frames : list frame)
    (target_frames : Z) : outcome (list frame) :=
  let len := Z.of_nat (length all_frames) in
  if (target_frames <? len)%Z then
    if (target_frames =? 0)%Z then Raise ZeroDivisionError
    else
      omap_list (λ i, py_index all_frames (binary64_index len target_frames i))
        (py_range target_frames)
  else Ret all_frames.

(** ** Temporal aligner *)

Definition no_transcript : pystr := str "[No transcript available]".

Definition encloses (timestamp : Q) (segment : TranscriptSegment) : bool :=
  Qle_bool (start_seconds segment) timestamp
  && Qle_bool timestamp (end_seconds segment).

(** The second loop: [closest] and [min_diff], where [None] as [min_diff]
    is [float('inf')]. *)
Definition closest_step (timestamp : Q)
    (st : option TranscriptSegment * option Q) (segment : TranscriptSegment)
    : option TranscriptSegment * option Q :=
  let diff := Qabs (start_seconds segment - timestamp) in
  match st.2 with
  | Some min_diff =>
      if negb (Qle_bool min_diff diff) then (Some segment, Some diff) else st
  | None => (Some segment, Some diff)
  end.

Definition find_transcript_segment (timestamp : Q)
    (segments : list TranscriptSegment) : pystr * option pystr * option pystr :=
  match find (encloses timestamp) segments with
  | Some segment => (text segment, speaker_id segment, speaker_name segment)
  | None =>
      match fold_left (closest_step timestamp) segments (None, None) with
      | (Some closest, Some min_diff) =>
          if negb (Qle_bool 10 min_diff)
          then (text closest, speaker_id closest, speaker_name closest)
          else (no_transcript, None, None)
      | _ => (no_transcript, None, None)
      end
  end.

(** ** Baseline frame collection

    [extract_baseline_frames] asks ffprobe for the duration, lets ffmpeg
    write [frame_0001.jpg], [frame_0002.jpg], ... and then walks the
    timestamps [0, interval, 2 * interval, ...] below the duration to
    collect the files that exist.  The duration and the file system are
    parameters here; the walk is the source's [while] loop. *)

(** The format [{z:04d}]: zero padding to width four, the sign counted. *)
Definition fmt_04d (z : Z) : pystr :=
  let digits := str_of_nat (Z.to_nat (Z.abs z)) in
  if (z <? 0)%Z then str "-" ++ repeat "0"%char (3 - length digits) ++ digits
  else repeat "0"%char (4 - length digits) ++ digits.

(** [os.path.join(a, b)] on a POSIX system. *)
Definition os_path_join (a b : pystr) : pystr :=
  if startswith (str "/") b then b
  else if negb (truthy a) || bool_decide (last a = Some "/"%char) then a ++ b
  else a ++ str "/" ++ b.

(** [f'frame_{frame_num:04d}.jpg'] *)
Definition frame_filename (frame_num : Z) : pystr :=
  str "frame_" ++ fmt_04d frame_num ++ str ".jpg".

(** The loop [while timestamp < duration].  [fuel] bounds the number of
    iterations; [OutOfFuel] is not a Python exception, it marks a loop that
    is still running. *)
Fixpoint baseline_loop (fuel : nat) (path_exists : pystr → bool)
    (output_dir : pystr) (interval duration : Q)
    (frame_num : Z) (timestamp : Q) (frames : list frame)
    : outcome (list frame) :=
  match fuel with
  | O => Raise OutOfFuel
  | S fuel' =>
      if negb (Qle_bool duration timestamp) then
        let filename := frame_filename frame_num in
        let filepath := os_path_join output_dir filename in
        let frames :=
          if path_exists filepath then frames ++ [(timestamp, filename)]
          else frames in
        baseline_loop fuel' path_exists output_dir interval duration
          (frame_num + 1) (timestamp + interval) frames
      else Ret frames
  end.

Definition extract_baseline_frames (fuel : nat) (path_exists : pystr → bool)
    (duration : Q) (output_dir : pystr) (interval : Q) : outcome (list frame) :=
  baseline_loop fuel path_exists output_dir interval duration 1 0 [].

(** ** Format detection

    [parse_transcript] reads the file and dispatches on the lower-cased
    suffix of its name, then on the content.  Reading the file is outside
    the model: the suffix and the content are the arguments. *)

(** [[\d:,]] *)
Definition is_srt_time_char (c : ascii) : bool :=
  is_digit c || is_char ":" c || is_char "," c.

(** The pattern [\d+\s*\n[\d:,]+\s*-->] behind the line anchor. *)
Definition re_srt_cue : regex :=
  cat [Plus is_digit; Star is_space; Chr (is_char newline);
       Plus is_srt_time_char; Star is_space; Lit "-->"].

(** [re.search('^' + r, s, re.MULTILINE)] for a pattern [r] without
    anchors: one attempt at the start of the string and one after each
    newline. *)
Fixpoint search_lines_go (r : regex) (at_line_start : bool) (s : pystr) : bool :=
  (at_line_start && matches r s)
  || match s with
     | [] => false
     | c :: s' => search_lines_go r (Ascii.eqb c newline) s'
     end.

Definition search_lines (r : regex) (s : pystr) : bool := search_lines_go r true s.

Definition parse_transcript (py_float : pystr → option Q) (ext content : pystr)
    : outcome (list TranscriptSegment) :=
  if bool_decide (ext = str ".vtt") then parse_vtt py_float content
  else if bool_decide (ext = str ".srt") then parse_srt py_float content
  else if startswith (str "WEBVTT") (strip content) then parse_vtt py_float content
  else if search_lines re_srt_cue content then parse_srt py_float content
  else parse_plain_text py_float content.

(** ** Session index: the aligned frames

    The loop of [process_video] that builds [output_frames].  An entry is
    the dictionary [frame_data]; the keys [speaker_id] and [speaker_name]
    are only set when the value is truthy, so [None] stands for an absent
    key. *)

Record frame_data : Type := mkFrameData {
  fd_timestamp : pystr;
  fd_timestamp_seconds : Q;
  fd_screenshot : pystr;
  fd_transcript_segment : pystr;
  fd_speaker_id : option pystr;
  fd_speaker_name : option pystr
}.

(** [if value: frame_data[key] = value] *)
Definition set_if_truthy (value : option pystr) : option pystr :=
  if truthy_opt value then value else None.

(** The body of [for timestamp, filename in all_frames]. *)
Definition frame_entry (segments : list TranscriptSegment) (f : frame)
    : frame_data :=
  let '(timestamp, filename) := f in
  let '(transcript_text, speaker_id, speaker_name) :=
    find_transcript_segment timestamp segments in
  mkFrameData (seconds_to_timestamp timestamp) (py_round timestamp 2) filename
    transcript_text (set_if_truthy speaker_id) (set_if_truthy speaker_name).

Definition output_frames (segments : list TranscriptSegment)
    (all_frames : list frame) : list frame_data :=
  map (frame_entry segments) all_frames.

(** * Call analyzer

    The second program of the repository reads the session index and looks
    for phrases in the transcript text of its frames. *)

(** ** Phrase patterns

    Every pattern of the tables is an alternation of literal phrases in one
    of three shapes: enclosed in word boundaries, anchored at the start of
    the string, or free.  The phrases are in lower case. *)

(** [str.lower] on one character of the Latin-1 block. *)
Definition lower_char (c : ascii) : ascii :=
  if in_range 65 90 c || in_range 192 214 c || in_range 216 222 c
  then ascii_of_nat (code c + 32) else c.

(** [s.lower()] *)
Definition lower (s : pystr) : pystr := map lower_char s.

(** [\w] on one character of the Latin-1 block. *)
Definition is_word (c : ascii) : bool :=
  in_range 48 57 c || in_range 65 90 c || (code c =? 95) || in_range 97 122 c
  || (code c =? 170) || (code c =? 178) || (code c =? 179) || (code c =? 181)
  || (code c =? 185) || (code c =? 186) || in_range 188 190 c
  || in_range 192 214 c || in_range 216 246 c || in_range 248 255 c.

Inductive anchor : Type := WordBounded | AtStart | Anywhere.

Record phrase_pattern : Type := mkPattern {
  pp_anchor : anchor;
  pp_phrases : list pystr
}.

(** [\b] between the character before the position, if any, and the
    character at the position, if any. *)
Definition word_boundary (prev : option ascii) (rest : pystr) : bool :=
  xorb (from_option is_word false prev) (from_option is_word false (head rest)).

(** A literal character of a pattern against a character of the text, with
    and without [re.IGNORECASE]. *)
Definition char_matches (ignore_case : bool) (p c : ascii) : bool :=
  if ignore_case then Ascii.eqb (lower_char c) p else Ascii.eqb c p.

(** A literal phrase at the start of [s]: the matched text and the rest. *)
Fixpoint match_literal (ignore_case : bool) (phrase s : pystr)
    : option (pystr * pystr) :=
  match phrase, s with
  | [], _ => Some ([], s)
  | p :: phrase', c :: s' =>
      if char_matches ignore_case p c
      then match match_literal ignore_case phrase' s' with
           | Some (m, rest) => Some (c :: m, rest)
           | None => None
           end
      else None
  | _ :: _, [] => None
  end.

(** The alternation at one position: the first phrase that matches and,
    for a bounded pattern, ends at a word boundary. *)
Fixpoint match_alternatives (ignore_case bounded : bool) (prev : option ascii)
    (phrases : list pystr) (s : pystr) : option pystr :=
  match phrases with
  | [] => None
  | phrase :: others =>
      match match_literal ignore_case phrase s with
      | Some (m, rest) =>
          if negb bounded
             || word_boundary (match last m with Some c => Some c | None => prev end) rest
          then Some m
          else match_alternatives ignore_case bounded prev others s
      | None => match_alternatives ignore_case bounded prev others s
      end
  end.

(** The scan of [re.search] over the start positions, left to right. *)
Fixpoint search_from (ignore_case bounded : bool) (phrases : list pystr)
    (prev : option ascii) (s : pystr) : option pystr :=
  match
    (if negb bounded || word_boundary prev s
     then match_alternatives ignore_case bounded prev phrases s
     else None)
  with
  | Some m => Some m
  | None =>
      match s with
      | [] => None
      | c :: s' => search_from ignore_case bounded phrases (Some c) s'
      end
  end.

(** [re.search(pattern, s, flags)]: [m.group(0)] of the match, if any. *)
Definition re_search (ignore_case : bool) (pattern : phrase_pattern) (s : pystr)
    : option pystr :=
  match pp_anchor pattern with
  | WordBounded => search_from ignore_case true (pp_phrases pattern) None s
  | AtStart => match_alternatives ignore_case false None (pp_phrases pattern) s
  | Anywhere => search_from ignore_case false (pp_phrases pattern) None s
  end.

(** ** Pattern tables *)

Definition PAIN_POINT_PATTERNS : list (phrase_pattern * pystr) :=
  [(mkPattern WordBounded [str "our biggest challenge"; str "our main challenge"; str "biggest problem"], str "high");
   (mkPattern WordBounded [str "we struggle with"; str "we're struggling with"; str "struggling to"], str "high");
   (mkPattern WordBounded [str "pain point"; str "frustrating"; str "frustration"], str "high");
   (mkPattern WordBounded [str "taking too long"; str "takes too long"; str "too slow"], str "medium");
   (mkPattern WordBounded [str "difficult to"; str "hard to"; str "challenging to"], str "medium");
   (mkPattern WordBounded [str "can't"; str "cannot"; str "unable to"], str "medium");
   (mkPattern WordBounded [str "wasting time"; str "waste of time"; str "time consuming"], str "medium");
   (mkPattern WordBounded [str "inefficient"; str "inefficiency"; str "bottleneck"], str "medium");
   (mkPattern WordBounded [str "problem is"; str "issue is"; str "challenge is"], str "medium");
   (mkPattern WordBounded [str "keeps breaking"; str "breaks often"; str "unreliable"], str "medium");
   (mkPattern WordBounded [str "manual process"; str "manually"; str "by hand"], str "low");
   (mkPattern WordBounded [str "outdated"; str "legacy"; str "old system"], str "low");
   (mkPattern WordBounded [str "workaround"; str "hack"; str "band-aid"], str "low")].

Definition OBJECTION_PATTERNS : list (phrase_pattern * pystr) :=
  [(mkPattern WordBounded [str "we've tried"; str "we tried"; str "tried before"], str "high");
   (mkPattern WordBounded [str "budget"; str "too expensive"; str "cost too much"; str "can't afford"], str "high");
   (mkPattern WordBounded [str "not sure if"; str "not convinced"; str "skeptical"], str "high");
   (mkPattern WordBounded [str "need to think"; str "think about it"; str "consider it"], str "high");
   (mkPattern WordBounded [str "talk to my"; str "check with my"; str "run it by"], str "high");
   (mkPattern WordBounded [str "already have"; str "currently using"; str "existing solution"], str "medium");
   (mkPattern WordBounded [str "too complex"; str "too complicated"; str "learning curve"], str "medium");
   (mkPattern WordBounded [str "don't have time"; str "no bandwidth"; str "too busy"], str "medium");
   (mkPattern WordBounded [str "not a priority"; str "lower priority"; str "back burner"], str "medium");
   (mkPattern WordBounded [str "contract"; str "locked in"; str "commitment"], str "medium");
   (mkPattern WordBounded [str "security concerns"; str "compliance"; str "regulations"], str "medium");
   (mkPattern WordBounded [str "integration"; str "doesn't integrate"; str "compatibility"], str "low");
   (mkPattern WordBounded [str "not now"; str "maybe later"; str "down the road"], str "low")].

Definition BUYING_SIGNAL_PATTERNS : list (phrase_pattern * pystr) :=
  [(mkPattern WordBounded [str "what's the next step"; str "next steps"; str "how do we proceed"], str "high");
   (mkPattern WordBounded [str "how quickly"; str "how soon"; str "when can we"; str "timeline"], str "high");
   (mkPattern WordBounded [str "what's the pricing"; str "how much"; str "cost"; str "investment"], str "high");
   (mkPattern WordBounded [str "can you send"; str "send me"; str "share with me"], str "high");
   (mkPattern WordBounded [str "implementation"; str "onboarding"; str "getting started"], str "high");
   (mkPattern WordBounded [str "pilot"; str "trial"; str "proof of concept"; str "poc"], str "high");
   (mkPattern WordBounded [str "decision maker"; str "who else"; str "stakeholder"], str "medium");
   (mkPattern WordBounded [str "exactly what we need"; str "perfect for"; str "solves our"], str "medium");
   (mkPattern WordBounded [str "impressive"; str "love that"; str "like that"; str "that's great"], str "medium");
   (mkPattern WordBounded [str "compared to"; str "versus"; str "vs"; str "better than"], str "medium");
   (mkPattern WordBounded [str "case study"; str "reference"; str "customer example"], str "medium");
   (mkPattern WordBounded [str "tell me more"; str "elaborate"; str "explain"], str "low");
   (mkPattern WordBounded [str "interesting"; str "intriguing"; str "curious"], str "low")].

Definition ACTION_ITEM_PATTERNS : list (phrase_pattern * pystr) :=
  [(mkPattern WordBounded [str "i'll send"; str "i will send"; str "let me send"], str "high");
   (mkPattern WordBounded [str "let's schedule"; str "schedule a"; str "set up a"], str "high");
   (mkPattern WordBounded [str "by friday"; str "by monday"; str "by end of"; str "by next week"], str "high");
   (mkPattern WordBounded [str "follow up"; str "following up"; str "reach out"], str "high");
   (mkPattern WordBounded [str "action item"; str "to-do"; str "task"], str "high");
   (mkPattern WordBounded [str "i'll check"; str "let me check"; str "look into"], str "medium");
   (mkPattern WordBounded [str "get back to you"; str "circle back"; str "touch base"], str "medium");
   (mkPattern WordBounded [str "put together"; str "prepare"; str "draft"], str "medium");
   (mkPattern WordBounded [str "introduce you to"; str "connect you with"; str "loop in"], str "medium");
   (mkPattern WordBounded [str "share with the team"; str "discuss internally"; str "talk to"], str "low")].

Definition OPEN_DISCOVERY_PATTERNS : list phrase_pattern :=
  [mkPattern AtStart [str "what"; str "how"; str "why"; str "tell me"; str "describe"; str "explain"; str "walk me through"];
   mkPattern AtStart [str "can you tell"; str "could you explain"; str "would you describe"];
   mkPattern Anywhere [str "what does"; str "what do you"; str "what are"; str "what is your"];
   mkPattern Anywhere [str "how does"; str "how do you"; str "how are"]].

Definition CLOSED_CONFIRMATION_PATTERNS : list phrase_pattern :=
  [mkPattern AtStart [str "is it"; str "are you"; str "do you"; str "does it"; str "can you"; str "will you"; str "would you"];
   mkPattern AtStart [str "have you"; str "has it"; str "did you"];
   mkPattern Anywhere [str "right?"; str "correct?"; str "yes?"; str "no?"];
   mkPattern AtStart [str "so you're saying"; str "so it's"; str "so this"]].

Definition CLARIFYING_PATTERNS : list phrase_pattern :=
  [mkPattern Anywhere [str "what do you mean"; str "could you clarify"; str "can you elaborate"];
   mkPattern Anywhere [str "did you say"; str "are you saying"; str "do you mean"];
   mkPattern Anywhere [str "sorry"; str "pardon"; str "excuse me"; str "come again"]].

(** ** Detection and classification *)

Record DetectedPattern : Type := mkDetected {
  pattern_type : pystr;
  dp_text : pystr;
  dp_timestamp_seconds : Q;
  dp_timestamp : pystr;
  dp_speaker_id : option pystr;
  dp_speaker_name : option pystr;
  confidence : pystr;
  matched_phrase : pystr
}.

Record Question : Type := mkQuestion {
  q_text : pystr;
  q_timestamp_seconds : Q;
  q_timestamp : pystr;
  q_speaker_id : option pystr;
  q_speaker_name : option pystr;
  question_type : pystr
}.

(** The loop [for pattern, confidence in patterns] with its [break]. *)
Fixpoint detect_loop (text text_lower : pystr)
    (patterns : list (phrase_pattern * pystr)) (type : pystr)
    (timestamp_seconds : Q) (speaker_id speaker_name : option pystr)
    : list DetectedPattern :=
  match patterns with
  | [] => []
  | (pattern, conf) :: rest =>
      match re_search true pattern text_lower with
      | Some m =>
          [mkDetected type text timestamp_seconds
             (seconds_to_timestamp timestamp_seconds) speaker_id speaker_name
             conf m]
      | None =>
          detect_loop text text_lower rest type timestamp_seconds
            speaker_id speaker_name
      end
  end.

Definition detect_patterns (text : pystr)
    (patterns : list (phrase_pattern * pystr)) (type : pystr)
    (timestamp_seconds : Q) (speaker_id speaker_name : option pystr)
    : list DetectedPattern :=
  detect_loop text (lower text) patterns type timestamp_seconds
    speaker_id speaker_name.

(** [any(re.search(pattern, s) for pattern in table)], as the [for] loops
    of [classify_question] use it. *)
Definition any_pattern (table : list phrase_pattern) (s : pystr) : bool :=
  existsb (λ pattern, bool_decide (is_Some (re_search false pattern s))) table.

Definition classify_question (text : pystr) : option pystr :=
  let text_lower := strip (lower text) in
  if negb (existsb (is_char "?") text) then None
  else if any_pattern CLARIFYING_PATTERNS text_lower then Some (str "clarifying")
  else if any_pattern OPEN_DISCOVERY_PATTERNS text_lower
       then Some (str "open_discovery")
  else if any_pattern CLOSED_CONFIRMATION_PATTERNS text_lower
       then Some (str "closed_confirmation")
  else Some (str "rhetorical").

(** ** Transcript analysis *)

(** A frame entry of the session index as the analyzer reads it with
    [frame.get]: [None] is an absent key. *)
Record index_frame : Type := mkIndexFrame {
  if_transcript_segment : option pystr;
  if_timestamp_seconds : option Q;
  if_speaker_id : option pystr;
  if_speaker_name : option pystr
}.

Record analysis : Type := mkAnalysis {
  pain_points : list DetectedPattern;
  objections : list DetectedPattern;
  buying_signals : list DetectedPattern;
  action_items : list DetectedPattern;
  questions : list Question
}.

(** The body of [for frame in frames]; the state is the five lists and
    [seen_texts]. *)
Definition analyze_step (st : analysis * gset pystr) (frame : index_frame)
    : analysis * gset pystr :=
  let '(a, seen_texts) := st in
  let text := default [] (if_transcript_segment frame) in
  if negb (truthy text) || bool_decide (text = no_transcript) then st
  else if bool_decide (text ∈ seen_texts) then st
  else
    let seen_texts := {[ text ]} ∪ seen_texts in
    let timestamp_seconds := default 0%Q (if_timestamp_seconds frame) in
    let speaker_id := if_speaker_id frame in
    let speaker_name := if_speaker_name frame in
    let found patterns type :=
      detect_patterns text patterns type timestamp_seconds
        speaker_id speaker_name in
    (mkAnalysis
       (pain_points a ++ found PAIN_POINT_PATTERNS (str "pain_point"))
       (objections a ++ found OBJECTION_PATTERNS (str "objection"))
       (buying_signals a ++ found BUYING_SIGNAL_PATTERNS (str "buying_signal"))
       (action_items a ++ found ACTION_ITEM_PATTERNS (str "action_item"))
       (questions a ++
          match classify_question text with
          | Some question_type =>
              [mkQuestion text timestamp_seconds
                 (seconds_to_timestamp timestamp_seconds)
                 speaker_id speaker_name question_type]
          | None => []
          end),
     seen_texts).

Definition analyze_transcript (frames : list index_frame) : analysis :=
  (fold_left analyze_step frames (mkAnalysis [] [] [] [] [], ∅)).1.

(** ** Call review *)

(** The loop that fills [question_counts]: a dictionary from question type
    to the number of questions of that type, in insertion order. *)
Definition count_step (question_counts : list (pystr * nat)) (q : Question)
    : list (pystr * nat) :=
  let qtype := question_type q in
  dict_set qtype (default 0 (dict_get qtype question_counts) + 1) question_counts.

Definition question_counts (a : analysis) : list (pystr * nat) :=
  fold_left count_step (questions a) [].

(** [len([p for p in detections if p.confidence == 'high'])] *)
Definition high_confidence (detections : list DetectedPattern) : nat :=
  length (filter (λ p, confidence p = str "high") detections).

(** ** Health indicators *)

(** One value of the [indicators] dictionary. *)
Record indicator : Type := mkIndicator {
  status : pystr;
  message : pystr
}.

(** An entry of [speaker_analysis['speakers']] as the analyzer reads it:
    [None] is an absent [talk_time_pct] key. *)
Record index_speaker : Type := mkIndexSpeaker {
  is_talk_time_pct : option Q
}.

(** The entry [process_video] writes for a speaker, reduced to the key the
    analyzer reads. *)
Definition index_speakers (speaker_metrics : list SpeakerMetrics)
    : list index_speaker :=
  map (λ m, mkIndexSpeaker (Some (talk_time_pct m))) speaker_metrics.

(** [key=lambda s: s.get('talk_time_pct', 0), reverse=True] *)
Definition by_pct_desc (x y : index_speaker) : bool :=
  Qle_bool (default 0%Q (is_talk_time_pct y)) (default 0%Q (is_talk_time_pct x)).

(** [x < y] on floats *)
Definition Qlt_bool (x y : Q) : bool := negb (Qle_bool y x).

Section Health.

(** The two float formats of the messages are parameters: [f'{x}'] and
    [f'{x:.0f}']. *)
Variable fmt_value : Q → pystr.
Variable fmt_0f : Q → pystr.

Definition talk_ratio (speakers : list index_speaker) (call_type : pystr)
    : list (pystr * indicator) :=
  if 2 <=? length speakers then
    match stable_sort by_pct_desc speakers with
    | top :: _ =>
        let top_speaker_pct := default 50%Q (is_talk_time_pct top) in
        if bool_decide (call_type = str "discovery") then
          if Qlt_bool top_speaker_pct 40 then
            [(str "talk_ratio",
              mkIndicator (str "needs_attention")
                (str "Rep may be talking too much. In discovery calls, aim for prospect to talk 60%+ of the time."))]
          else
            [(str "talk_ratio",
              mkIndicator (str "good")
                (str "Good balance with top speaker at "
                 ++ fmt_value top_speaker_pct ++ str "%"))]
        else if bool_decide (call_type = str "demo") then
          [(str "talk_ratio",
            mkIndicator (str "good")
              (str "Demo talk distribution: " ++ fmt_value top_speaker_pct
               ++ str "% for primary speaker"))]
        else []
    | [] => []
    end
  else [].

Definition question_quality (questions : list Question) (call_type : pystr)
    : list (pystr * indicator) :=
  let open_discovery :=
    length (filter (λ q, question_type q = str "open_discovery") questions) in
  if truthy questions then
    let open_ratio :=
      (inject_Z (Z.of_nat open_discovery)
       / inject_Z (Z.of_nat (length questions)))%Q in
    if bool_decide (call_type = str "discovery") && Qlt_bool open_ratio (4 # 10)
    then
      [(str "question_quality",
        mkIndicator (str "needs_attention")
          (str "Only " ++ fmt_0f (open_ratio * 100)%Q
           ++ str "% open-ended questions. Consider more discovery questions."))]
    else
      [(str "question_quality",
        mkIndicator (str "good")
          (fmt_0f (open_ratio * 100)%Q ++ str "% open-ended, "
           ++ fmt_0f ((1 - open_ratio) * 100)%Q ++ str "% closed questions"))]
  else [].

Definition pain_discovery (pain_points : list DetectedPattern) (call_type : pystr)
    : list (pystr * indicator) :=
  if bool_decide (call_type = str "discovery") then
    if length pain_points =? 0 then
      [(str "pain_discovery",
        mkIndicator (str "needs_attention")
          (str "No clear pain points identified. Dig deeper into challenges."))]
    else if 2 <=? length pain_points then
      [(str "pain_discovery",
        mkIndicator (str "good")
          (str "Identified " ++ str_of_nat (length pain_points)
           ++ str " pain points"))]
    else
      [(str "pain_discovery",
        mkIndicator (str "moderate")
          (str "One pain point identified. Consider exploring more."))]
  else [].

Definition objection_handling (objections : list DetectedPattern)
    : list (pystr * indicator) :=
  if truthy objections then
    [(str "objections",
      mkIndicator (str "attention_needed")
        (str_of_nat (length objections)
         ++ str " objection(s) detected. Review handling in transcript."))]
  else [].

Definition buying_intent (buying_signals : list DetectedPattern)
    : list (pystr * indicator) :=
  if truthy buying_signals then
    [(str "buying_intent",
      mkIndicator (str "positive")
        (str_of_nat (length buying_signals) ++ str " buying signals detected ("
         ++ str_of_nat (high_confidence buying_signals)
         ++ str " high confidence)"))]
  else [].

Definition next_steps (action_items : list DetectedPattern)
    : list (pystr * indicator) :=
  if truthy action_items then
    [(str "next_steps",
      mkIndicator (str "good")
        (str_of_nat (length action_items) ++ str " action items identified"))]
  else
    [(str "next_steps",
      mkIndicator (str "needs_attention")
        (str "No clear next steps identified. Ensure follow-up is defined."))].

(** The [indicators] dictionary in insertion order; every key is set at
    most once. *)
Definition generate_health_indicators (a : analysis)
    (speakers : list index_speaker) (call_type : pystr)
    : list (pystr * indicator) :=
  talk_ratio speakers call_type
  ++ question_quality (questions a) call_type
  ++ pain_discovery (pain_points a) call_type
  ++ objection_handling (objections a)
  ++ buying_intent (buying_signals a)
  ++ next_steps (action_items a).

End Health.

(** The icon [main] prints for a status. *)
Definition status_icon (status : pystr) : pystr :=
  if bool_decide (status = str "good") then str "+"
  else if bool_decide (status = str "positive") then str "+"
  else if bool_decide (status = str "moderate") then str "~"
  else if bool_decide (status = str "needs_attention") then str "!"
  else if bool_decide (status = str "attention_needed") then str "!"
  else str "?".

(** ** Scene change detection

    [detect_scene_changes] runs ffmpeg, reads the scene times from the
    [pts_time:] fields of its diagnostic output, lets ffmpeg write one file
    per scene time and collects the files that exist.  The diagnostic
    output and the file system are parameters. *)

(** [[\d.]] *)
Definition is_pts_char (c : ascii) : bool := is_digit c || is_char "." c.

(** [pts_time:([\d.]+)] *)
Definition re_pts_time : regex := Seq (Lit "pts_time:") (Grp 1 (Plus is_pts_char)).

(** [re.search(r, s)] for a pattern without anchors: the groups of the
    match at the first position that has one. *)
Fixpoint re_search_groups (r : regex) (s : pystr) : option groups :=
  match re_match r s with
  | Some (g, _) => Some g
  | None =>
      match s with
      | [] => None
      | _ :: s' => re_search_groups r s'
      end
  end.

(** [f'scene_{i:04d}.jpg'] *)
Definition scene_filename (i : nat) : pystr :=
  str "scene_" ++ fmt_04d (Z.of_nat i) ++ str ".jpg".

Section SceneChanges.

Variable py_float : pystr → option Q.
Variable path_exists : pystr → bool.

(** The loop [for line in result.stderr.split('\n')]; the [float] call is
    not guarded, so a value it rejects ends the function. *)
Fixpoint scene_times_loop (lines : list pystr) (scene_times : list Q)
    : outcome (list Q) :=
  match lines with
  | [] => Ret scene_times
  | line :: rest =>
      match re_search_groups re_pts_time line with
      | Some g =>
          match py_float (group 1 g) with
          | Some t => scene_times_loop rest (scene_times ++ [t])
          | None => Raise ValueError
          end
      | None => scene_times_loop rest scene_times
      end
  end.

(** The loop [for i, timestamp in enumerate(scene_times)]. *)
Fixpoint scene_frames_loop (output_dir : pystr) (i : nat) (scene_times : list Q)
    (frames : list frame) : list frame :=
  match scene_times with
  | [] => frames
  | timestamp :: rest =>
      let filename := scene_filename i in
      let filepath := os_path_join output_dir filename in
      scene_frames_loop output_dir (S i) rest
        (if path_exists filepath then frames ++ [(timestamp, filename)]
         else frames)
  end.

Definition detect_scene_changes (stderr output_dir : pystr)
    : outcome (list frame) :=
  do scene_times <- scene_times_loop (split_on newline stderr) [];
  Ret (scene_frames_loop output_dir 0 scene_times []).

End SceneChanges.

(** ** The session index

    [process_video] from the transcript to the index it writes.  The
    duration reported by ffprobe, the diagnostic output of ffmpeg and the
    file system are parameters; the two file names of the index, which only
    pass through [os.path.basename], are left out. *)

Record speaker_analysis : Type := mkSpeakerAnalysis {
  total_speakers : nat;
  total_turns : nat;
  speakers : list SpeakerMetrics
}.

Record session_index : Type := mkIndex {
  duration_seconds : Q;
  total_frames : nat;
  frame_interval_seconds : Q;
  scene_detection_threshold : Q;
  ix_speaker_analysis : speaker_analysis;
  ix_frames : list frame_data
}.

Definition process_video (fuel : nat) (py_float : pystr → option Q)
    (path_exists : pystr → bool) (duration : Q) (stderr : pystr)
    (ext content : pystr) (frames_dir : pystr)
    (frame_interval scene_threshold : Q) (target_frames : Z)
    : outcome session_index :=
  do segments <- parse_transcript py_float ext content;
  let '(speaker_metrics, _, turns) := compute_speaker_metrics segments in
  do baseline_frames <-
    extract_baseline_frames fuel path_exists duration frames_dir frame_interval;
  do scene_frames <- detect_scene_changes py_float path_exists stderr frames_dir;
  let all_frames := merge_frames baseline_frames scene_frames 2 in
  do all_frames <- downsample_frames all_frames target_frames;
  let output_frames := output_frames segments all_frames in
  Ret (mkIndex (py_round duration 2) (length output_frames) frame_interval
         scene_threshold
         (mkSpeakerAnalysis (length speaker_metrics) turns speaker_metrics)
         output_frames).

(** ** From the index to the analyzer

    The frame entry the analyzer reads after [json.dump] and [json.load]:
    the keys [process_video] always writes are present, the two speaker keys
    only when it set them. *)
Definition index_frame_of (e : frame_data) : index_frame :=
  mkIndexFrame (Some (fd_transcript_segment e)) (Some (fd_timestamp_seconds e))
    (fd_speaker_id e) (fd_speaker_name e).

(** * Vocabulary of the statements *)

(** ** Matching *)

(** What a continuation receives: a suffix of the input and the position
    advanced by the number of characters consumed. *)
Definition advanced (s : pystr) (pos : nat) (s' : pystr) (pos' : nat) : Prop :=
  s' `suffix_of` s ∧ pos' = pos + (length s - length s').

(** A pattern without capture group. *)
Fixpoint groupless (r : regex) : bool :=
  match r with
  | Seq r1 r2 => groupless r1 && groupless r2
  | Opt r1 => groupless r1
  | Grp _ _ => false
  | _ => true
  end.

(** The last character, if any, is not white space. *)
Definition ends_clean (s : pystr) : Prop :=
  ∀ c, last s = Some c → is_space c = false.

(** ** Timestamp notations *)

(** A field of [lo] to [hi] decimal digits. *)
Definition digit_field (lo hi : nat) (f : pystr) : Prop :=
  lo ≤ length f ≤ hi ∧ forallb is_digit f = true.

(** The value of a string of decimal digits. *)
Definition digits_value (f : pystr) : Z :=
  fold_left (λ acc c, (10 * acc + digit_val c)%Z) f 0%Z.

(** [t] starts with [H:MM:SS], a comma or a dot, and [mmm]. *)
Definition hms_ms_prefix (t H M S MS : pystr) : Prop :=
  ∃ sep rest, t = H ++ ":"%char :: M ++ ":"%char :: S ++ sep :: MS ++ rest
    ∧ is_comma_dot sep = true
    ∧ digit_field 1 2 H ∧ digit_field 2 2 M ∧ digit_field 2 2 S
    ∧ digit_field 3 3 MS.

(** [t] starts with [H:MM:SS]. *)
Definition hms_prefix (t H M S : pystr) : Prop :=
  ∃ rest, t = H ++ ":"%char :: M ++ ":"%char :: S ++ rest
    ∧ digit_field 1 2 H ∧ digit_field 2 2 M ∧ digit_field 2 2 S.

(** [t] starts with [M:SS], a comma or a dot, and [mmm]. *)
Definition ms_ms_prefix (t M S MS : pystr) : Prop :=
  ∃ sep rest, t = M ++ ":"%char :: S ++ sep :: MS ++ rest
    ∧ is_comma_dot sep = true
    ∧ digit_field 1 2 M ∧ digit_field 2 2 S ∧ digit_field 3 3 MS.

(** [t] starts with [M:SS]. *)
Definition ms_prefix (t M S : pystr) : Prop :=
  ∃ rest, t = M ++ ":"%char :: S ++ rest
    ∧ digit_field 1 2 M ∧ digit_field 2 2 S.

(** The seconds a trimmed string [t] stands for: the first notation, in
    priority order, that a prefix of [t] is written in; then a bare number,
    which is any string [float] accepts; else zero. *)
Inductive notation_value (py_float : pystr → option Q) (t : pystr) : Q → Prop :=
| value_hms_ms (H M S MS : pystr) :
    hms_ms_prefix t H M S MS →
    notation_value py_float t
      (inject_Z (digits_value H * 3600 + digits_value M * 60 + digits_value S)
       + inject_Z (digits_value MS) / 1000)
| value_hms (H M S : pystr) :
    (∀ H' M' S' MS', ¬ hms_ms_prefix t H' M' S' MS') →
    hms_prefix t H M S →
    notation_value py_float t
      (inject_Z (digits_value H * 3600 + digits_value M * 60 + digits_value S))
| value_ms_ms (M S MS : pystr) :
    (∀ H' M' S' MS', ¬ hms_ms_prefix t H' M' S' MS') →
    (∀ H' M' S', ¬ hms_prefix t H' M' S') →
    ms_ms_prefix t M S MS →
    notation_value py_float t
      (inject_Z (digits_value M * 60 + digits_value S)
       + inject_Z (digits_value MS) / 1000)
| value_ms (M S : pystr) :
    (∀ H' M' S' MS', ¬ hms_ms_prefix t H' M' S' MS') →
    (∀ H' M' S', ¬ hms_prefix t H' M' S') →
    (∀ M' S' MS', ¬ ms_ms_prefix t M' S' MS') →
    ms_prefix t M S →
    notation_value py_float t
      (inject_Z (digits_value M * 60 + digits_value S))
| value_number (v : Q) :
    (∀ H' M' S' MS', ¬ hms_ms_prefix t H' M' S' MS') →
    (∀ H' M' S', ¬ hms_prefix t H' M' S') →
    (∀ M' S' MS', ¬ ms_ms_prefix t M' S' MS') →
    (∀ M' S', ¬ ms_prefix t M' S') →
    py_float t = Some v →
    notation_value py_float t v
| value_default :
    (∀ H' M' S' MS', ¬ hms_ms_prefix t H' M' S' MS') →
    (∀ H' M' S', ¬ hms_prefix t H' M' S') →
    (∀ M' S' MS', ¬ ms_ms_prefix t M' S' MS') →
    (∀ M' S', ¬ ms_prefix t M' S') →
    py_float t = None →
    notation_value py_float t 0.

(** A field of one or two digits written with two digits. *)
Definition pad2 (f : pystr) : pystr :=
  match f with
  | [c] => ["0"%char; c]
  | _ => f
  end.

(** ** Speaker identity *)

(** The identifier [speaker_N]. *)
Definition speaker_ident (n : nat) : pystr := str "speaker_" ++ str_of_nat n.

(** The speaker label of an emitted segment: its non-empty [speaker_name]
    (the parsers test the truthiness of the label). *)
Definition label_of (seg : TranscriptSegment) : option pystr :=
  match speaker_name seg with
  | Some l => if truthy l then Some l else None
  | None => None
  end.

Definition see (seen : list pystr) (l : option pystr) : list pystr :=
  match l with
  | Some x => if bool_decide (x ∈ seen) then seen else seen ++ [x]
  | None => seen
  end.

(** The distinct labels of a segment sequence, in first-seen order. *)
Definition first_seen (segs : list TranscriptSegment) : list pystr :=
  fold_left see (map label_of segs) [].

(** Every labelled segment carries [speaker_N], [N] the first-seen rank of
    its label; a segment without a label carries no identifier. *)
Definition ranked_ids (segs : list TranscriptSegment) : Prop :=
  ∀ seg, seg ∈ segs →
    match label_of seg with
    | Some l => ∃ n, first_seen segs !! n = Some l
                  ∧ speaker_id seg = Some (speaker_ident (S n))
    | None => speaker_id seg = None
    end.

(** Two labelled segments share an identifier exactly when their labels
    are the same string. *)
Definition stable_ids (segs : list TranscriptSegment) : Prop :=
  ∀ a b la lb, a ∈ segs → b ∈ segs →
    label_of a = Some la → label_of b = Some lb →
    (speaker_id a = speaker_id b ↔ la = lb).

Definition first_seen_resolution (segs : list TranscriptSegment) : Prop :=
  NoDup (first_seen segs) ∧ ranked_ids segs ∧ stable_ids segs.

(** The invariant tying [speaker_counter] to the segments emitted so far. *)
Definition resolver_invariant (speaker_counter : gmap pystr pystr)
    (segs : list TranscriptSegment) : Prop :=
  NoDup (first_seen segs)
  ∧ size speaker_counter = length (first_seen segs)
  ∧ (∀ n l, first_seen segs !! n = Some l →
            speaker_counter !! l = Some (speaker_ident (S n)))
  ∧ (∀ l, is_Some (speaker_counter !! l) → l ∈ first_seen segs)
  ∧ ranked_ids segs.

(** ** Speaker-name heuristic *)

(** At most four whitespace-separated tokens. *)
Definition few_tokens (name : pystr) : Prop := length (split_ws name) ≤ 4.

(** No digit character. *)
Definition digit_free (name : pystr) : Prop :=
  Forall (λ c, isdigit c = false) name.

(** ** Turns and metrics *)

(** The speaker a segment resolves to in the consolidation. *)
Definition resolved_speaker (seg : TranscriptSegment) : pystr :=
  or_unknown (speaker_id seg).

(** Every maximal run of equal consecutive entries collapsed into one. *)
Fixpoint squash (l : list pystr) : list pystr :=
  match l with
  | [] => []
  | x :: l' =>
      match l' with
      | y :: _ => if bool_decide (x = y) then squash l' else x :: squash l'
      | [] => [x]
      end
  end.

(** The invariant of the consolidation loop after the segments seen so far. *)
Definition consolidation_invariant (segments : list TranscriptSegment)
    (st : consolidation) : Prop :=
  match segments with
  | [] => st = mkCons None None 0 0 [] []
  | _ => ∃ c, current_speaker st = Some c ∧ truthy c = true
           ∧ truthy (current_text_parts st) = true
           ∧ squash (map resolved_speaker segments)
             = map turn_speaker_id (speaker_segments st) ++ [c]
  end.

(** The [total_talk_time] of [compute_speaker_metrics]: the sum over the
    speakers of their accumulated turn durations. *)
Definition total_talk_time (segments : list TranscriptSegment) : Q :=
  Qsum (map (λ kv, d_talk_time kv.2)
          (fold_left data_step (consolidate segments) [])).

(** The speaker metrics returned by [compute_speaker_metrics]. *)
Definition metrics_of (segments : list TranscriptSegment) : list SpeakerMetrics :=
  (compute_speaker_metrics segments).1.1.

(** The sum of [talk_time_pct] across the returned speaker metrics. *)
Definition pct_sum (segments : list TranscriptSegment) : Q :=
  Qsum (map talk_time_pct (metrics_of segments)).

(** ** Frames and alignment *)

(** Ascending timestamps. *)
Definition chronological (l : list frame) : Prop :=
  StronglySorted (λ a b : frame, (a.1 <= b.1)%Q) l.

(** Every two consecutive entries are at least [gap] apart. *)
Definition spaced (gap : Q) (l : list frame) : Prop :=
  ∀ (i : nat) (a b : frame),
    l !! i = Some a → l !! S i = Some b → (gap <= b.1 - a.1)%Q.

(** What the aligner returns for a segment. *)
Definition segment_link (s : TranscriptSegment) : pystr * option pystr * option pystr :=
  (text s, speaker_id s, speaker_name s).


(** The absolute difference between the start of a segment and [T]. *)
Definition start_distance (T : Q) (s : TranscriptSegment) : Q :=
  Qabs (start_seconds s - T).

(** ** Sample inputs *)

(** A stand-in for the builtin [float] on plain decimal literals
    ([digits], [digits.], [digits.digits], [.digits]); every statement
    below quantifies over the builtin, this instance only closes the
    examples. *)
Definition float_decimal (s : pystr) : option Q :=
  let value (int frac : pystr) : option Q :=
    if truthy (int ++ frac) && forallb is_digit (int ++ frac)
    then Some (inject_Z (digits_value int)
               + inject_Z (digits_value frac)
                 / inject_Z (10 ^ Z.of_nat (length frac)))%Q
    else None in
  match split_on "." (strip s) with
  | [int] => value int []
  | [int; frac] => value int frac
  | _ => None
  end.

(** The end-to-end scenario: Alice speaks from 0 to 3, Bob from 3 to 7. *)
Definition alice_and_bob : list TranscriptSegment :=
  [mkSegment 0 3 (str "Hello there") (Some (str "speaker_1")) (Some (str "Alice"));
   mkSegment 3 7 (str "Hi Alice, good to see you") (Some (str "speaker_2"))
     (Some (str "Bob"))].

(** The end-to-end scenario as an indexed cue-block transcript. *)
Definition alice_and_bob_srt : pystr :=
  join [newline]
    [str "1"; str "00:00:00,000 --> 00:00:03,000"; str "Alice: Hello there";
     str "";
     str "2"; str "00:00:03,000 --> 00:00:07,000";
     str "Bob: Hi Alice, good to see you"].

(** Six speakers with one second each: every share is 16.666..., rounded
    to 16.7, and the six percentages sum to 100.2. *)
Definition six_speakers : list TranscriptSegment :=
  map (λ n : nat,
         mkSegment (inject_Z (Z.of_nat n)) (inject_Z (Z.of_nat (S n)))
           (str "hello") (Some (str "speaker_" ++ str_of_nat (S n))) None)
      (seq 0 6).

(** One speaker talks for 7 seconds and another for the next 1993: the
    shares are 0.35 and 99.65 percent. *)
Definition short_and_long : list TranscriptSegment :=
  [mkSegment 0 7 (str "hello") (Some (str "speaker_1")) None;
   mkSegment 7 2000 (str "welcome") (Some (str "speaker_2")) None].

(** An indexed cue block whose cue has no text line. *)
Definition srt_cue_without_text : pystr :=
  str "1" ++ [newline] ++ str "00:00:01,000 --> 00:00:02,000".


(** ** Vocabulary of the further properties *)

(** The start and end of each freeform item: an item ends where the next
    one starts, the last one ten seconds after its start. *)
Fixpoint item_spans (items : list (Q * pystr * option pystr)) : list (Q * Q) :=
  match items with
  | [] => []
  | (start, _, _) :: rest =>
      (start, match rest with
              | (next_start, _, _) :: _ => next_start
              | [] => (start + 10)%Q
              end) :: item_spans rest
  end.

Definition segment_span (seg : TranscriptSegment) : Q * Q :=
  (start_seconds seg, end_seconds seg).

(** Each entry ends where the next one starts. *)
Definition chained (l : list (Q * Q)) : Prop :=
  ∀ (i : nat) (a b : Q * Q), l !! i = Some a → l !! S i = Some b → a.2 = b.1.

(** The maximal runs of consecutive segments of one resolved speaker, in
    order. *)
Fixpoint runs (segments : list TranscriptSegment) : list (list TranscriptSegment) :=
  match segments with
  | [] => []
  | seg :: rest =>
      match runs rest with
      | (next :: run) :: others =>
          if bool_decide (resolved_speaker seg = resolved_speaker next)
          then (seg :: next :: run) :: others
          else [seg] :: (next :: run) :: others
      | _ => [[seg]]
      end
  end.

(** The turn that stands for a run: speaker and start of its first segment,
    end of its last segment, the texts joined by single spaces. *)
Definition turn_of_run (run : list TranscriptSegment) : SpeakerSegment :=
  let text := join (str " ") (map text run) in
  mkTurn (from_option resolved_speaker unknown (head run))
    (head run ≫= speaker_name)
    (from_option start_seconds 0%Q (head run))
    (from_option end_seconds 0%Q (last run))
    text (word_count_of text).

(** All segments of a run have the same resolved speaker [c]. *)
Definition run_of (c : pystr) (run : list TranscriptSegment) : Prop :=
  run ≠ [] ∧ Forall (λ seg, resolved_speaker seg = c) run.

(** The loop state while the run [run] of speaker [c] is still open. *)
Definition open_run (c : pystr) (run : list TranscriptSegment)
    (st : consolidation) : Prop :=
  run_of c run ∧ truthy c = true
  ∧ current_speaker st = Some c
  ∧ current_speaker_name st = head run ≫= speaker_name
  ∧ current_start st = from_option start_seconds 0%Q (head run)
  ∧ current_end st = from_option end_seconds 0%Q (last run)
  ∧ current_text_parts st = map text run.

(** A frame is covered by a kept frame [k] when it lies less than [gap]
    after it. *)
Definition covered_by (gap : Q) (f k : frame) : Prop :=
  (k.1 <= f.1)%Q ∧ (f.1 - k.1 < gap)%Q.

(** Candidate frames of a two-minute video: baseline frames every 30
    seconds and two detected scene changes. *)
Definition sample_baseline : list frame :=
  [(0, str "baseline_0000.jpg"); (30, str "baseline_0001.jpg");
   (60, str "baseline_0002.jpg"); (90, str "baseline_0003.jpg")]%Q.

Definition sample_scene_changes : list frame :=
  [(31, str "scene_0001.jpg"); (72, str "scene_0002.jpg")]%Q.

(** A timeline as the parsers intend it: no segment ends before it starts,
    and the segments are in the order of their start times. *)
Definition timeline (segments : list TranscriptSegment) : Prop :=
  Forall (λ seg, (start_seconds seg <= end_seconds seg)%Q) segments
  ∧ StronglySorted (λ a b, (start_seconds a <= start_seconds b)%Q) segments.

(** The frames the collection is expected to find: for each index [j] from
    [k] on, [m] of them, the frame at [j * interval] with file number
    [j + 1], when that file exists. *)
Definition baseline_schedule (path_exists : pystr → bool) (output_dir : pystr)
    (interval : Q) (k m : nat) : list frame :=
  flat_map
    (λ j : nat,
       if path_exists (os_path_join output_dir (frame_filename (Z.of_nat j + 1)))
       then [((inject_Z (Z.of_nat j) * interval)%Q,
              frame_filename (Z.of_nat j + 1))]
       else [])
    (seq k m).

(** Two frames with equal timestamps (as rationals) and the same file. *)
Definition same_frame (a b : frame) : Prop := (a.1 == b.1)%Q ∧ a.2 = b.2.

(** The number of timestamps [0, interval, 2 * interval, ...] below
    [duration]. *)
Definition baseline_count (interval duration : Q) : nat :=
  Z.to_nat (Qceiling (duration / interval)).

(** ** Vocabulary of the call analyzer *)

(** The text [m] spells the phrase, up to case under [re.IGNORECASE]. *)
Definition spells (ignore_case : bool) (phrase m : pystr) : Prop :=
  Forall2 (λ p c, char_matches ignore_case p c = true) phrase m.

(** The string [s] is [pre ++ m ++ post] where [m] spells the phrase at a
    place the anchor allows: between two word boundaries, at the start of
    the string, or anywhere. *)
Definition occurrence (a : anchor) (ignore_case : bool) (phrase : pystr)
    (s pre m post : pystr) : Prop :=
  s = pre ++ m ++ post ∧ spells ignore_case phrase m
  ∧ match a with
    | WordBounded =>
        word_boundary (last pre) (m ++ post) = true
        ∧ word_boundary (last (pre ++ m)) post = true
    | AtStart => pre = []
    | Anywhere => True
    end.

(** Some phrase of the pattern occurs in [s]. *)
Definition occurs (ignore_case : bool) (pattern : phrase_pattern) (s : pystr)
    : Prop :=
  ∃ phrase pre m post,
    phrase ∈ pp_phrases pattern
    ∧ occurrence (pp_anchor pattern) ignore_case phrase s pre m post.

(** Some pattern of a table occurs in [s], case-sensitively. *)
Definition table_occurs (table : list phrase_pattern) (s : pystr) : Prop :=
  ∃ pattern, pattern ∈ table ∧ occurs false pattern s.

(** A text the analyzer looks at: the transcript text of some frame, not
    empty and not the "no transcript available" sentinel. *)
Definition analyzed_text (frames : list index_frame) (t : pystr) : Prop :=
  t ≠ [] ∧ t ≠ no_transcript
  ∧ ∃ frame, frame ∈ frames ∧ if_transcript_segment frame = Some t.

(** No text twice, and every text among the seen ones. *)
Definition texts_within (seen : gset pystr) (texts : list pystr) : Prop :=
  NoDup texts ∧ ∀ t, t ∈ texts → t ∈ seen.

(** The invariant of the loop of [analyze_transcript] after the frames
    [done_]. *)
Definition analysis_invariant (done_ : list index_frame)
    (st : analysis * gset pystr) : Prop :=
  (∀ t, t ∈ st.2 → analyzed_text done_ t)
  ∧ texts_within st.2 (map dp_text (pain_points st.1))
  ∧ texts_within st.2 (map dp_text (objections st.1))
  ∧ texts_within st.2 (map dp_text (buying_signals st.1))
  ∧ texts_within st.2 (map dp_text (action_items st.1))
  ∧ texts_within st.2 (map q_text (questions st.1))
  ∧ Forall (λ q, "?"%char ∈ q_text q) (questions st.1).

(** Every text at most once, and only texts the analyzer looks at. *)
Definition once_each (frames : list index_frame) (texts : list pystr) : Prop :=
  NoDup texts ∧ Forall (analyzed_text frames) texts.

(** A part of the indicators dictionary that sets the key [key] or
    nothing, with a status [main] has an icon for. *)
Definition indicator_part (key : pystr) (part : list (pystr * indicator)) : Prop :=
  (map fst part = [] ∨ map fst part = [key])
  ∧ Forall (λ kv, status_icon (status kv.2) ≠ str "?") part.

(** The number of questions of one type. *)
Definition questions_of_type (qtype : pystr) (qs : list Question) : nat :=
  length (filter (λ q, question_type q = qtype) qs).

(** The scene frames the collection is expected to find: the [i]-th scene
    time with the file [scene_i], when that file exists. *)
Definition scene_schedule (path_exists : pystr → bool) (output_dir : pystr)
    (first : nat) (scene_times : list Q) : list frame :=
  concat
    (imap (λ i timestamp,
             if path_exists (os_path_join output_dir (scene_filename (first + i)))
             then [(timestamp, scene_filename (first + i))]
             else [])
       scene_times).

(** The text of the [pts_time:] field of a line is a number for [float]. *)
Definition pts_time_readable (py_float : pystr → option Q) (line : pystr) : Prop :=
  ∀ g, re_search_groups re_pts_time line = Some g →
       is_Some (py_float (group 1 g)).

(** All texts the analysis reports, over its five lists. *)
Definition reported_texts (a : analysis) : list pystr :=
  map dp_text (pain_points a) ++ map dp_text (objections a)
  ++ map dp_text (buying_signals a) ++ map dp_text (action_items a)
  ++ map q_text (questions a).

(** A tag starts at the head of [s]: [<], a non-empty body without [>],
    and [>]. *)
Definition tag_at_head (s : pystr) : Prop :=
  ∃ body post, s = "<"%char :: body ++ ">"%char :: post
    ∧ body ≠ [] ∧ ">"%char ∉ body.

(** No tag starts anywhere in [t]. *)
Definition tag_free (t : pystr) : Prop :=
  ∀ pre rest, t = pre ++ rest → ¬ tag_at_head rest.
(** * Properties *)

(** ** Rational comparisons *)

Lemma Qle_bool_true (a b : Q) : Qle_bool a b = true ↔ (a <= b)%Q.
Proof. apply Qle_bool_iff. Qed.

Lemma Qle_bool_false (a b : Q) : Qle_bool a b = false ↔ (b < a)%Q.
Proof.
  split.
  - intros H. apply Qnot_le_lt. intros Hle.
    apply Qle_bool_iff in Hle. congruence.
  - intros H. destruct (Qle_bool a b) eqn:E; [|done].
    apply Qle_bool_iff in E. exfalso. by apply (Qlt_not_le _ _ H).
Qed.

(** ** Soundness of the matcher *)

Lemma advanced_refl (s : pystr) (pos : nat) : advanced s pos s pos.
Proof. split; [done|lia]. Qed.

Lemma advanced_trans (s s1 s2 : pystr) (pos pos1 pos2 : nat) :
  advanced s pos s1 pos1 → advanced s1 pos1 s2 pos2 → advanced s pos s2 pos2.
Proof.
  intros [H1 ->] [H2 ->]. split; [by etrans|].
  apply suffix_length in H1, H2. lia.
Qed.

Lemma advanced_cons (c : ascii) (s : pystr) (pos : nat) :
  advanced (c :: s) pos s (S pos).
Proof. split; [by apply suffix_cons_r|simpl; lia]. Qed.

Lemma star_greedy_sound {A : Type} (p : ascii → bool) (s : pystr) (pos : nat)
    (k : pystr → nat → option A) (a : A) :
  star_greedy p s pos k = Some a →
  ∃ s' pos', k s' pos' = Some a ∧ advanced s pos s' pos'.
Proof.
  revert pos. induction s as [|c s IH]; intros pos H; simpl in H.
  - exists [], pos. split; [done|apply advanced_refl].
  - destruct (p c).
    + destruct (star_greedy p s (S pos) k) as [b|] eqn:E.
      * inversion H; subst b. destruct (IH _ E) as (s' & pos' & Hk & Hadv).
        exists s', pos'. split; [done|].
        eapply advanced_trans; [apply advanced_cons|done].
      * exists (c :: s), pos. split; [done|apply advanced_refl].
    + exists (c :: s), pos. split; [done|apply advanced_refl].
Qed.

Lemma star_lazy_sound {A : Type} (p : ascii → bool) (s : pystr) (pos : nat)
    (k : pystr → nat → option A) (a : A) :
  star_lazy p s pos k = Some a →
  ∃ s' pos', k s' pos' = Some a ∧ advanced s pos s' pos'.
Proof.
  revert pos. induction s as [|c s IH]; intros pos H; simpl in H.
  - destruct (k [] pos) eqn:E; [|done]. inversion H; subst.
    exists [], pos. split; [done|apply advanced_refl].
  - destruct (k (c :: s) pos) eqn:E.
    + inversion H; subst. exists (c :: s), pos. split; [done|apply advanced_refl].
    + destruct (p c); [|done]. destruct (IH _ H) as (s' & pos' & Hk & Hadv).
      exists s', pos'. split; [done|].
      eapply advanced_trans; [apply advanced_cons|done].
Qed.

Lemma rmatch_sound {A : Type} (r : regex) (s : pystr) (pos : nat) (g : groups)
    (k : pystr → nat → groups → option A) (a : A) :
  rmatch r s pos g k = Some a →
  ∃ s' pos' g', k s' pos' g' = Some a ∧ advanced s pos s' pos'
    ∧ (groupless r = true → g' = g).
Proof.
  revert s pos g k.
  induction r as [|p|r1 IH1 r2 IH2|r1 IH1|p|p|n r1 IH1|]; intros s pos g k H;
    cbn [rmatch] in H.
  - exists s, pos, g. split; [done|]. split; [apply advanced_refl|done].
  - destruct s as [|c s]; [done|]. destruct (p c); [|done].
    exists s, (S pos), g. split; [done|]. split; [apply advanced_cons|done].
  - apply IH1 in H as (s1 & pos1 & g1 & H & Hadv1 & Hg1).
    apply IH2 in H as (s2 & pos2 & g2 & H & Hadv2 & Hg2).
    exists s2, pos2, g2. split; [done|]. split; [by eapply advanced_trans|].
    cbn [groupless]. intros [? ?]%andb_true_iff. rewrite Hg2, Hg1; done.
  - destruct (rmatch r1 s pos g k) as [b|] eqn:E.
    + inversion H; subst b. by apply IH1 in E.
    + exists s, pos, g. split; [done|]. split; [apply advanced_refl|done].
  - apply star_greedy_sound in H as (s' & pos' & H & Hadv). eauto 10.
  - apply star_lazy_sound in H as (s' & pos' & H & Hadv). eauto 10.
  - apply IH1 in H as (s1 & pos1 & g1 & H & Hadv & _).
    eexists _, _, _. split; [exact H|]. split; [done|]. done.
  - destruct s as [|c [|d s]]; [|destruct (Ascii.eqb c newline)|]; try done.
    + exists [], pos, g. split; [done|]. split; [apply advanced_refl|done].
    + exists [c], pos, g. split; [done|]. split; [apply advanced_refl|done].
Qed.

(** The tail of the line patterns: a group of one or more characters other
    than the line feed, then the end anchor.  The group is a non-empty
    piece of the input, followed by nothing or by one line feed. *)
Lemma text_tail_sound {A : Type} (n : nat) (s : pystr) (pos : nat) (g : groups)
    (k : pystr → nat → groups → option A) (a : A) :
  rmatch (Seq (Grp n (Plus any_char)) Eol) s pos g k = Some a →
  ∃ txt s' pos', k s' pos' ((n, txt) :: g) = Some a
    ∧ s = txt ++ s' ∧ txt ≠ [] ∧ (s' = [] ∨ s' = [newline]).
Proof.
  intros H. cbn [rmatch Plus] in H.
  destruct s as [|c s]; [done|]. destruct (any_char c); [|done].
  apply star_greedy_sound in H as (s' & pos' & H & [Hsuf ->]).
  destruct Hsuf as [pre ->].
  replace (S pos + (length (pre ++ s') - length s') - pos)
    with (length (c :: pre)) in H by (rewrite length_app; simpl; lia).
  change (c :: pre ++ s') with ((c :: pre) ++ s') in H.
  rewrite take_app_length in H.
  exists (c :: pre), s'. 
  destruct s' as [|d [|e s']]; [|destruct (Ascii.eqb d newline) eqn:E|]; try done.
  - eexists _. split; [exact H|]. by repeat split; [|left].
  - apply Ascii.eqb_eq in E as ->.
    eexists _. split; [exact H|]. by repeat split; [|right].
Qed.

Lemma cat_cons (r : regex) (rs : list regex) :
  rs ≠ [] → cat (r :: rs) = Seq r (cat rs).
Proof. by destruct rs. Qed.

Lemma line_pattern_text (rs : list regex) (n : nat) (line : pystr)
    (g : groups) (rest : pystr) :
  re_match (cat (rs ++ [Grp n (Plus any_char); Eol])) line = Some (g, rest) →
  group n g ≠ [] ∧ (group n g ++ rest) `suffix_of` line
  ∧ (rest = [] ∨ rest = [newline]).
Proof.
  unfold re_match. generalize 0 at 1. generalize (@nil (nat * pystr)).
  revert line. induction rs as [|r rs IH]; intros line g0 pos H.
  - apply text_tail_sound in H as (txt & s' & pos' & [= <- <-] & -> & Hne & Hs').
    cbn [group]. rewrite Nat.eqb_refl. by repeat split.
  - rewrite <- app_comm_cons, cat_cons in H by (by destruct rs).
    cbn [rmatch] in H.
    apply rmatch_sound in H as (s1 & pos1 & g1 & H & [Hsuf _] & _).
    apply IH in H as (Hne & Hsuf' & Hrest). repeat split; [done| |done].
    by etrans.
Qed.

(** ** Stripped strings *)

Lemma lstrip_head (s : pystr) (c : ascii) :
  head (lstrip s) = Some c → is_space c = false.
Proof.
  induction s as [|d s IH]; simpl; [done|].
  destruct (is_space d) eqn:E; [done|]. simpl. congruence.
Qed.

Lemma lstrip_suffix (s : pystr) : lstrip s `suffix_of` s.
Proof.
  induction s as [|d s IH]; simpl; [done|].
  destruct (is_space d); [by apply suffix_cons_r|done].
Qed.

Lemma lstrip_clean_head (s : pystr) (c : ascii) :
  head s = Some c → is_space c = false → lstrip s = s.
Proof.
  destruct s as [|d s]; simpl; [done|]. intros Hh Hs.
  inversion Hh; subst. by rewrite Hs.
Qed.

Lemma head_rev {A : Type} (l : list A) : head (rev l) = last l.
Proof.
  induction l as [|x l IH] using rev_ind; [done|].
  by rewrite rev_unit, last_snoc.
Qed.

Lemma last_rev {A : Type} (l : list A) : last (rev l) = head l.
Proof. by rewrite <- head_rev, rev_involutive. Qed.

Lemma strip_ends_clean (s : pystr) : ends_clean (strip s).
Proof.
  intros c Hc. unfold strip, rstrip in Hc. rewrite last_rev in Hc.
  by eapply lstrip_head.
Qed.

Lemma lstrip_last (s : pystr) (c : ascii) :
  last s = Some c → is_space c = false → last (lstrip s) = Some c.
Proof.
  induction s as [|d s IH]; simpl; [done|]. intros Hl Hc.
  destruct (is_space d) eqn:E; [|done].
  destruct s as [|e s]; [simpl in Hl; congruence|]. by apply IH.
Qed.

Lemma strip_truthy (s : pystr) (c : ascii) :
  last s = Some c → is_space c = false → truthy (strip s) = true.
Proof.
  intros Hl Hc. unfold strip, rstrip.
  pose proof (lstrip_last s c Hl Hc) as Hl'.
  rewrite (lstrip_clean_head (rev (lstrip s)) c); [|by rewrite head_rev|done].
  rewrite rev_involutive. by destruct (lstrip s).
Qed.

Lemma suffix_last (t l : pystr) : t ≠ [] → t `suffix_of` l → last t = last l.
Proof.
  intros Hne [pre ->]. rewrite last_app.
  destruct (last t) eqn:E; [done|]. by apply last_None in E.
Qed.

(** On a line that ends clean, the text group of a line pattern is not
    empty once stripped, and it ends clean. *)
Lemma line_pattern_text_truthy (rs : list regex) (n : nat) (line : pystr)
    (g : groups) (rest : pystr) :
  ends_clean line →
  re_match (cat (rs ++ [Grp n (Plus any_char); Eol])) line = Some (g, rest) →
  truthy (strip (group n g)) = true.
Proof.
  intros Hclean H.
  apply line_pattern_text in H as (Hne & Hsuf & [-> | ->]).
  - rewrite app_nil_r in Hsuf.
    pose proof (suffix_last _ _ Hne Hsuf) as Hlast.
    destruct (last (group n g)) as [c|] eqn:E; [|by apply last_None in E].
    eapply strip_truthy; [done|]. apply Hclean. by rewrite <- Hlast.
  - exfalso. destruct Hsuf as [pre ->].
    assert (Hnl : is_space newline = false); [|done].
    apply Hclean. by rewrite app_assoc, last_snoc.
Qed.

(** ** Timestamp patterns *)

(** Symbolic evaluation of a pattern on a string whose characters are
    variables: case analysis on the next character and on its tests. *)
Lemma is_char_true (a c : ascii) : is_char a c = true → c = a.
Proof. apply Ascii.eqb_eq. Qed.

Ltac regex_case :=
  match goal with
  | H : None = Some _ |- _ => discriminate H
  | H : Some _ = None |- _ => discriminate H
  | H : is_char _ ?c = true |- _ => is_var c; apply is_char_true in H; subst c
  | H : _ (Ascii _ _ _ _ _ _ _ _) = true |- _ => by vm_compute in H
  | H : ?b = _ |- context [if ?b then _ else _] => rewrite H
  | H : ?b = _, H' : context [if ?b then _ else _] |- _ => rewrite H in H'
  | H : context [match ?s with [] => _ | _ :: _ => _ end] |- _ =>
      is_var s; destruct s
  | H : context [if ?b then _ else _] |- _ => destruct b eqn:?
  end.

Ltac regex_eval H :=
  cbn in H; repeat (regex_case; cbn in H).

Lemma digit_field_intro (lo hi : nat) (f : pystr) :
  lo ≤ length f → length f ≤ hi → forallb is_digit f = true →
  digit_field lo hi f.
Proof. by repeat split. Qed.

Lemma re_ms_sound (t : pystr) (g : groups) (rest : pystr) :
  re_match re_ms t = Some (g, rest) → ms_prefix t (group 1 g) (group 2 g).
Proof.
  unfold re_match, re_ms, dig12, dig2, dig, Lit. intros H.
  regex_eval H.
  all: inversion H; subst; clear H; cbn.
  all: eexists; split; [reflexivity|].
  all: split; apply digit_field_intro; cbn; try lia.
  all: repeat match goal with H : _ = true |- _ => rewrite H end; done.
Qed.

Ltac regex_sound H :=
  regex_eval H;
  inversion H; subst; clear H; cbn;
  repeat (eexists; try (split; [reflexivity|]));
  repeat split; try apply digit_field_intro; cbn; try lia;
  repeat match goal with H : _ = true |- _ => rewrite H end; done.

Lemma re_ms_ms_sound (t : pystr) (g : groups) (rest : pystr) :
  re_match re_ms_ms t = Some (g, rest) →
  ms_ms_prefix t (group 1 g) (group 2 g) (group 3 g).
Proof.
  unfold re_match, re_ms_ms, dig12, dig2, dig3, dig, Lit. intros H.
  regex_sound H.
Qed.

Lemma re_hms_sound (t : pystr) (g : groups) (rest : pystr) :
  re_match re_hms t = Some (g, rest) →
  hms_prefix t (group 1 g) (group 2 g) (group 3 g).
Proof.
  unfold re_match, re_hms, dig12, dig2, dig3, dig, Lit. intros H.
  regex_sound H.
Qed.

Lemma re_hms_ms_sound (t : pystr) (g : groups) (rest : pystr) :
  re_match re_hms_ms t = Some (g, rest) →
  hms_ms_prefix t (group 1 g) (group 2 g) (group 3 g) (group 4 g).
Proof.
  unfold re_match, re_hms_ms, dig12, dig2, dig3, dig, Lit. intros H.
  regex_sound H.
Qed.

(** Destructing a digit field into its characters. *)
Ltac field_chars H :=
  let Hlen := fresh "Hlen" in
  let Hdig := fresh "Hdig" in
  destruct H as [Hlen Hdig];
  repeat match type of Hlen with
         | context [length ?f] =>
             is_var f; destruct f; cbn [length] in Hlen; try lia
         end;
  cbn in Hdig; repeat rewrite andb_true_iff in Hdig.

Ltac regex_run :=
  cbn;
  repeat (match goal with
          | H : ?b = true |- context [if ?b then _ else _] => rewrite H
          end; cbn).

Lemma re_ms_complete (t M S : pystr) :
  ms_prefix t M S →
  ∃ g rest, re_match re_ms t = Some (g, rest)
    ∧ group 1 g = M ∧ group 2 g = S.
Proof.
  intros (rest & -> & HM & HS).
  field_chars HM; field_chars HS; destruct_and?.
  all: unfold re_match, re_ms, dig12, dig2, dig, Lit; regex_run; eauto.
Qed.

Lemma re_ms_ms_complete (t M S MS : pystr) :
  ms_ms_prefix t M S MS →
  ∃ g rest, re_match re_ms_ms t = Some (g, rest)
    ∧ group 1 g = M ∧ group 2 g = S ∧ group 3 g = MS.
Proof.
  intros (sep & rest & -> & Hsep & HM & HS & HMS).
  field_chars HM; field_chars HS; field_chars HMS; destruct_and?.
  all: unfold re_match, re_ms_ms, dig12, dig2, dig3, dig, Lit; regex_run.
  all: eexists _, _; repeat split; reflexivity.
Qed.

Lemma re_hms_complete (t H M S : pystr) :
  hms_prefix t H M S →
  ∃ g rest, re_match re_hms t = Some (g, rest)
    ∧ group 1 g = H ∧ group 2 g = M ∧ group 3 g = S.
Proof.
  intros (rest & -> & HH & HM & HS).
  field_chars HH; field_chars HM; field_chars HS; destruct_and?.
  all: unfold re_match, re_hms, dig12, dig2, dig3, dig, Lit; regex_run.
  all: eexists _, _; repeat split; reflexivity.
Qed.

Lemma re_hms_ms_complete (t H M S MS : pystr) :
  hms_ms_prefix t H M S MS →
  ∃ g rest, re_match re_hms_ms t = Some (g, rest)
    ∧ group 1 g = H ∧ group 2 g = M ∧ group 3 g = S ∧ group 4 g = MS.
Proof.
  intros (sep & rest & -> & Hsep & HH & HM & HS & HMS).
  field_chars HH; field_chars HM; field_chars HS; field_chars HMS; destruct_and?.
  all: unfold re_match, re_hms_ms, dig12, dig2, dig3, dig, Lit; regex_run.
  all: eexists _, _; repeat split; reflexivity.
Qed.

Lemma py_int_digits (lo hi : nat) (f : pystr) :
  0 < lo → digit_field lo hi f → py_int f = Ret (digits_value f).
Proof.
  intros Hlo [[Hlen _] Hdig]. unfold py_int. rewrite Hdig.
  destruct f; [simpl in Hlen; lia|done].
Qed.

(** ** Timestamp normaliser *)

Lemma parse_timestamp_returns (py_float : pystr → option Q) (ts : pystr) :
  ∃ v, parse_timestamp py_float ts = Ret v.
Proof.
  unfold parse_timestamp. set (t := strip ts).
  destruct (re_match re_hms_ms t) as [[g rest]|] eqn:E1.
  { destruct (re_hms_ms_sound _ _ _ E1) as (sep & rest' & _ & _ & H1 & H2 & H3 & H4).
    rewrite (py_int_digits 1 2), (py_int_digits 2 2), (py_int_digits 2 2),
      (py_int_digits 3 3) by (done || lia). cbn. eauto. }
  destruct (re_match re_hms t) as [[g rest]|] eqn:E2.
  { destruct (re_hms_sound _ _ _ E2) as (rest' & _ & H1 & H2 & H3).
    rewrite (py_int_digits 1 2), (py_int_digits 2 2), (py_int_digits 2 2)
      by (done || lia). cbn. eauto. }
  destruct (re_match re_ms_ms t) as [[g rest]|] eqn:E3.
  { destruct (re_ms_ms_sound _ _ _ E3) as (sep & rest' & _ & _ & H1 & H2 & H3).
    rewrite (py_int_digits 1 2), (py_int_digits 2 2), (py_int_digits 3 3)
      by (done || lia). cbn. eauto. }
  destruct (re_match re_ms t) as [[g rest]|] eqn:E4.
  { destruct (re_ms_sound _ _ _ E4) as (rest' & _ & H1 & H2).
    rewrite (py_int_digits 1 2), (py_int_digits 2 2) by (done || lia).
    cbn. eauto. }
  destruct (py_float t); eauto.
Qed.

(** C4. [parse_timestamp] never fails, on any input string and whatever the
    builtin [float] does: it returns the seconds of the first notation, in
    the priority order [H:MM:SS[.,]mmm], [H:MM:SS], [M:SS[.,]mmm], [M:SS],
    that a prefix of the trimmed string is written in, computed as
    [h*3600 + m*60 + s (+ ms/1000)]; then the value of a bare number; and
    0 for every string in none of these notations. *)
Theorem parse_timestamp_never_fails (py_float : pystr → option Q) (ts : pystr) :
  ∃ v, parse_timestamp py_float ts = Ret v
    ∧ notation_value py_float (strip ts) v.
Proof.
  unfold parse_timestamp. set (t := strip ts).
  destruct (re_match re_hms_ms t) as [[g rest]|] eqn:E1.
  { pose proof (re_hms_ms_sound _ _ _ E1) as Hp.
    destruct Hp as (sep & rest' & Ht & Hsep & H1 & H2 & H3 & H4).
    rewrite (py_int_digits 1 2), (py_int_digits 2 2), (py_int_digits 2 2),
      (py_int_digits 3 3) by (done || lia).
    eexists. split; [reflexivity|]. apply value_hms_ms.
    by exists sep, rest'. }
  assert (N1 : ∀ H' M' S' MS', ¬ hms_ms_prefix t H' M' S' MS').
  { intros H' M' S' MS' Hp.
    apply re_hms_ms_complete in Hp as (g & rest & Hg & _). congruence. }
  destruct (re_match re_hms t) as [[g rest]|] eqn:E2.
  { pose proof (re_hms_sound _ _ _ E2) as Hp.
    destruct Hp as (rest' & Ht & H1 & H2 & H3).
    rewrite (py_int_digits 1 2), (py_int_digits 2 2), (py_int_digits 2 2)
      by (done || lia).
    eexists. split; [reflexivity|]. apply value_hms; [done|].
    by exists rest'. }
  assert (N2 : ∀ H' M' S', ¬ hms_prefix t H' M' S').
  { intros H' M' S' Hp.
    apply re_hms_complete in Hp as (g & rest & Hg & _). congruence. }
  destruct (re_match re_ms_ms t) as [[g rest]|] eqn:E3.
  { pose proof (re_ms_ms_sound _ _ _ E3) as Hp.
    destruct Hp as (sep & rest' & Ht & Hsep & H1 & H2 & H3).
    rewrite (py_int_digits 1 2), (py_int_digits 2 2), (py_int_digits 3 3)
      by (done || lia).
    eexists. split; [reflexivity|]. apply value_ms_ms; [done..|].
    by exists sep, rest'. }
  assert (N3 : ∀ M' S' MS', ¬ ms_ms_prefix t M' S' MS').
  { intros M' S' MS' Hp.
    apply re_ms_ms_complete in Hp as (g & rest & Hg & _). congruence. }
  destruct (re_match re_ms t) as [[g rest]|] eqn:E4.
  { pose proof (re_ms_sound _ _ _ E4) as Hp.
    destruct Hp as (rest' & Ht & H1 & H2).
    rewrite (py_int_digits 1 2), (py_int_digits 2 2) by (done || lia).
    eexists. split; [reflexivity|]. apply value_ms; [done..|].
    by exists rest'. }
  assert (N4 : ∀ M' S', ¬ ms_prefix t M' S').
  { intros M' S' Hp.
    apply re_ms_complete in Hp as (g & rest & Hg & _). congruence. }
  destruct (py_float t) as [v|] eqn:E5.
  - exists v. split; [done|]. by apply value_number.
  - exists 0%Q. split; [done|]. by apply value_default.
Qed.

(** ** Timestamp round trip *)

Lemma is_digit_cases (c : ascii) : is_digit c = true → In c (str "0123456789").
Proof.
  destruct c as [[] [] [] [] [] [] [] []]; vm_compute; intros H;
    try discriminate H; tauto.
Qed.

Lemma digit_tests (c : ascii) :
  is_digit c = true →
  is_space c = false ∧ is_char ":" c = false ∧ is_comma_dot c = false
  ∧ (0 <= digit_val c <= 9)%Z.
Proof.
  intros H. apply is_digit_cases in H. simpl in H.
  repeat (destruct H as [<-|H]; [by vm_compute|]). done.
Qed.

Lemma fmt_02d_one_digit (c : ascii) :
  is_digit c = true → fmt_02d (digits_value [c]) = pad2 [c].
Proof.
  intros H. apply is_digit_cases in H. simpl in H.
  repeat (destruct H as [<-|H]; [by vm_compute|]). done.
Qed.

Lemma fmt_02d_two_digits (c d : ascii) :
  is_digit c = true → is_digit d = true → fmt_02d (digits_value [c; d]) = [c; d].
Proof.
  intros Hc Hd. apply is_digit_cases in Hc, Hd. simpl in Hc, Hd.
  repeat (destruct Hc as [<-|Hc]; [repeat (destruct Hd as [<-|Hd]; [by vm_compute|]); done|]).
  done.
Qed.

Lemma fmt_02d_field (f : pystr) : digit_field 1 2 f → fmt_02d (digits_value f) = pad2 f.
Proof.
  intros [Hlen Hdig].
  destruct f as [|c [|d [|e f]]]; simpl in Hlen; try lia;
    cbn in Hdig; repeat rewrite andb_true_iff in Hdig; destruct_and?.
  - by apply fmt_02d_one_digit.
  - by apply fmt_02d_two_digits.
Qed.

Lemma digits_value_bounds (f : pystr) (n : nat) :
  digit_field n n f → (0 <= digits_value f < 10 ^ Z.of_nat n)%Z.
Proof.
  intros [[Hlo Hhi] Hdig]. revert Hdig.
  assert (Hgen : ∀ (g : pystr) (acc : Z), (0 <= acc)%Z →
            forallb is_digit g = true →
            (0 <= fold_left (λ a c, (10 * a + digit_val c)%Z) g acc
             < (acc + 1) * 10 ^ Z.of_nat (length g))%Z).
  { induction g as [|c g IH]; intros acc Hacc Hg.
    - simpl. lia.
    - cbn in Hg. apply andb_true_iff in Hg as [Hc Hg].
      apply digit_tests in Hc as (_ & _ & _ & Hc).
      cbn [fold_left length]. specialize (IH (10 * acc + digit_val c)%Z).
      rewrite Nat2Z.inj_succ, Z.pow_succ_r by lia.
      destruct IH as [IH1 IH2]; [lia|done|]. split; [done|].
      eapply Z.lt_le_trans; [exact IH2|].
      assert (0 < 10 ^ Z.of_nat (length g))%Z by (apply Z.pow_pos_nonneg; lia).
      nia. }
  intros Hdig. specialize (Hgen f 0%Z). unfold digits_value.
  assert (Hn : length f = n) by lia. rewrite Hn in Hgen.
  destruct Hgen; [lia|done|]. lia.
Qed.

Lemma digits_value_field_12 (f : pystr) :
  digit_field 1 2 f → (0 <= digits_value f < 100)%Z.
Proof.
  intros [Hlen Hdig].
  destruct f as [|c [|d [|e f]]]; simpl in Hlen; try lia.
  - pose proof (digits_value_bounds [c] 1) as H.
    destruct H; [by split|]. simpl in *. lia.
  - pose proof (digits_value_bounds [c; d] 2) as H.
    destruct H; [by split|]. simpl in *. lia.
Qed.

Section truncation.

Local Open Scope Q_scope.

Lemma Qfloor_unique (x : Q) (z : Z) :
  inject_Z z <= x → x < inject_Z z + 1 → Qfloor x = z.
Proof.
  intros Hlo Hhi.
  pose proof (Qfloor_le x) as Flo. pose proof (Qlt_floor x) as Fhi.
  rewrite inject_Z_plus in Fhi. change (inject_Z 1) with 1 in Fhi.
  assert (H1 : inject_Z z < inject_Z (Qfloor x + 1)).
  { rewrite inject_Z_plus. change (inject_Z 1) with 1. lra. }
  assert (H2 : inject_Z (Qfloor x) < inject_Z (z + 1)).
  { rewrite inject_Z_plus. change (inject_Z 1) with 1. lra. }
  rewrite <- Zlt_Qlt in H1, H2. lia.
Qed.

Lemma Qfloor_div_frac (n d : Z) (frac : Q) :
  (0 < d)%Z → 0 <= frac → frac < 1 →
  Qfloor ((inject_Z n + frac) / inject_Z d) = (n / d)%Z.
Proof.
  intros Hd Hf0 Hf1.
  assert (HdQ : 0 < inject_Z d).
  { change 0 with (inject_Z 0). by rewrite <- Zlt_Qlt. }
  pose proof (Z.div_mod n d ltac:(lia)) as Hdm.
  pose proof (Z.mod_pos_bound n d Hd) as Hr.
  assert (Hn : inject_Z n == inject_Z d * inject_Z (n / d) + inject_Z (n mod d)).
  { rewrite <- inject_Z_mult, <- inject_Z_plus. by rewrite <- Hdm. }
  assert (Hr0 : 0 <= inject_Z (n mod d)).
  { change 0 with (inject_Z 0). rewrite <- Zle_Qle. lia. }
  assert (Hr1 : inject_Z (n mod d) + 1 <= inject_Z d).
  { change 1 with (inject_Z 1). rewrite <- inject_Z_plus, <- Zle_Qle. lia. }
  apply Qfloor_unique.
  - apply Qle_shift_div_l; [done|]. rewrite Hn. lra.
  - apply Qlt_shift_div_r; [done|]. rewrite Hn. lra.
Qed.

Lemma py_trunc_nonneg (x : Q) : 0 <= x → py_trunc x = Qfloor x.
Proof. intros H. unfold py_trunc. by rewrite (proj2 (Qle_bool_true 0 x) H). Qed.

(** Each field of [seconds_to_timestamp] is truncated: a fraction of a
    second below one changes no field. *)
Lemma seconds_to_timestamp_fields (h m s : Z) (frac v : Q) :
  (0 <= h)%Z → (0 <= m < 60)%Z → (0 <= s < 60)%Z → 0 <= frac → frac < 1 →
  v == inject_Z (h * 3600 + m * 60 + s) + frac →
  seconds_to_timestamp v
  = fmt_02d h ++ str ":" ++ fmt_02d m ++ str ":" ++ fmt_02d s.
Proof.
  intros Hh Hm Hs Hf0 Hf1 Hv. unfold seconds_to_timestamp.
  assert (F1 : Qfloor (v / 3600) = h).
  { rewrite Hv. change 3600 with (inject_Z 3600).
    rewrite Qfloor_div_frac by (done || lia).
    rewrite <- (Z.div_unique_pos (h * 3600 + m * 60 + s) 3600 h (m * 60 + s));
      lia. }
  assert (F2 : Qfloor (v / 60) = (h * 60 + m)%Z).
  { rewrite Hv. change 60 with (inject_Z 60).
    rewrite Qfloor_div_frac by (done || lia).
    rewrite <- (Z.div_unique_pos (h * 3600 + m * 60 + s) 60 (h * 60 + m) s);
      lia. }
  assert (M1 : py_mod v 3600 == inject_Z (m * 60 + s) + frac).
  { unfold py_mod, py_floordiv. rewrite F1, Hv.
    rewrite !inject_Z_plus, !inject_Z_mult.
    change (inject_Z 3600) with 3600. change (inject_Z 60) with 60. ring. }
  assert (M2 : py_mod v 60 == inject_Z s + frac).
  { unfold py_mod, py_floordiv. rewrite F2, Hv.
    rewrite !inject_Z_plus, !inject_Z_mult.
    change (inject_Z 3600) with 3600. change (inject_Z 60) with 60. ring. }
  assert (T1 : py_trunc (py_floordiv v 3600) = h).
  { unfold py_floordiv. rewrite F1. rewrite py_trunc_nonneg, Qfloor_Z; [done|].
    change 0 with (inject_Z 0). rewrite <- Zle_Qle. lia. }
  assert (T2 : py_trunc (py_floordiv (py_mod v 3600) 60) = m).
  { unfold py_floordiv at 1.
    assert (F : Qfloor (py_mod v 3600 / 60) = m).
    { rewrite M1. change 60 with (inject_Z 60).
      rewrite Qfloor_div_frac by (done || lia).
      rewrite <- (Z.div_unique_pos (m * 60 + s) 60 m s); lia. }
    rewrite F. rewrite py_trunc_nonneg, Qfloor_Z; [done|].
    change 0 with (inject_Z 0). rewrite <- Zle_Qle. lia. }
  assert (T3 : py_trunc (py_mod v 60) = s).
  { assert (Hs0 : 0 <= inject_Z s).
    { change 0 with (inject_Z 0). rewrite <- Zle_Qle. lia. }
    rewrite py_trunc_nonneg by (rewrite M2; lra).
    rewrite M2. apply Qfloor_unique; lra. }
  by rewrite T1, T2, T3.
Qed.

End truncation.

(** Symbolic evaluation of [parse_timestamp] on a string of known shape. *)
Ltac digit_facts :=
  repeat match goal with
         | H : is_digit ?c = true |- _ =>
             lazymatch goal with
             | _ : is_space c = false |- _ => fail
             | _ =>
                 let Hs := fresh "Hs" in
                 let Hc := fresh "Hc" in
                 let Hp := fresh "Hp" in
                 destruct (digit_tests c H) as (Hs & Hc & Hp & _)
             end
         end.

Ltac sep_cases H :=
  unfold is_comma_dot in H; apply orb_true_iff in H;
  destruct H as [H|H]; apply is_char_true in H; subst.

Ltac rewrite_tests :=
  repeat match goal with
         | H : is_digit ?c = true |- context [is_digit ?c] => rewrite H
         | H : is_space ?c = false |- context [is_space ?c] => rewrite H
         | H : is_char ":" ?c = false |- context [is_char ":" ?c] => rewrite H
         | H : is_comma_dot ?c = false |- context [is_comma_dot ?c] => rewrite H
         | H : py_int ?f = Ret _ |- context [py_int ?f] => rewrite H
         end.

Ltac literal_tests :=
  repeat match goal with
         | |- context [?p (Ascii ?a ?b ?c ?d ?e ?f ?g ?h)] =>
             lazymatch p with
             | is_digit => idtac | is_space => idtac | is_comma_dot => idtac
             end;
             let v := eval vm_compute in (p (Ascii a b c d e f g h)) in
             change (p (Ascii a b c d e f g h)) with v
         end.

Ltac ts_eval :=
  unfold parse_timestamp, re_match, re_hms_ms, re_hms, re_ms_ms, re_ms,
    dig12, dig2, dig3, dig, Lit, strip, rstrip;
  repeat (cbn -[digits_value py_int];
          progress (literal_tests; rewrite_tests));
  cbn -[digits_value py_int].

Section exact_notations.

Variable py_float : pystr → option Q.

Lemma parse_hms_ms_exact (H M S MS : pystr) (sep : ascii) :
  digit_field 1 2 H → digit_field 2 2 M → digit_field 2 2 S →
  digit_field 3 3 MS → is_comma_dot sep = true →
  parse_timestamp py_float (H ++ ":"%char :: M ++ ":"%char :: S ++ sep :: MS)
  = Ret (inject_Z (digits_value H * 3600 + digits_value M * 60 + digits_value S)
         + inject_Z (digits_value MS) / 1000)%Q.
Proof.
  intros HH HM HS HMS Hsep.
  pose proof (py_int_digits 1 2 H ltac:(lia) HH).
  pose proof (py_int_digits 2 2 M ltac:(lia) HM).
  pose proof (py_int_digits 2 2 S ltac:(lia) HS).
  pose proof (py_int_digits 3 3 MS ltac:(lia) HMS).
  field_chars HH; field_chars HM; field_chars HS; field_chars HMS;
    destruct_and?; digit_facts; sep_cases Hsep; by ts_eval.
Qed.

Lemma parse_hms_exact (H M S : pystr) :
  digit_field 1 2 H → digit_field 2 2 M → digit_field 2 2 S →
  parse_timestamp py_float (H ++ ":"%char :: M ++ ":"%char :: S)
  = Ret (inject_Z (digits_value H * 3600 + digits_value M * 60 + digits_value S)).
Proof.
  intros HH HM HS.
  pose proof (py_int_digits 1 2 H ltac:(lia) HH).
  pose proof (py_int_digits 2 2 M ltac:(lia) HM).
  pose proof (py_int_digits 2 2 S ltac:(lia) HS).
  field_chars HH; field_chars HM; field_chars HS;
    destruct_and?; digit_facts; by ts_eval.
Qed.

Lemma parse_ms_ms_exact (M S MS : pystr) (sep : ascii) :
  digit_field 1 2 M → digit_field 2 2 S → digit_field 3 3 MS →
  is_comma_dot sep = true →
  parse_timestamp py_float (M ++ ":"%char :: S ++ sep :: MS)
  = Ret (inject_Z (digits_value M * 60 + digits_value S)
         + inject_Z (digits_value MS) / 1000)%Q.
Proof.
  intros HM HS HMS Hsep.
  pose proof (py_int_digits 1 2 M ltac:(lia) HM).
  pose proof (py_int_digits 2 2 S ltac:(lia) HS).
  pose proof (py_int_digits 3 3 MS ltac:(lia) HMS).
  field_chars HM; field_chars HS; field_chars HMS;
    destruct_and?; digit_facts; sep_cases Hsep; by ts_eval.
Qed.

Lemma parse_ms_exact (M S : pystr) :
  digit_field 1 2 M → digit_field 2 2 S →
  parse_timestamp py_float (M ++ ":"%char :: S)
  = Ret (inject_Z (digits_value M * 60 + digits_value S)).
Proof.
  intros HM HS.
  pose proof (py_int_digits 1 2 M ltac:(lia) HM).
  pose proof (py_int_digits 2 2 S ltac:(lia) HS).
  field_chars HM; field_chars HS; destruct_and?; digit_facts; by ts_eval.
Qed.

End exact_notations.

Lemma fmt_02d_field2 (f : pystr) :
  digit_field 2 2 f → fmt_02d (digits_value f) = f.
Proof.
  intros [Hlen Hdig].
  destruct f as [|c [|d [|e f]]]; simpl in Hlen; try lia.
  cbn in Hdig. repeat rewrite andb_true_iff in Hdig. destruct_and?.
  by apply fmt_02d_two_digits.
Qed.

Section round_trip.

Local Open Scope Q_scope.

Lemma millis_fraction (MS : pystr) :
  digit_field 3 3 MS →
  0 <= inject_Z (digits_value MS) / 1000 ∧ inject_Z (digits_value MS) / 1000 < 1.
Proof.
  intros HMS. apply digits_value_bounds in HMS.
  change (10 ^ Z.of_nat 3)%Z with 1000%Z in HMS. destruct HMS as [H0 H1].
  assert (Q0 : 0 <= inject_Z (digits_value MS)).
  { change 0 with (inject_Z 0). by rewrite <- Zle_Qle. }
  assert (Q1 : inject_Z (digits_value MS) < 1000).
  { change 1000 with (inject_Z 1000). by rewrite <- Zlt_Qlt. }
  split.
  - apply Qle_shift_div_l; lra.
  - apply Qlt_shift_div_r; lra.
Qed.

Lemma seconds_to_timestamp_truncates (n : Z) (frac : Q) :
  (0 <= n)%Z → 0 <= frac → frac < 1 →
  seconds_to_timestamp (inject_Z n + frac) = seconds_to_timestamp (inject_Z n).
Proof.
  intros Hn Hf0 Hf1.
  pose proof (Z.div_mod n 3600 ltac:(lia)) as H1.
  pose proof (Z.mod_pos_bound n 3600 ltac:(lia)) as B1.
  pose proof (Z.div_mod (n mod 3600) 60 ltac:(lia)) as H2.
  pose proof (Z.mod_pos_bound (n mod 3600) 60 ltac:(lia)) as B2.
  assert (Hh : (0 <= n / 3600)%Z) by (apply Z.div_pos; lia).
  assert (Hm : (0 <= n mod 3600 / 60 < 60)%Z).
  { split; [apply Z.div_pos; lia|apply Z.div_lt_upper_bound; lia]. }
  assert (Hn' : n = (n / 3600 * 3600 + n mod 3600 / 60 * 60
                     + (n mod 3600) mod 60)%Z) by lia.
  rewrite (seconds_to_timestamp_fields (n / 3600) (n mod 3600 / 60)
             ((n mod 3600) mod 60) frac (inject_Z n + frac));
    [|done..|by rewrite <- Hn'].
  rewrite (seconds_to_timestamp_fields (n / 3600) (n mod 3600 / 60)
             ((n mod 3600) mod 60) 0 (inject_Z n));
    [done|done..|lra|lra|rewrite <- Hn'; lra].
Qed.

(** C5 (amended). For every timestamp string in one of the four
    colon-delimited notations whose minute and second fields are below 60,
    [seconds_to_timestamp (parse_timestamp s)] is the [HH:MM:SS] portion of
    [s] with the hour field padded to two digits, ["00"] when [s] has no
    hour field; [seconds_to_timestamp] truncates: a fraction of a second
    changes none of its three fields. *)
Theorem timestamp_round_trip (py_float : pystr → option Q)
    (H M M1 S MS : pystr) (sep : ascii) :
  digit_field 1 2 H → digit_field 2 2 M → digit_field 1 2 M1 →
  digit_field 2 2 S → digit_field 3 3 MS → is_comma_dot sep = true →
  (digits_value M < 60)%Z → (digits_value M1 < 60)%Z → (digits_value S < 60)%Z →
  (∃ v, parse_timestamp py_float
          (H ++ ":"%char :: M ++ ":"%char :: S ++ sep :: MS) = Ret v
     ∧ seconds_to_timestamp v = pad2 H ++ ":"%char :: M ++ ":"%char :: S)
  ∧ (∃ v, parse_timestamp py_float (H ++ ":"%char :: M ++ ":"%char :: S) = Ret v
       ∧ seconds_to_timestamp v = pad2 H ++ ":"%char :: M ++ ":"%char :: S)
  ∧ (∃ v, parse_timestamp py_float (M1 ++ ":"%char :: S ++ sep :: MS) = Ret v
       ∧ seconds_to_timestamp v = str "00:" ++ pad2 M1 ++ ":"%char :: S)
  ∧ (∃ v, parse_timestamp py_float (M1 ++ ":"%char :: S) = Ret v
       ∧ seconds_to_timestamp v = str "00:" ++ pad2 M1 ++ ":"%char :: S)
  ∧ (∀ (n : Z) (frac : Q), (0 <= n)%Z → 0 <= frac → frac < 1 →
       seconds_to_timestamp (inject_Z n + frac)
       = seconds_to_timestamp (inject_Z n)).
Proof.
  intros HH HM HM1 HS HMS Hsep LM LM1 LS.
  pose proof (digits_value_field_12 H HH) as BH.
  pose proof (digits_value_field_12 M1 HM1) as BM1.
  pose proof (digits_value_bounds M 2 HM) as BM.
  pose proof (digits_value_bounds S 2 HS) as BS.
  pose proof (millis_fraction MS HMS) as [F0 F1].
  pose proof (fmt_02d_field H HH) as PH.
  pose proof (fmt_02d_field M1 HM1) as PM1.
  pose proof (fmt_02d_field2 M HM) as PM.
  pose proof (fmt_02d_field2 S HS) as PS.
  assert (P0 : fmt_02d 0 = str "00") by done.
  split; [|split; [|split; [|split]]].
  - eexists. split; [by apply parse_hms_ms_exact|].
    rewrite (seconds_to_timestamp_fields (digits_value H) (digits_value M)
               (digits_value S) (inject_Z (digits_value MS) / 1000));
      [|lia|lia|lia|done|done|reflexivity].
    rewrite PH, PM, PS. reflexivity.
  - eexists. split; [by apply parse_hms_exact|].
    rewrite (seconds_to_timestamp_fields (digits_value H) (digits_value M)
               (digits_value S) 0); [|lia|lia|lia|lra|lra|lra].
    rewrite PH, PM, PS. reflexivity.
  - eexists. split; [by apply parse_ms_ms_exact|].
    rewrite (seconds_to_timestamp_fields 0 (digits_value M1)
               (digits_value S) (inject_Z (digits_value MS) / 1000));
      [|lia|lia|lia|done|done|reflexivity].
    rewrite P0, PM1, PS. reflexivity.
  - eexists. split; [by apply parse_ms_exact|].
    rewrite (seconds_to_timestamp_fields 0 (digits_value M1)
               (digits_value S) 0);
      [|lia|lia|lia|lra|lra|rewrite Z.mul_0_l, Z.add_0_l; lra].
    rewrite P0, PM1, PS. reflexivity.
  - apply seconds_to_timestamp_truncates.
Qed.

End round_trip.

Lemma timestamp_round_trip_witness :
  digit_field 1 2 (str "00") ∧ digit_field 2 2 (str "01")
  ∧ digit_field 2 2 (str "02") ∧ digit_field 3 3 (str "500")
  ∧ (digits_value (str "01") < 60)%Z ∧ (digits_value (str "02") < 60)%Z
  ∧ ∃ v, parse_timestamp float_decimal (str "00:01:02,500") = Ret v
      ∧ seconds_to_timestamp v = str "00:01:02".
Proof.
  assert (H1 : digit_field 1 2 (str "00")) by (split; [simpl; lia|done]).
  assert (H2 : digit_field 2 2 (str "01")) by (split; [simpl; lia|done]).
  assert (H3 : digit_field 1 2 (str "5")) by (split; [simpl; lia|done]).
  assert (H4 : digit_field 2 2 (str "02")) by (split; [simpl; lia|done]).
  assert (H5 : digit_field 3 3 (str "500")) by (split; [simpl; lia|done]).
  assert (H6 : is_comma_dot "," = true) by done.
  assert (L1 : (digits_value (str "01") < 60)%Z) by done.
  assert (L2 : (digits_value (str "5") < 60)%Z) by done.
  assert (L3 : (digits_value (str "02") < 60)%Z) by done.
  repeat (split; [assumption|]).
  exact (proj1 (timestamp_round_trip float_decimal (str "00") (str "01")
                  (str "5") (str "02") (str "500") "," H1 H2 H3 H4 H5 H6 L1 L2 L3)).
Defined.

(** C5 as stated fails when a field is out of range: "00:61:00" parses to
    3660 seconds and formats back to "01:01:00"; the minutes-and-seconds
    notation "75:30" formats back to "01:15:30". *)
Lemma timestamp_round_trip_out_of_range :
  (∃ v, parse_timestamp float_decimal (str "00:61:00") = Ret v
     ∧ seconds_to_timestamp v = str "01:01:00"
     ∧ seconds_to_timestamp v ≠ str "00:61:00")
  ∧ (∃ v, parse_timestamp float_decimal (str "75:30") = Ret v
       ∧ seconds_to_timestamp v = str "01:15:30").
Proof.
  split.
  - eexists. split; [by vm_compute|]. split; by vm_compute.
  - eexists. split; [by vm_compute|]. by vm_compute.
Qed.

(** ** Speaker identity resolver *)

Lemma str_inj (s1 s2 : string) : str s1 = str s2 → s1 = s2.
Proof.
  unfold str. intros H.
  rewrite <- (string_of_list_ascii_of_string s1),
          <- (string_of_list_ascii_of_string s2). by rewrite H.
Qed.

Lemma str_of_nat_inj (n m : nat) : str_of_nat n = str_of_nat m → n = m.
Proof.
  unfold str_of_nat. intros H. apply str_inj in H.
  apply Unsigned.to_uint_inj.
  assert (Hn : ∀ k, Nat.to_uint k ≠ Decimal.Nil).
  { intros k Hk. pose proof (Unsigned.of_to k) as Hk'.
    rewrite Hk in Hk'. simpl in Hk'. subst k. discriminate Hk. }
  pose proof (NilZero.usu _ (Hn n)) as H1.
  pose proof (NilZero.usu _ (Hn m)) as H2.
  rewrite H in H1. congruence.
Qed.

Lemma speaker_ident_inj (n m : nat) : speaker_ident n = speaker_ident m → n = m.
Proof.
  unfold speaker_ident. intros H. apply app_inv_head in H.
  by apply str_of_nat_inj.
Qed.

Lemma first_seen_snoc (segs : list TranscriptSegment) (seg : TranscriptSegment) :
  first_seen (segs ++ [seg]) = see (first_seen segs) (label_of seg).
Proof. unfold first_seen. by rewrite map_app, fold_left_app. Qed.

Lemma resolver_invariant_empty : resolver_invariant ∅ [].
Proof.
  repeat split; try done.
  - constructor.
  - intros l [x Hx]. by rewrite lookup_empty in Hx.
  - intros seg Hseg. by apply elem_of_nil in Hseg.
Qed.

Lemma ranked_ids_snoc (segs : list TranscriptSegment) (seg : TranscriptSegment) :
  ranked_ids segs →
  (∀ n l, first_seen segs !! n = Some l →
          first_seen (segs ++ [seg]) !! n = Some l) →
  match label_of seg with
  | Some l => ∃ n, first_seen (segs ++ [seg]) !! n = Some l
                ∧ speaker_id seg = Some (speaker_ident (S n))
  | None => speaker_id seg = None
  end →
  ranked_ids (segs ++ [seg]).
Proof.
  intros Hold Hmono Hnew x Hx.
  apply elem_of_app in Hx as [Hx|Hx].
  - specialize (Hold x Hx). destruct (label_of x) as [l|]; [|done].
    destruct Hold as (n & Hn & Hid). eauto.
  - apply list_elem_of_singleton in Hx. by subst x.
Qed.

Lemma first_seen_snoc_none (segs : list TranscriptSegment) (seg : TranscriptSegment) :
  label_of seg = None → first_seen (segs ++ [seg]) = first_seen segs.
Proof. intros H. by rewrite first_seen_snoc, H. Qed.

Lemma first_seen_snoc_old (segs : list TranscriptSegment) (seg : TranscriptSegment)
    (l : pystr) :
  label_of seg = Some l → l ∈ first_seen segs →
  first_seen (segs ++ [seg]) = first_seen segs.
Proof.
  intros H Hin. rewrite first_seen_snoc, H. cbn [see].
  by rewrite bool_decide_true.
Qed.

Lemma first_seen_snoc_new (segs : list TranscriptSegment) (seg : TranscriptSegment)
    (l : pystr) :
  label_of seg = Some l → l ∉ first_seen segs →
  first_seen (segs ++ [seg]) = first_seen segs ++ [l].
Proof.
  intros H Hin. rewrite first_seen_snoc, H. cbn [see].
  by rewrite bool_decide_false.
Qed.

Lemma resolver_invariant_step (speaker_counter speaker_counter' : gmap pystr pystr)
    (segs : list TranscriptSegment) (start end_ : Q) (txt : pystr)
    (speaker sid : option pystr) :
  resolver_invariant speaker_counter segs →
  assign_speaker_id speaker_counter speaker = (speaker_counter', sid) →
  resolver_invariant speaker_counter'
    (segs ++ [mkSegment start end_ txt sid speaker]).
Proof.
  intros (Hnd & Hsize & Hrank & Hdom & Hids) Hassign.
  set (seg := mkSegment start end_ txt sid speaker).
  unfold resolver_invariant.
  unfold assign_speaker_id in Hassign.
  assert (Hlabel : label_of seg
                   = match speaker with
                     | Some sp => if truthy sp then Some sp else None
                     | None => None
                     end) by done.
  destruct speaker as [sp|]; [destruct (truthy sp) eqn:Esp|].
  2,3: inversion Hassign; subst;
    rewrite (first_seen_snoc_none _ _ Hlabel);
    repeat split; try done;
    apply ranked_ids_snoc; [done| |by rewrite Hlabel];
    intros n l Hn; by rewrite (first_seen_snoc_none _ _ Hlabel).
  destruct (speaker_counter !! sp) as [id|] eqn:Elook.
  - inversion Hassign; subst.
    assert (Hin : sp ∈ first_seen segs) by (apply Hdom; eauto).
    rewrite (first_seen_snoc_old _ _ _ Hlabel Hin).
    repeat split; try done.
    apply ranked_ids_snoc; [done|..].
    + intros n l Hn. by rewrite (first_seen_snoc_old _ _ _ Hlabel Hin).
    + rewrite Hlabel, (first_seen_snoc_old _ _ _ Hlabel Hin).
      apply list_elem_of_lookup in Hin as [n Hn]. exists n. split; [done|].
      cbn. rewrite <- Elook. by apply Hrank.
  - inversion Hassign; subst.
    assert (Hnin : sp ∉ first_seen segs).
    { intros Hin. apply list_elem_of_lookup in Hin as [n Hn].
      apply Hrank in Hn. congruence. }
    rewrite (first_seen_snoc_new _ _ _ Hlabel Hnin).
    assert (Hmono : ∀ n l, first_seen segs !! n = Some l →
                           (first_seen segs ++ [sp]) !! n = Some l).
    { intros n l Hn. rewrite lookup_app_l; [done|]. by eapply lookup_lt_Some. }
    split; [|split; [|split; [|split]]].
    + apply NoDup_app. repeat split; [done| |apply NoDup_singleton].
      intros x Hx Hx'. apply list_elem_of_singleton in Hx'. by subst.
    + rewrite map_size_insert_None by done. rewrite length_app. simpl. lia.
    + intros n l Hn.
      destruct (decide (n < length (first_seen segs))) as [Hlt|Hge].
      * rewrite lookup_app_l in Hn by done.
        rewrite lookup_insert_ne; [by apply Hrank|].
        intros ->. apply Hnin. by eapply list_elem_of_lookup_2.
      * rewrite lookup_app_r in Hn by lia.
        destruct (n - length (first_seen segs)) as [|k] eqn:Ek; [|by destruct k].
        inversion Hn; subst l. rewrite lookup_insert_eq.
        replace (S n) with (size speaker_counter + 1) by lia. done.
    + intros l [x Hx]. apply elem_of_app.
      destruct (decide (l = sp)) as [->|Hne]; [right; by apply list_elem_of_singleton|].
      left. apply Hdom. rewrite lookup_insert_ne in Hx by done. eauto.
    + apply ranked_ids_snoc; [done|..].
      * intros n l Hn. rewrite (first_seen_snoc_new _ _ _ Hlabel Hnin).
        by apply Hmono.
      * rewrite Hlabel, (first_seen_snoc_new _ _ _ Hlabel Hnin).
        exists (length (first_seen segs)). split.
        -- rewrite lookup_app_r by lia. by rewrite Nat.sub_diag.
        -- replace (S (length (first_seen segs)))
             with (size speaker_counter + 1) by lia. done.
Qed.

Lemma resolver_invariant_resolution (speaker_counter : gmap pystr pystr)
    (segs : list TranscriptSegment) :
  resolver_invariant speaker_counter segs → first_seen_resolution segs.
Proof.
  intros (Hnd & _ & _ & _ & Hids). split; [done|]. split; [done|].
  intros a b la lb Ha Hb Hla Hlb.
  pose proof (Hids a Ha) as Ia. pose proof (Hids b Hb) as Ib.
  rewrite Hla in Ia. rewrite Hlb in Ib.
  destruct Ia as (na & Hna & Ida). destruct Ib as (nb & Hnb & Idb).
  rewrite Ida, Idb. split.
  - intros Heq. apply (inj Some), speaker_ident_inj in Heq.
    assert (na = nb) by lia. subst. congruence.
  - intros ->. by rewrite (NoDup_lookup _ _ _ _ Hnd Hna Hnb).
Qed.

(** ** The parsers return, with resolved speakers *)

Lemma vtt_collect_length (lines text_lines : list pystr) (sp : option pystr) :
  length (vtt_collect lines text_lines sp).2 ≤ length lines.
Proof.
  revert text_lines sp.
  induction lines as [|l rest IH]; intros text_lines sp; cbn [vtt_collect];
    [cbn; lia|].
  destruct (negb (truthy (strip l)) || matches re_arrow (strip l));
    [cbn [snd]; lia|]. cbn [length].
  destruct (negb (matches re_number (strip l))
            && negb (startswith (str "NOTE") (strip l))).
  - destruct (extract_speaker_from_vtt_line (strip l)) as [speaker cleaned].
    etrans; [apply IH|lia].
  - etrans; [apply IH|lia].
Qed.

Section parsers_return.

Variable py_float : pystr → option Q.

Lemma vtt_loop_resolves (fuel : nat) (lines : list pystr)
    (segs : list TranscriptSegment) (speaker_counter : gmap pystr pystr) :
  length lines ≤ fuel → resolver_invariant speaker_counter segs →
  ∃ out speaker_counter',
    vtt_loop py_float fuel lines segs speaker_counter = Ret out
    ∧ resolver_invariant speaker_counter' out.
Proof.
  revert lines segs speaker_counter.
  induction fuel as [|fuel IH]; intros lines segs speaker_counter Hlen Hinv.
  - destruct lines; [|simpl in Hlen; lia]. simpl. eauto.
  - destruct lines as [|l rest]; [simpl; eauto|].
    simpl in Hlen. cbn [vtt_loop].
    destruct (re_match re_arrow (strip l)) as [[g r]|]; [|apply IH; [lia|done]].
    destruct (parse_timestamp_returns py_float (group 1 g)) as (v1 & ->).
    destruct (parse_timestamp_returns py_float (group 2 g)) as (v2 & ->).
    cbn [obind].
    pose proof (vtt_collect_length rest [] None) as Hrest.
    destruct (vtt_collect rest [] None) as [[text_lines sp] rest'].
    simpl in Hrest.
    destruct (truthy text_lines); [|apply IH; [lia|done]].
    destruct (assign_speaker_id speaker_counter sp) as [counter' sid] eqn:Ea.
    apply IH; [lia|]. by eapply resolver_invariant_step.
Qed.

Lemma srt_block_resolves (block : pystr) (segs : list TranscriptSegment)
    (speaker_counter : gmap pystr pystr) :
  resolver_invariant speaker_counter segs →
  ∃ out speaker_counter',
    srt_block py_float block segs speaker_counter = Ret (out, speaker_counter')
    ∧ resolver_invariant speaker_counter' out.
Proof.
  intros Hinv. unfold srt_block.
  destruct (length (split_on newline (strip block)) <? 2); [eauto|].
  destruct (srt_find_arrow (split_on newline (strip block)))
    as [[g text_lines]|]; [|eauto].
  destruct (parse_timestamp_returns py_float (group 1 g)) as (v1 & ->).
  destruct (parse_timestamp_returns py_float (group 2 g)) as (v2 & ->).
  cbn [obind].
  destruct (srt_text_lines text_lines) as [sp cleaned].
  destruct (assign_speaker_id speaker_counter sp) as [counter' sid] eqn:Ea.
  eexists _, _. split; [reflexivity|]. by eapply resolver_invariant_step.
Qed.

Lemma srt_loop_resolves (blocks : list pystr) (segs : list TranscriptSegment)
    (speaker_counter : gmap pystr pystr) :
  resolver_invariant speaker_counter segs →
  ∃ out speaker_counter',
    srt_loop py_float blocks segs speaker_counter = Ret out
    ∧ resolver_invariant speaker_counter' out.
Proof.
  revert segs speaker_counter.
  induction blocks as [|block rest IH]; intros segs speaker_counter Hinv.
  - simpl. eauto.
  - cbn [srt_loop].
    destruct (srt_block_resolves block segs speaker_counter Hinv)
      as (out & counter' & -> & Hinv').
    cbn [obind fst snd]. by apply IH.
Qed.

Lemma plain_line_returns (line : pystr) :
  ∃ item, plain_line py_float line = Ret item.
Proof.
  unfold plain_line.
  destruct (negb (truthy (strip line))); [eauto|].
  destruct (re_match re_speaker_first (strip line)) as [[g r]|].
  { destruct (parse_timestamp_returns py_float (group 2 g)) as (v & ->).
    cbn [obind]. eauto. }
  destruct (re_match re_ts_speaker (strip line)) as [[g r]|].
  { destruct (parse_timestamp_returns py_float (group 1 g)) as (v & ->).
    cbn [obind]. eauto. }
  destruct (re_match re_ts_only (strip line)) as [[g r]|].
  { destruct (parse_timestamp_returns py_float (group 1 g)) as (v & ->).
    cbn [obind]. destruct (speaker_in_text _). eauto. }
  destruct (re_match re_ts_dash (strip line)) as [[g r]|]; [|eauto].
  destruct (parse_timestamp_returns py_float (group 1 g)) as (v & ->).
  cbn [obind]. destruct (speaker_in_text _). eauto.
Qed.

Lemma plain_items_return (lines : list pystr) :
  ∃ items, plain_items py_float lines = Ret items.
Proof.
  induction lines as [|line rest [items IH]]; simpl; [eauto|].
  destruct (plain_line_returns line) as [item ->]. rewrite IH. cbn. eauto.
Qed.

Lemma plain_segments_resolves (items : list (Q * pystr * option pystr))
    (segs : list TranscriptSegment) (speaker_counter : gmap pystr pystr) :
  resolver_invariant speaker_counter segs →
  ∃ speaker_counter',
    resolver_invariant speaker_counter' (plain_segments items segs speaker_counter).
Proof.
  revert segs speaker_counter.
  induction items as [|[[start txt] sp] rest IH]; intros segs speaker_counter Hinv.
  - simpl. eauto.
  - cbn [plain_segments].
    destruct (assign_speaker_id speaker_counter sp) as [counter' sid] eqn:Ea.
    apply IH. by eapply resolver_invariant_step.
Qed.

Lemma parse_vtt_resolves (content : pystr) :
  ∃ segs, parse_vtt py_float content = Ret segs ∧ first_seen_resolution segs.
Proof.
  unfold parse_vtt.
  destruct (vtt_loop_resolves
              (length (skip_header (split_on newline (strip content))))
              (skip_header (split_on newline (strip content))) [] ∅)
    as (out & counter' & Hout & Hinv); [done|apply resolver_invariant_empty|].
  exists out. split; [done|]. by eapply resolver_invariant_resolution.
Qed.

Lemma parse_srt_resolves (content : pystr) :
  ∃ segs, parse_srt py_float content = Ret segs ∧ first_seen_resolution segs.
Proof.
  unfold parse_srt.
  destruct (srt_loop_resolves (re_split re_blank (strip content)) [] ∅)
    as (out & counter' & Hout & Hinv); [apply resolver_invariant_empty|].
  exists out. split; [done|]. by eapply resolver_invariant_resolution.
Qed.

Lemma parse_plain_text_resolves (content : pystr) :
  ∃ segs, parse_plain_text py_float content = Ret segs
    ∧ first_seen_resolution segs.
Proof.
  unfold parse_plain_text.
  destruct (plain_items_return (split_on newline (strip content))) as [items ->].
  cbn [obind].
  destruct (plain_segments_resolves items [] ∅ resolver_invariant_empty)
    as [counter' Hinv].
  eexists. split; [reflexivity|]. by eapply resolver_invariant_resolution.
Qed.

End parsers_return.

(** C7. Within one parsing pass of any of the three parsers, whatever the
    input, every segment with a speaker label carries the identifier
    [speaker_N], where [N] is the first-seen rank of the label among the
    labels of the emitted segments (the first label gets [speaker_1]);
    later occurrences of the character-identical label carry the same
    identifier and different label strings carry different identifiers. *)
Theorem speaker_ids_first_seen (py_float : pystr → option Q) (content : pystr) :
  (∃ segs, parse_vtt py_float content = Ret segs ∧ first_seen_resolution segs)
  ∧ (∃ segs, parse_srt py_float content = Ret segs ∧ first_seen_resolution segs)
  ∧ (∃ segs, parse_plain_text py_float content = Ret segs
       ∧ first_seen_resolution segs).
Proof.
  split; [apply parse_vtt_resolves|].
  split; [apply parse_srt_resolves|apply parse_plain_text_resolves].
Qed.

(** ** Names of the freeform parser start with a letter *)

Lemma letter_not_space (c : ascii) : is_letter c = true → is_space c = false.
Proof. destruct c as [[] [] [] [] [] [] [] []]; by vm_compute. Qed.

Lemma strip_clean_head (c : ascii) (s : pystr) :
  is_space c = false → ∃ s', strip (c :: s) = c :: s'.
Proof.
  intros Hc. unfold strip, rstrip. cbn [lstrip]. rewrite Hc.
  pose proof (lstrip_last (rev (c :: s)) c) as Hl.
  rewrite last_rev in Hl. specialize (Hl eq_refl Hc).
  destruct (lstrip (rev (c :: s))) as [|d l] using rev_ind; [done|].
  rewrite last_snoc in Hl. inversion Hl; subst d.
  rewrite rev_unit. eauto.
Qed.

Lemma re_speaker_in_text_letter (t : pystr) (g : groups) (rest : pystr) :
  re_match re_speaker_in_text t = Some (g, rest) →
  ∃ c tl, group 1 g = c :: tl ∧ is_letter c = true.
Proof.
  unfold re_match, re_speaker_in_text. intros H.
  rewrite cat_cons in H by done. cbn [rmatch] in H.
  destruct t as [|c s]; [done|]. destruct (is_letter c) eqn:Ec; [|done].
  apply star_lazy_sound in H as (s1 & pos1 & H & [_ ->]).
  rewrite cat_cons in H by done. cbn [rmatch] in H.
  apply rmatch_sound in H as (s2 & pos2 & g2 & H & _ & Hg2).
  rewrite (Hg2 eq_refl) in H. clear Hg2.
  rewrite cat_cons in H by done. cbn [rmatch] in H.
  apply star_greedy_sound in H as (s3 & pos3 & H & _).
  apply text_tail_sound in H as (txt & s4 & pos4 & [= <- _] & _).
  cbn [group Nat.eqb]. exists c. eexists. by split.
Qed.

Lemma speaker_in_text_letter (t txt sp : pystr) :
  speaker_in_text t = (txt, Some sp) →
  ∃ c tl, sp = c :: tl ∧ is_letter c = true.
Proof.
  unfold speaker_in_text.
  destruct (re_match re_speaker_in_text t) as [[g rest]|] eqn:E; [|done].
  destruct (length (split_ws (strip (group 1 g))) <=? 4); [|done].
  intros [= _ <-].
  apply re_speaker_in_text_letter in E as (c & tl & -> & Hc).
  destruct (strip_clean_head c tl (letter_not_space c Hc)) as [s' ->]. eauto.
Qed.

(** ** Speaker-name heuristic *)

Lemma speaker_name_ok_spec (name : pystr) :
  speaker_name_ok name = true ↔ few_tokens name ∧ digit_free name.
Proof.
  unfold speaker_name_ok, few_tokens, digit_free.
  rewrite andb_true_iff, Nat.leb_le, negb_true_iff.
  split; intros [H1 H2]; (split; [done|]).
  - apply Forall_forall. intros c Hc.
    destruct (isdigit c) eqn:E; [|done].
    assert (existsb isdigit name = true); [|congruence].
    apply existsb_exists. exists c. split; [|done]. by apply list_elem_of_In.
  - destruct (existsb isdigit name) eqn:E; [|done].
    apply existsb_exists in E as (c & Hc & Hd).
    apply list_elem_of_In in Hc.
    rewrite (proj1 (Forall_forall _ _) H2 c Hc) in Hd. done.
Qed.

(** C9 (amended). In the leading-name heuristic of the two cue-block
    parsers a candidate name is accepted as a speaker label only if it has
    at most four tokens and contains no digit, and a candidate failing
    either condition leaves the line as ordinary text with no speaker
    attributed; the embedded-name check of the freeform parser accepts a
    candidate, which starts with a letter, on the token count alone, and a
    candidate of more than four tokens leaves the text as it is with no
    speaker. *)
Theorem leading_name_heuristic (line : pystr) :
  (re_match re_voice line = None →
     (∀ sp txt, extract_speaker_from_vtt_line line = (Some sp, txt) →
                few_tokens sp ∧ digit_free sp)
     ∧ (∀ g rest, re_match re_speaker_colon line = Some (g, rest) →
          ¬ (few_tokens (strip (group 1 g)) ∧ digit_free (strip (group 1 g))) →
          extract_speaker_from_vtt_line line = (None, re_sub re_tag line)))
  ∧ (∀ sp0 cleaned,
       (∀ sp, (srt_text_line line (sp0, cleaned)).1 = Some sp →
              sp0 = Some sp ∨ few_tokens sp ∧ digit_free sp)
       ∧ (∀ g rest,
            re_match re_speaker_colon (re_sub re_tag line) = Some (g, rest) →
            ¬ (few_tokens (strip (group 1 g)) ∧ digit_free (strip (group 1 g))) →
            srt_text_line line (sp0, cleaned)
            = (sp0, cleaned ++ [re_sub re_tag line])))
  ∧ (∀ txt sp, speaker_in_text line = (txt, Some sp) →
       few_tokens sp ∧ ∃ c tl, sp = c :: tl ∧ is_letter c = true)
  ∧ (∀ g rest, re_match re_speaker_in_text line = Some (g, rest) →
       ¬ few_tokens (strip (group 1 g)) →
       speaker_in_text line = (line, None)).
Proof.
  split; [|split; [|split]].
  - intros Hv. unfold extract_speaker_from_vtt_line. rewrite Hv. split.
    + intros sp txt.
      destruct (re_match re_speaker_colon line) as [[g rest]|]; [|done].
      destruct (speaker_name_ok (strip (group 1 g))) eqn:E; [|done].
      intros [= <- _]. by apply speaker_name_ok_spec.
    + intros g rest -> Hbad.
      destruct (speaker_name_ok (strip (group 1 g))) eqn:E; [|done].
      by apply speaker_name_ok_spec in E.
  - intros sp0 cleaned. unfold srt_text_line. split.
    + intros sp.
      destruct (re_match re_speaker_colon (re_sub re_tag line)) as [[g rest]|];
        [|by left].
      destruct (speaker_name_ok (strip (group 1 g))) eqn:E; [|by left].
      destruct (truthy_opt sp0); cbn [negb fst]; [by left|].
      intros [= <-]. right. by apply speaker_name_ok_spec.
    + intros g rest -> Hbad.
      destruct (speaker_name_ok (strip (group 1 g))) eqn:E; [|done].
      by apply speaker_name_ok_spec in E.
  - intros txt sp Hsp. split; [|by eapply speaker_in_text_letter].
    revert Hsp. unfold speaker_in_text.
    destruct (re_match re_speaker_in_text line) as [[g rest]|]; [|done].
    destruct (length (split_ws (strip (group 1 g))) <=? 4) eqn:E; [|done].
    intros [= _ <-]. by apply Nat.leb_le.
  - intros g rest Hm Hbad. unfold speaker_in_text. rewrite Hm.
    destruct (length (split_ws (strip (group 1 g))) <=? 4) eqn:E; [|done].
    by apply Nat.leb_le in E.
Qed.

Lemma leading_name_heuristic_witness :
  re_match re_voice (str "Bob Smith: hello") = None
  ∧ extract_speaker_from_vtt_line (str "Bob Smith: hello")
    = (Some (str "Bob Smith"), str "hello")
  ∧ few_tokens (str "Bob Smith") ∧ digit_free (str "Bob Smith").
Proof.
  assert (H1 : re_match re_voice (str "Bob Smith: hello") = None) by done.
  assert (H2 : extract_speaker_from_vtt_line (str "Bob Smith: hello")
               = (Some (str "Bob Smith"), str "hello")) by done.
  split; [exact H1|]. split; [exact H2|].
  exact (proj1 (proj1 (leading_name_heuristic (str "Bob Smith: hello")) H1)
           (str "Bob Smith") (str "hello") H2).
Defined.

(** C9 as stated fails in the freeform parser: the line
    "00:01 - Agent 47: hello" gets the speaker "Agent 47", a name with a
    digit. *)
Lemma freeform_name_with_digit :
  speaker_in_text (str "Agent 47: hello") = (str "hello", Some (str "Agent 47"))
  ∧ ¬ digit_free (str "Agent 47")
  ∧ ∃ seg, parse_plain_text float_decimal (str "00:01 - Agent 47: hello") = Ret [seg]
      ∧ speaker_name seg = Some (str "Agent 47")
      ∧ speaker_id seg = Some (str "speaker_1").
Proof.
  split; [by vm_compute|]. split.
  - intros H. by repeat (apply Forall_cons in H as [? H]).
  - eexists. split; [by vm_compute|]. by split.
Qed.

(** ** Empty cue text *)

Lemma join_truthy (sep : pystr) (parts : list pystr) :
  truthy parts = true → Forall (λ t, truthy t = true) parts →
  truthy (join sep parts) = true.
Proof.
  destruct parts as [|x parts]; [done|]. intros _ Hall.
  apply Forall_cons in Hall as [Hx _].
  destruct x as [|c x]; [done|]. by destruct parts.
Qed.

Lemma vtt_collect_truthy (lines text_lines : list pystr) (sp : option pystr) :
  Forall (λ t, truthy t = true) text_lines →
  Forall (λ t, truthy t = true) (vtt_collect lines text_lines sp).1.1.
Proof.
  revert text_lines sp.
  induction lines as [|l rest IH]; intros text_lines sp Hall;
    cbn [vtt_collect]; [done|].
  destruct (negb (truthy (strip l)) || matches re_arrow (strip l)); [done|].
  destruct (negb (matches re_number (strip l))
            && negb (startswith (str "NOTE") (strip l))); [|by apply IH].
  destruct (extract_speaker_from_vtt_line (strip l)) as [speaker cleaned].
  apply IH. destruct (truthy cleaned) eqn:E; [|done].
  apply Forall_app. split; [done|]. by constructor.
Qed.

Lemma vtt_loop_texts (py_float : pystr → option Q) (fuel : nat)
    (lines : list pystr) (segs out : list TranscriptSegment)
    (speaker_counter : gmap pystr pystr) :
  Forall (λ seg, truthy (text seg) = true) segs →
  vtt_loop py_float fuel lines segs speaker_counter = Ret out →
  Forall (λ seg, truthy (text seg) = true) out.
Proof.
  revert lines segs speaker_counter.
  induction fuel as [|fuel IH]; intros lines segs speaker_counter Hall;
    destruct lines as [|l rest]; cbn [vtt_loop]; try congruence.
  destruct (re_match re_arrow (strip l)) as [[g r]|]; [|by apply IH].
  destruct (parse_timestamp_returns py_float (group 1 g)) as (v1 & ->).
  destruct (parse_timestamp_returns py_float (group 2 g)) as (v2 & ->).
  cbn [obind].
  pose proof (vtt_collect_truthy rest [] None (Forall_nil_2 _)) as Htl.
  destruct (vtt_collect rest [] None) as [[text_lines sp] rest'].
  cbn [fst] in Htl.
  destruct (truthy text_lines) eqn:E; [|by apply IH].
  destruct (assign_speaker_id speaker_counter sp) as [counter' sid].
  apply IH. apply Forall_app. split; [done|].
  constructor; [|done]. cbn [text]. by apply join_truthy.
Qed.

(** The cue-block parser does drop the cues without text: no segment it
    emits has an empty text. *)
Lemma parse_vtt_no_empty_text (py_float : pystr → option Q) (content : pystr)
    (segs : list TranscriptSegment) :
  parse_vtt py_float content = Ret segs → Forall (λ seg, text seg ≠ []) segs.
Proof.
  intros H. apply vtt_loop_texts in H; [|done].
  eapply Forall_impl; [exact H|]. intros seg Hseg Hnil. simpl in Hseg.
  by rewrite Hnil in Hseg.
Qed.

Lemma speaker_in_text_truthy (t : pystr) :
  ends_clean t → truthy t = true → truthy (speaker_in_text t).1 = true.
Proof.
  intros Hclean Ht. unfold speaker_in_text.
  destruct (re_match re_speaker_in_text t) as [[g rest]|] eqn:E; [|done].
  destruct (length (split_ws (strip (group 1 g))) <=? 4); [|done].
  cbn [fst].
  apply (line_pattern_text_truthy
           [Grp 1 (Seq (Chr is_letter) (StarLazy (not_char ":"))); Lit ":";
            Star is_space] 2 t g rest Hclean E).
Qed.

Lemma plain_line_text (py_float : pystr → option Q) (line : pystr)
    (ts : Q) (txt : pystr) (sp : option pystr) :
  plain_line py_float line = Ret (Some (ts, txt, sp)) → truthy txt = true.
Proof.
  unfold plain_line.
  pose proof (strip_ends_clean line) as Hclean.
  destruct (negb (truthy (strip line))); [done|].
  destruct (re_match re_speaker_first (strip line)) as [[g r]|] eqn:E1.
  { destruct (parse_timestamp_returns py_float (group 2 g)) as (v & ->).
    cbn [obind]. intros [= _ <- _].
    apply (line_pattern_text_truthy
             [Grp 1 (Seq (Chr is_letter) (StarLazy not_bracket)); Star is_space;
              Chr is_open; Grp 2 (Plus is_ts_char); Chr is_close; Lit ":";
              Star is_space] 3 _ g r Hclean E1). }
  destruct (re_match re_ts_speaker (strip line)) as [[g r]|] eqn:E2.
  { destruct (parse_timestamp_returns py_float (group 1 g)) as (v & ->).
    cbn [obind]. intros [= _ <- _].
    apply (line_pattern_text_truthy
             [Chr is_open; Grp 1 (Plus is_ts_char); Chr is_close; Star is_space;
              Grp 2 (Seq (Chr is_letter) (StarLazy (not_char ":"))); Lit ":";
              Star is_space] 3 _ g r Hclean E2). }
  destruct (re_match re_ts_only (strip line)) as [[g r]|] eqn:E3.
  { destruct (parse_timestamp_returns py_float (group 1 g)) as (v & ->).
    cbn [obind].
    pose proof (speaker_in_text_truthy (strip (group 2 g))
                  (strip_ends_clean _)) as Hin.
    destruct (speaker_in_text (strip (group 2 g))) as [t' sp'].
    intros [= _ <- _]. apply Hin.
    apply (line_pattern_text_truthy
             [Chr is_open; Grp 1 (Plus is_ts_char); Chr is_close; Star is_space]
             2 _ g r Hclean E3). }
  destruct (re_match re_ts_dash (strip line)) as [[g r]|] eqn:E4; [|done].
  destruct (parse_timestamp_returns py_float (group 1 g)) as (v & ->).
  cbn [obind].
  pose proof (speaker_in_text_truthy (strip (group 2 g))
                (strip_ends_clean _)) as Hin.
  destruct (speaker_in_text (strip (group 2 g))) as [t' sp'].
  intros [= _ <- _]. apply Hin.
  apply (line_pattern_text_truthy
           [Grp 1 (Plus is_ts_char); Star is_space; Chr is_dash_colon;
            Star is_space] 2 _ g r Hclean E4).
Qed.

Lemma plain_items_texts (py_float : pystr → option Q) (lines : list pystr)
    (items : list (Q * pystr * option pystr)) :
  plain_items py_float lines = Ret items →
  Forall (λ it, truthy it.1.2 = true) items.
Proof.
  revert items. induction lines as [|line rest IH]; intros items; simpl.
  - by intros [= <-].
  - destruct (plain_line py_float line) as [item|] eqn:E; [|done].
    destruct (plain_items py_float rest) as [items'|] eqn:E'; [|done].
    cbn. intros [= <-]. specialize (IH _ eq_refl).
    destruct item as [[[ts txt] sp]|]; [|done].
    constructor; [|done]. by eapply plain_line_text.
Qed.

Lemma plain_segments_texts (items : list (Q * pystr * option pystr))
    (segs : list TranscriptSegment) (speaker_counter : gmap pystr pystr) :
  Forall (λ seg, truthy (text seg) = true) segs →
  Forall (λ it, truthy it.1.2 = true) items →
  Forall (λ seg, truthy (text seg) = true)
    (plain_segments items segs speaker_counter).
Proof.
  revert segs speaker_counter.
  induction items as [|[[start txt] sp] rest IH]; intros segs speaker_counter Hs Hi;
    [done|].
  apply Forall_cons in Hi as [Ht Hi]. cbn [plain_segments].
  destruct (assign_speaker_id speaker_counter sp) as [counter' sid].
  apply IH; [|done]. apply Forall_app. split; [done|]. by constructor.
Qed.

(** Nor does the freeform parser emit a segment with an empty text. *)
Lemma parse_plain_text_no_empty_text (py_float : pystr → option Q)
    (content : pystr) (segs : list TranscriptSegment) :
  parse_plain_text py_float content = Ret segs →
  Forall (λ seg, text seg ≠ []) segs.
Proof.
  unfold parse_plain_text.
  destruct (plain_items py_float (split_on newline (strip content)))
    as [items|] eqn:E; [|done].
  cbn [obind]. intros [= <-].
  apply plain_items_texts in E.
  pose proof (plain_segments_texts items [] ∅ (Forall_nil_2 _) E) as H.
  eapply Forall_impl; [exact H|]. intros seg Hseg Hnil. simpl in Hseg.
  by rewrite Hnil in Hseg.
Qed.

(** C8 (the indexed cue-block parser breaks it). A block made of an index
    line and a timestamp line has no text, and [parse_srt] still emits its
    segment, with an empty text. *)
Theorem parse_srt_emits_empty_text (py_float : pystr → option Q) :
  ∃ seg, parse_srt py_float srt_cue_without_text = Ret [seg]
    ∧ text seg = []
    ∧ (start_seconds seg == 1)%Q ∧ (end_seconds seg == 2)%Q.
Proof. eexists. split; [by vm_compute|]. by repeat split. Qed.

(** ** Stable sort *)

Lemma sort_insert_perm {A : Type} (before : A → A → bool) (x : A) (l : list A) :
  sort_insert before x l ≡ₚ x :: l.
Proof.
  induction l as [|y l IH]; simpl; [done|].
  destruct (before x y); [done|].
  rewrite IH. apply Permutation_swap.
Qed.

Lemma stable_sort_perm {A : Type} (before : A → A → bool) (l : list A) :
  stable_sort before l ≡ₚ l.
Proof.
  induction l as [|x l IH]; simpl; [done|].
  unfold stable_sort in *. simpl. by rewrite sort_insert_perm, IH.
Qed.

Section sorted.
Context {A : Type} (before : A → A → bool).
Hypothesis before_total : ∀ x y, before x y = true ∨ before y x = true.
Hypothesis before_trans :
  ∀ x y z, before x y = true → before y z = true → before x z = true.

Lemma sort_insert_sorted (x : A) (l : list A) :
  StronglySorted (λ a b, before a b = true) l →
  StronglySorted (λ a b, before a b = true) (sort_insert before x l).
Proof using before_total before_trans.
  induction l as [|y l IH]; simpl; intros Hl.
  - repeat constructor.
  - apply StronglySorted_cons in Hl as [Hy Hl].
    destruct (before x y) eqn:E.
    + apply StronglySorted_cons. split.
      * constructor; [done|]. eapply Forall_impl; [exact Hy|].
        intros z Hz. by eapply before_trans.
      * by apply StronglySorted_cons.
    + apply StronglySorted_cons. split; [|by apply IH].
      rewrite sort_insert_perm. constructor; [|done].
      by destruct (before_total x y) as [?|?]; [congruence|].
Qed.

Lemma stable_sort_sorted (l : list A) :
  StronglySorted (λ a b, before a b = true) (stable_sort before l).
Proof using before_total before_trans.
  induction l as [|x l IH]; [constructor|].
  by apply sort_insert_sorted.
Qed.
End sorted.

Lemma StronglySorted_sub {A : Type} (R : A → A → Prop) (l1 l2 : list A) :
  l1 `sublist_of` l2 → StronglySorted R l2 → StronglySorted R l1.
Proof.
  induction 1 as [|x l1 l2 Hsub IH|x l1 l2 Hsub IH]; intros Hs; [done|..];
    apply StronglySorted_cons in Hs as [Hx Hs].
  - apply StronglySorted_cons. split; [|by apply IH].
    apply Forall_forall. intros y Hy.
    eapply (proj1 (Forall_forall _ _) Hx), elem_of_sublist; eauto.
  - by apply IH.
Qed.

Lemma StronglySorted_weaken {A : Type} (R R' : A → A → Prop) (l : list A) :
  (∀ a b, R a b → R' a b) → StronglySorted R l → StronglySorted R' l.
Proof.
  intros HR. induction 1 as [|x l Hl IH Hx]; constructor; [done|].
  eapply Forall_impl; [exact Hx|]. auto.
Qed.

(** ** Turn consolidation *)

Lemma squash_snoc (l : list pystr) (x : pystr) :
  squash (l ++ [x]) = if bool_decide (last l = Some x) then squash l
                      else squash l ++ [x].
Proof.
  induction l as [|a l IH]; [done|].
  destruct l as [|b l].
  - simpl. repeat case_bool_decide; congruence.
  - change (squash ((a :: b :: l) ++ [x]))
      with (if bool_decide (a = b) then squash ((b :: l) ++ [x])
            else a :: squash ((b :: l) ++ [x])).
    change (squash (a :: b :: l))
      with (if bool_decide (a = b) then squash (b :: l) else a :: squash (b :: l)).
    change (last (a :: b :: l)) with (last (b :: l)).
    rewrite IH. by repeat case_bool_decide.
Qed.

Lemma squash_head (l : list pystr) : head (squash l) = head l.
Proof.
  induction l as [|a [|b l] IH]; [done..|].
  change (squash (a :: b :: l))
    with (if bool_decide (a = b) then squash (b :: l) else a :: squash (b :: l)).
  case_bool_decide; [|done]. rewrite IH. simpl. congruence.
Qed.

Lemma squash_last_eq (l : list pystr) : last (squash l) = last l.
Proof.
  induction l as [|a [|b l] IH]; [done..|].
  change (squash (a :: b :: l))
    with (if bool_decide (a = b) then squash (b :: l) else a :: squash (b :: l)).
  change (last (a :: b :: l)) with (last (b :: l)).
  case_bool_decide; [done|]. rewrite <- IH.
  destruct (squash (b :: l)) eqn:E; [|done].
  apply (f_equal head) in E. by rewrite squash_head in E.
Qed.

Lemma squash_adjacent (l : list pystr) (i : nat) (a b : pystr) :
  squash l !! i = Some a → squash l !! S i = Some b → a ≠ b.
Proof.
  revert i. induction l as [|x [|y l] IH]; intros i; [done| |].
  - by destruct i.
  - change (squash (x :: y :: l))
      with (if bool_decide (x = y) then squash (y :: l) else x :: squash (y :: l)).
    case_bool_decide as Hxy; [apply IH|].
    destruct i as [|i]; [|apply IH].
    intros [= <-] Hb. cbn [lookup list_lookup] in Hb.
    pose proof (squash_head (y :: l)) as Hh.
    destruct (squash (y :: l)); simpl in *; congruence.
Qed.

Lemma or_unknown_truthy (x : option pystr) : truthy (or_unknown x) = true.
Proof. destruct x as [[|c s]|]; done. Qed.

Lemma or_unknown_some (c : pystr) : truthy c = true → or_unknown (Some c) = c.
Proof. by destruct c. Qed.

Lemma last_snoc_app {A : Type} (l : list A) (x : A) : last (l ++ [x]) = Some x.
Proof. induction l as [|a [|b l] IH]; done. Qed.

Lemma consolidate_fold_invariant (segments : list TranscriptSegment) :
  consolidation_invariant segments
    (fold_left consolidate_step segments (mkCons None None 0 0 [] [])).
Proof.
  induction segments as [|x segments IH] using rev_ind; [done|].
  rewrite fold_left_app. cbn [fold_left].
  remember (fold_left consolidate_step segments _) as st eqn:Hst. clear Hst.
  assert (Hne : ∃ y l, segments ++ [x] = y :: l).
  { destruct segments; simpl; eauto. }
  destruct Hne as (y & l & Hyl). unfold consolidation_invariant at 1.
  rewrite Hyl, <- Hyl. clear y l Hyl.
  unfold consolidate_step. fold (resolved_speaker x).
  rewrite map_app. cbn [map]. rewrite squash_snoc.
  destruct segments as [|y l].
  - unfold consolidation_invariant in IH. subst st. cbn.
    exists (resolved_speaker x). split; [done|].
    split; [apply or_unknown_truthy|]. by split.
  - destruct IH as (c & Hc & Htc & Hparts & Hsq). rewrite Hc.
    assert (Hlast : last (map resolved_speaker (y :: l)) = Some c).
    { rewrite <- squash_last_eq, Hsq. apply last_snoc_app. }
    rewrite Hlast.
    destruct (decide (resolved_speaker x = c)) as [->|Hne].
    + rewrite bool_decide_false by (intros H; by apply H).
      rewrite bool_decide_true by done. cbn.
      exists c. repeat split; try done.
      by destruct (current_text_parts _).
    + rewrite bool_decide_true by congruence.
      rewrite bool_decide_false by congruence.
      rewrite Hparts, Hsq, (or_unknown_some c Htc).
      exists (resolved_speaker x). split; [done|].
      split; [apply or_unknown_truthy|]. split; [done|].
      cbn [speaker_segments]. by rewrite map_app.
Qed.

Lemma consolidate_speakers (segments : list TranscriptSegment) :
  map turn_speaker_id (consolidate segments)
  = squash (map resolved_speaker segments).
Proof.
  unfold consolidate.
  pose proof (consolidate_fold_invariant segments) as H.
  remember (fold_left consolidate_step segments _) as st eqn:Hst. clear Hst.
  destruct segments as [|y l].
  - unfold consolidation_invariant in H. by subst st.
  - destruct H as (c & Hc & Htc & Hparts & Hsq).
    unfold consolidate_finish.
    rewrite Hparts, Hsq, Hc, (or_unknown_some c Htc), map_app. done.
Qed.

(** ** Per-speaker aggregation *)

Lemma nat_sum_from (l : list nat) (a : nat) :
  fold_left Nat.add l a = a + sum_list l.
Proof.
  revert a. induction l as [|x l IH]; intros a; simpl; [lia|].
  rewrite IH. lia.
Qed.

Lemma nat_sum_sum_list (l : list nat) : nat_sum l = sum_list l.
Proof. unfold nat_sum. by rewrite nat_sum_from. Qed.

Lemma sum_list_permutation (l l' : list nat) :
  l ≡ₚ l' → sum_list l = sum_list l'.
Proof. induction 1; simpl; lia. Qed.

Lemma dict_set_sum {V : Type} (f : V → nat) (k : pystr) (v : V)
    (d : list (pystr * V)) :
  sum_list (map (λ kv, f kv.2) (dict_set k v d))
    + from_option f 0 (dict_get k d)
  = sum_list (map (λ kv, f kv.2) d) + f v.
Proof.
  induction d as [|[k' v'] d IH]; simpl; [lia|].
  case_bool_decide; simpl; lia.
Qed.

Lemma data_step_turns (data : list (pystr * speaker_datum)) (seg : SpeakerSegment) :
  sum_list (map (λ kv, d_turns kv.2) (data_step data seg))
  = sum_list (map (λ kv, d_turns kv.2) data) + 1.
Proof.
  unfold data_step.
  pose proof (dict_set_sum d_turns (turn_speaker_id seg)) as H.
  destruct (dict_get (turn_speaker_id seg) data) as [d|] eqn:E.
  - specialize (H (mkDatum (d_talk_time d
                            + (turn_end_seconds seg - turn_start_seconds seg))%Q
                     (d_word_count d + turn_word_count seg) (d_turns d + 1)
                     (d_speaker_name d)) data).
    rewrite E in H. simpl in *. lia.
  - specialize (H (mkDatum (0 + (turn_end_seconds seg - turn_start_seconds seg))%Q
                     (0 + turn_word_count seg) (0 + 1)
                     (turn_speaker_name seg)) data).
    rewrite E in H. simpl in *. lia.
Qed.

Lemma data_fold_turns (turns : list SpeakerSegment)
    (data : list (pystr * speaker_datum)) :
  sum_list (map (λ kv, d_turns kv.2) (fold_left data_step turns data))
  = sum_list (map (λ kv, d_turns kv.2) data) + length turns.
Proof.
  revert data. induction turns as [|t turns IH]; intros data; simpl; [lia|].
  rewrite IH, data_step_turns. lia.
Qed.

Lemma make_metrics_turn_count (T : Q) (data : list (pystr * speaker_datum)) :
  map turn_count (map (make_metrics T) data) = map (λ kv, d_turns kv.2) data.
Proof. rewrite map_map. apply map_ext. by intros [k d]. Qed.

(** C10. For every segment list, [compute_speaker_metrics] consolidates the
    maximal runs of consecutive segments resolving to the same speaker id
    (["unknown"] when unresolved): the speaker ids of the returned turns are
    the resolved ids of the segments with every run collapsed, so any two
    consecutive turns have distinct speaker ids; and the returned
    [total_turns] is both the number of turns and the sum of [turn_count]
    over the returned speaker metrics. *)
Theorem compute_speaker_metrics_turns (segments : list TranscriptSegment) :
  let '(metrics, turns, total_turns) := compute_speaker_metrics segments in
  map turn_speaker_id turns = squash (map resolved_speaker segments)
  ∧ (∀ (i : nat) (a b : SpeakerSegment),
       turns !! i = Some a → turns !! S i = Some b →
       turn_speaker_id a ≠ turn_speaker_id b)
  ∧ total_turns = length turns
  ∧ total_turns = nat_sum (map turn_count metrics).
Proof.
  unfold compute_speaker_metrics.
  destruct segments as [|y l]; [by repeat split|].
  cbn [truthy negb].
  set (segments := y :: l).
  set (data := fold_left data_step (consolidate segments) []).
  assert (Hturns : sum_list (map (λ kv, d_turns kv.2) data)
                   = length (consolidate segments)).
  { unfold data. by rewrite data_fold_turns. }
  split; [apply consolidate_speakers|]. split; [|split].
  - intros i a b Ha Hb.
    apply (squash_adjacent (map resolved_speaker segments) i).
    + by rewrite <- consolidate_speakers, list_lookup_fmap, Ha.
    + by rewrite <- consolidate_speakers, list_lookup_fmap, Hb.
  - by rewrite nat_sum_sum_list.
  - rewrite !nat_sum_sum_list.
    rewrite (sum_list_permutation (map turn_count (stable_sort _ _))
               (map turn_count (map (make_metrics
                  (Qsum (map (λ kv, d_talk_time kv.2) data))) data))).
    + by rewrite make_metrics_turn_count.
    + apply Permutation_map, stable_sort_perm.
Qed.

(** ** Binary floating point *)

Section binary64.

Local Open Scope Q_scope.

Lemma round_half_even_error (y : Q) :
  Qabs (inject_Z (round_half_even y) - y) <= 1 # 2.
Proof.
  unfold round_half_even.
  pose proof (Qfloor_le y) as Hlo. pose proof (Qlt_floor y) as Hhi.
  rewrite inject_Z_plus in Hhi. change (inject_Z 1) with 1 in Hhi.
  apply Qabs_Qle_condition.
  destruct (y - inject_Z (Qfloor y) ?= 1 # 2) eqn:E.
  - apply Qeq_alt in E. destruct (Z.even (Qfloor y)).
    + lra.
    + rewrite inject_Z_plus. change (inject_Z 1) with 1. lra.
  - apply Qlt_alt in E. lra.
  - apply Qgt_alt in E. rewrite inject_Z_plus. change (inject_Z 1) with 1. lra.
Qed.

Lemma round_half_even_mono (x y : Q) :
  (x <= y) → (round_half_even x <= round_half_even y)%Z.
Proof.
  intros Hxy.
  pose proof (Qfloor_resp_le x y Hxy) as Hfl.
  pose proof (Qfloor_le x) as Hx0. pose proof (Qlt_floor x) as Hx1.
  pose proof (Qfloor_le y) as Hy0. pose proof (Qlt_floor y) as Hy1.
  rewrite inject_Z_plus in Hx1, Hy1. change (inject_Z 1) with 1 in Hx1, Hy1.
  unfold round_half_even.
  destruct (Z.eq_dec (Qfloor x) (Qfloor y)) as [Heq|Hne].
  - rewrite Heq in *.
    destruct (x - inject_Z (Qfloor y) ?= 1 # 2) eqn:Ex;
      destruct (y - inject_Z (Qfloor y) ?= 1 # 2) eqn:Ey;
      repeat match goal with
        | H : (_ ?= _) = Eq |- _ => apply Qeq_alt in H
        | H : (_ ?= _) = Lt |- _ => apply Qlt_alt in H
        | H : (_ ?= _) = Gt |- _ => apply Qgt_alt in H
        end;
      try lra; try (destruct (Z.even (Qfloor y))); lia.
  - assert (Hlt : (Qfloor x + 1 <= Qfloor y)%Z) by lia.
    assert (Hrx : (round_half_even x <= Qfloor x + 1)%Z).
    { unfold round_half_even.
      destruct (x - inject_Z (Qfloor x) ?= 1 # 2);
        try (destruct (Z.even (Qfloor x))); lia. }
    assert (Hry : (Qfloor y <= round_half_even y)%Z).
    { unfold round_half_even.
      destruct (y - inject_Z (Qfloor y) ?= 1 # 2);
        try (destruct (Z.even (Qfloor y))); lia. }
    unfold round_half_even in Hrx, Hry. lia.
Qed.

Lemma Qpower_2_pos (e : Z) : 0 < 2 ^ e.
Proof. by apply Qpower_0_lt. Qed.

Lemma Qpower_2_plus (e e' : Z) : 2 ^ (e + e') == 2 ^ e * 2 ^ e'.
Proof. by apply Qpower_plus. Qed.

Lemma Qpower_2_le (e e' : Z) : (e <= e')%Z → 2 ^ e <= 2 ^ e'.
Proof. intros H. by apply Qpower_le_compat_l. Qed.

Lemma Qexponent_spec (x : Q) :
  0 < x → 2 ^ Qexponent x <= x ∧ x < 2 ^ (Qexponent x + 1).
Proof.
  intros Hx. unfold Qexponent.
  destruct (Qle_bool 1 x) eqn:E.
  - apply Qle_bool_true in E.
    pose proof (Qfloor_le x) as Hlo. pose proof (Qlt_floor x) as Hhi.
    assert (Hn : (1 <= Qfloor x)%Z).
    { change 1%Z with (Qfloor 1). by apply Qfloor_resp_le. }
    destruct (Z.log2_spec (Qfloor x)) as [H1 H2]; [lia|].
    pose proof (Z.log2_nonneg (Qfloor x)) as H0.
    replace (Z.succ (Z.log2 (Qfloor x))) with (Z.log2 (Qfloor x) + 1)%Z in H2
      by lia.
    assert (H2' : (Qfloor x + 1 <= 2 ^ (Z.log2 (Qfloor x) + 1))%Z) by lia.
    rewrite Zle_Qle, Zpower_Qpower in H1 by done.
    rewrite Zle_Qle, Zpower_Qpower in H2' by lia.
    change (inject_Z 2) with 2 in H1, H2'.
    split; [eapply Qle_trans; [exact H1|exact Hlo]|].
    eapply Qlt_le_trans; [exact Hhi|exact H2'].
  - apply Qle_bool_false in E.
    assert (Hxy : x * / x == 1) by (apply Qmult_inv_r; lra).
    assert (Hy : 1 < / x).
    { apply Qlt_shift_inv_l; [done|]. lra. }
    pose proof (Qle_ceiling (/ x)) as Hc. pose proof (Qceiling_lt (/ x)) as Hc'.
    set (y := / x) in *. set (c := Qceiling y) in *.
    assert (Hc2 : (1 < c)%Z).
    { rewrite Zlt_Qlt. change (inject_Z 1) with 1. lra. }
    destruct (Z.log2_up_spec c Hc2) as [H1 H2].
    pose proof (Z.log2_up_pos c Hc2) as Hk.
    set (k := Z.log2_up c) in *.
    replace (Z.pred k) with (k - 1)%Z in H1 by lia.
    assert (H1' : (2 ^ (k - 1) <= c - 1)%Z) by lia.
    rewrite Zle_Qle, Zpower_Qpower in H1' by lia.
    rewrite Zle_Qle, Zpower_Qpower in H2 by lia.
    change (inject_Z 2) with 2 in H1', H2.
    assert (Hyk : y <= 2 ^ k) by lra.
    assert (Hky : 2 ^ (k - 1) < y) by lra.
    split.
    + rewrite Qpower_opp. apply Qle_shift_inv_r; [apply Qpower_2_pos|].
      rewrite <- Hxy. by apply Qmult_le_l.
    + replace (- k + 1)%Z with (- (k - 1))%Z by lia.
      rewrite Qpower_opp. apply Qlt_shift_inv_l; [apply Qpower_2_pos|].
      rewrite <- Hxy. by apply Qmult_lt_l.
Qed.

Lemma Qexponent_mono (x y : Q) :
  0 < x → x <= y → (Qexponent x <= Qexponent y)%Z.
Proof.
  intros Hx Hxy.
  destruct (Qexponent_spec x Hx) as [Hx1 _].
  destruct (Qexponent_spec y) as [_ Hy2]; [lra|].
  destruct (Z_le_gt_dec (Qexponent x) (Qexponent y)) as [|Hgt]; [done|].
  pose proof (Qpower_2_le (Qexponent y + 1) (Qexponent x)) as H.
  lapply H; [|lia]. intros H'. lra.
Qed.

Lemma round_half_even_Z (n : Z) : round_half_even (inject_Z n) = n.
Proof.
  unfold round_half_even. rewrite Qfloor_Z.
  destruct (inject_Z n - inject_Z n ?= 1 # 2) eqn:E; [| done |].
  - apply Qeq_alt in E. lra.
  - apply Qgt_alt in E. lra.
Qed.

Lemma binary64_zero (d : positive) : binary64 (0 # d) = 0.
Proof. reflexivity. Qed.

Lemma binary64_pos (x : Q) :
  0 < x →
  binary64 x
  == inject_Z (round_half_even (x / 2 ^ (Qexponent x - 52)))
     * 2 ^ (Qexponent x - 52).
Proof.
  intros Hx. destruct x as [[|p|p] d]; [done| |done].
  unfold binary64. change (Qabs (Z.pos p # d)) with (Z.pos p # d).
  assert (E1 : Qle_bool (Z.pos p # d) 0 = false) by reflexivity.
  assert (E2 : Qle_bool 0 (Z.pos p # d) = true) by reflexivity.
  rewrite E1, E2. apply Qred_correct.
Qed.

Lemma binary64_opp (x : Q) : binary64 (- x) == - binary64 x.
Proof.
  destruct x as [[|p|p] d]; [reflexivity| |].
  - unfold binary64 at 1.
    change (Qabs (- (Z.pos p # d))) with (Z.pos p # d).
    assert (E1 : Qle_bool (Z.pos p # d) 0 = false) by reflexivity.
    assert (E2 : Qle_bool 0 (- (Z.pos p # d)) = false) by reflexivity.
    rewrite E1, E2, Qred_correct. by rewrite (binary64_pos (Z.pos p # d)).
  - change (- (Z.neg p # d)) with (Z.pos p # d).
    unfold binary64 at 2.
    change (Qabs (Z.neg p # d)) with (Z.pos p # d).
    assert (E1 : Qle_bool (Z.pos p # d) 0 = false) by reflexivity.
    assert (E2 : Qle_bool 0 (Z.neg p # d) = false) by reflexivity.
    rewrite E1, E2, Qred_correct, Qopp_involutive.
    by rewrite (binary64_pos (Z.pos p # d)).
Qed.

Lemma binary64_eq0 (x : Q) : x == 0 → binary64 x == 0.
Proof. destruct x as [[|p|p] d]; by intros H. Qed.

Lemma binary64_neg (x : Q) : x < 0 → binary64 x == - binary64 (- x).
Proof.
  intros Hx. destruct x as [[|p|p] d]; [done|done|].
  rewrite <- binary64_opp. by change (- - (Z.neg p # d)) with (Z.neg p # d).
Qed.

Lemma ulp_scale (e : Z) (k : Z) :
  (0 <= k)%Z → 2 ^ (e - 52 + k) == inject_Z (2 ^ k) * 2 ^ (e - 52).
Proof.
  intros Hk. rewrite Qpower_2_plus, Zpower_Qpower by done.
  change (inject_Z 2) with 2. ring.
Qed.

Lemma significand_range (x : Q) :
  0 < x →
  (2 ^ 52 <= round_half_even (x / 2 ^ (Qexponent x - 52)) <= 2 ^ 53)%Z.
Proof.
  intros Hx. destruct (Qexponent_spec x Hx) as [Hlo Hhi].
  set (e := Qexponent x) in *.
  pose proof (Qpower_2_pos (e - 52)) as Hulp.
  pose proof (ulp_scale e 52) as H52. pose proof (ulp_scale e 53) as H53.
  replace (e - 52 + 52)%Z with e in H52 by lia.
  replace (e - 52 + 53)%Z with (e + 1)%Z in H53 by lia.
  rewrite H52 in Hlo by lia. rewrite H53 in Hhi by lia.
  split.
  - rewrite <- (round_half_even_Z (2 ^ 52)) at 1. apply round_half_even_mono.
    by apply Qle_shift_div_l.
  - rewrite <- (round_half_even_Z (2 ^ 53)) at 1. apply round_half_even_mono.
    apply Qle_shift_div_r; [done|]. by apply Qlt_le_weak.
Qed.

Lemma binary64_range (x : Q) :
  0 < x → 2 ^ Qexponent x <= binary64 x ∧ binary64 x <= 2 ^ (Qexponent x + 1).
Proof.
  intros Hx. rewrite binary64_pos by done.
  destruct (significand_range x Hx) as [Hlo Hhi].
  set (e := Qexponent x) in *.
  pose proof (Qpower_2_pos (e - 52)) as Hulp.
  pose proof (ulp_scale e 52) as H52. pose proof (ulp_scale e 53) as H53.
  replace (e - 52 + 52)%Z with e in H52 by lia.
  replace (e - 52 + 53)%Z with (e + 1)%Z in H53 by lia.
  rewrite H52, H53 by lia. rewrite Zle_Qle in Hlo, Hhi.
  split; (apply Qmult_le_compat_r; [done|by apply Qlt_le_weak]).
Qed.

Lemma binary64_positive (x : Q) : 0 < x → 0 < binary64 x.
Proof.
  intros Hx. destruct (binary64_range x Hx) as [H _].
  pose proof (Qpower_2_pos (Qexponent x)). lra.
Qed.

Lemma binary64_nonneg (x : Q) : 0 <= x → 0 <= binary64 x.
Proof.
  intros Hx. destruct (Qlt_le_dec 0 x) as [Hpos|Hle].
  - by apply Qlt_le_weak, binary64_positive.
  - rewrite binary64_eq0; lra.
Qed.

Lemma binary64_mono_pos (x y : Q) :
  0 < x → x <= y → binary64 x <= binary64 y.
Proof.
  intros Hx Hxy. assert (Hy : 0 < y) by lra.
  pose proof (Qexponent_mono x y Hx Hxy) as He.
  destruct (Z.eq_dec (Qexponent x) (Qexponent y)) as [Heq|Hne].
  - rewrite !binary64_pos by done. rewrite Heq.
    pose proof (Qpower_2_pos (Qexponent y - 52)) as Hulp.
    apply Qmult_le_compat_r; [|by apply Qlt_le_weak].
    rewrite <- Zle_Qle. apply round_half_even_mono.
    apply Qmult_le_compat_r; [done|]. by apply Qinv_le_0_compat, Qlt_le_weak.
  - destruct (binary64_range x Hx) as [_ H1].
    destruct (binary64_range y Hy) as [H2 _].
    pose proof (Qpower_2_le (Qexponent x + 1) (Qexponent y)) as H.
    lapply H; [|lia]. intros H'. lra.
Qed.

(** Rounding to binary64 keeps the order. *)
Lemma binary64_mono (x y : Q) : x <= y → binary64 x <= binary64 y.
Proof.
  intros Hxy.
  destruct (Qlt_le_dec 0 x) as [Hx|Hx]; [by apply binary64_mono_pos|].
  destruct (Qlt_le_dec y 0) as [Hy|Hy].
  - rewrite (binary64_neg x), (binary64_neg y) by lra.
    apply Qopp_le_compat. apply binary64_mono_pos; lra.
  - apply Qle_trans with 0; [|by apply binary64_nonneg].
    destruct (Qlt_le_dec x 0) as [Hneg|Hzero].
    + rewrite (binary64_neg x) by done.
      pose proof (binary64_positive (- x)) as H. lapply H; [|lra]. lra.
    + rewrite binary64_eq0; lra.
Qed.

Lemma binary64_error_pos (x : Q) :
  0 < x → Qabs (binary64 x - x) <= x * 2 ^ (- 53).
Proof.
  intros Hx. rewrite binary64_pos by done.
  destruct (Qexponent_spec x Hx) as [Hlo _].
  set (e := Qexponent x) in *.
  pose proof (Qpower_2_pos (e - 52)) as Hulp.
  pose proof (round_half_even_error (x / 2 ^ (e - 52))) as Herr.
  assert (He : 2 ^ e * 2 ^ (- 53) == (1 # 2) * 2 ^ (e - 52)).
  { replace (e - 52)%Z with (e + - 52)%Z by lia. rewrite Qpower_2_plus.
    change (2 ^ (- 53)) with ((1 # 2) * 2 ^ (- 52)). ring. }
  pose proof (Qpower_2_pos (- 53)) as Hu.
  set (ulp := 2 ^ (e - 52)) in *. set (u := 2 ^ (- 53)) in *.
  set (m := inject_Z (round_half_even (x / ulp))) in *.
  assert (Hm : m * ulp - x == (m - x / ulp) * ulp) by (field; lra).
  rewrite Hm. apply Qabs_Qle_condition in Herr as [Herr1 Herr2].
  assert (Hxu : 2 ^ e * u <= x * u).
  { apply Qmult_le_compat_r; [done|by apply Qlt_le_weak]. }
  assert (H1 : (m - x / ulp) * ulp <= (1 # 2) * ulp).
  { apply Qmult_le_compat_r; [done|by apply Qlt_le_weak]. }
  assert (H2 : - (1 # 2) * ulp <= (m - x / ulp) * ulp).
  { apply Qmult_le_compat_r; [done|by apply Qlt_le_weak]. }
  apply Qabs_Qle_condition. lra.
Qed.

(** The relative error of one rounding is at most [2^-53]. *)
Lemma binary64_error (x : Q) : Qabs (binary64 x - x) <= Qabs x * 2 ^ (- 53).
Proof.
  destruct (Qlt_le_dec 0 x) as [Hx|Hx].
  - rewrite (Qabs_pos x) by lra. by apply binary64_error_pos.
  - rewrite (Qabs_neg x) by done.
    destruct (Qlt_le_dec x 0) as [Hneg|Hzero].
    + rewrite (binary64_neg x) by done.
      pose proof (binary64_error_pos (- x)) as H. lapply H; [|lra].
      intros H'. apply Qabs_Qle_condition in H'. apply Qabs_Qle_condition. lra.
    + rewrite binary64_eq0 by lra.
      pose proof (Qpower_2_pos (- 53)) as Hu.
      assert (H0 : x == 0) by lra. rewrite H0.
      apply Qabs_Qle_condition. lra.
Qed.

End binary64.

Section rounding.

Local Open Scope Q_scope.

Lemma binary64_near (x bound : Q) :
  Qabs x <= bound → Qabs (binary64 x - x) <= bound * (1 # 9007199254740992).
Proof.
  intros Hx. eapply Qle_trans; [apply binary64_error|].
  change (2 ^ (- 53)) with (1 # 9007199254740992).
  by apply Qmult_le_compat_r.
Qed.

Lemma binary64_between (lo hi x : Q) :
  binary64 lo == lo → binary64 hi == hi → lo <= x <= hi →
  lo <= binary64 x <= hi.
Proof.
  intros Hlo Hhi [H1 H2]. split.
  - rewrite <- Hlo. by apply binary64_mono.
  - rewrite <- Hhi. by apply binary64_mono.
Qed.

Lemma round_half_even_between (lo hi : Z) (x : Q) :
  inject_Z lo <= x <= inject_Z hi → (lo <= round_half_even x <= hi)%Z.
Proof.
  intros [H1 H2]. split.
  - rewrite <- (round_half_even_Z lo) at 1. by apply round_half_even_mono.
  - rewrite <- (round_half_even_Z hi) at 1. by apply round_half_even_mono.
Qed.

(** [round] keeps the order. *)
Lemma py_round_mono (x y : Q) (ndigits : nat) :
  x <= y → py_round x ndigits <= py_round y ndigits.
Proof.
  intros Hxy. unfold py_round. apply binary64_mono.
  set (scale := (10 ^ Z.of_nat ndigits)%Z).
  assert (Hs : (0 < scale)%Z) by (apply Z.pow_pos_nonneg; lia).
  assert (Hsq : 0 < inject_Z scale) by (by rewrite Zlt_Qlt in Hs).
  apply Qmult_le_compat_r; [|by apply Qinv_le_0_compat, Qlt_le_weak].
  rewrite <- Zle_Qle. apply round_half_even_mono.
  apply Qmult_le_compat_r; [by apply binary64_mono|by apply Qlt_le_weak].
Qed.

(** [round] acts on the binary64 number: 99.65 and 0.005 are held as numbers
    just above the decimal ties, and go up. *)
Example py_round_above_tie :
  py_round (9965 # 100) 1 = binary64 (997 # 10)
  ∧ py_round (5 # 1000) 2 = binary64 (1 # 100)
  ∧ py_round (25 # 100) 1 = binary64 (2 # 10).
Proof. repeat split; by vm_compute. Qed.

Lemma py_round_1_zero : py_round 0 1 == 0.
Proof. reflexivity. Qed.

Lemma py_round_1_range (x : Q) :
  0 <= x <= 100 → 0 <= py_round x 1 <= 100.
Proof.
  intros [Hlo Hhi].
  assert (H0 : py_round 0 1 == 0) by reflexivity.
  assert (H100 : py_round 100 1 == 100) by (by vm_compute).
  split.
  - rewrite <- H0. by apply py_round_mono.
  - rewrite <- H100. by apply py_round_mono.
Qed.

(** A share of the total, as the program computes it, is a percentage. *)
Lemma share_range (t T : Q) :
  0 <= t <= T → 0 < T → 0 <= float_mul (float_div t T) 100 <= 100.
Proof.
  intros [Ht HT] Hpos.
  assert (H0 : 0 <= t / T) by (apply Qle_shift_div_l; [done|]; lra).
  assert (H1 : t / T <= 1) by (apply Qle_shift_div_r; [done|]; lra).
  assert (Ha : 0 <= float_div t T <= 1).
  { by apply binary64_between; [reflexivity|by vm_compute|]. }
  apply binary64_between; [reflexivity|by vm_compute|]. lra.
Qed.

(** One decimal of a share: the error of the decimal rounding, and of the
    four binary roundings on the way. *)
Lemma share_error (t T : Q) :
  0 <= t <= T → 0 < T →
  Qabs (py_round (float_mul (float_div t T) 100) 1 - t / T * 100)
  <= (1 # 20) + (1 # 10000000000000).
Proof.
  intros [Ht HT] Hpos.
  assert (H0 : 0 <= t / T) by (apply Qle_shift_div_l; [done|]; lra).
  assert (H1 : t / T <= 1) by (apply Qle_shift_div_r; [done|]; lra).
  pose proof (share_range t T (conj Ht HT) Hpos) as Hx.
  unfold float_mul, float_div in *.
  set (q := t / T) in *.
  assert (Ha : 0 <= binary64 q <= 1).
  { by apply binary64_between; [reflexivity|by vm_compute|]. }
  pose proof (binary64_near q 1) as Ea. lapply Ea; [clear Ea; intros Ea|].
  2: { apply Qabs_Qle_condition. lra. }
  set (a := binary64 q) in *.
  pose proof (binary64_near (a * 100) 100) as Ex.
  lapply Ex; [clear Ex; intros Ex|].
  2: { apply Qabs_Qle_condition. lra. }
  set (x := binary64 (a * 100)) in *.
  unfold py_round. change (inject_Z (10 ^ Z.of_nat 1)) with 10.
  assert (Hy : 0 <= binary64 x <= 100).
  { by apply binary64_between; [reflexivity|by vm_compute|]. }
  pose proof (binary64_near x 100) as Ey. lapply Ey; [clear Ey; intros Ey|].
  2: { apply Qabs_Qle_condition. lra. }
  set (y := binary64 x) in *.
  pose proof (round_half_even_error (y * 10)) as Er.
  assert (Hr : (0 <= round_half_even (y * 10) <= 1000)%Z).
  { apply round_half_even_between.
    change (inject_Z 0) with 0. change (inject_Z 1000) with 1000. lra. }
  destruct Hr as [Hr0 Hr1]. rewrite Zle_Qle in Hr0, Hr1.
  change (inject_Z 0) with 0 in Hr0. change (inject_Z 1000) with 1000 in Hr1.
  set (r := inject_Z (round_half_even (y * 10))) in *.
  assert (Hdiv : r / 10 == r * (1 # 10)) by (by field).
  pose proof (binary64_near (r / 10) 100) as Ep.
  lapply Ep; [clear Ep; intros Ep|].
  2: { apply Qabs_Qle_condition. rewrite Hdiv. lra. }
  set (p := binary64 (r / 10)) in *. rewrite Hdiv in Ep.
  apply Qabs_Qle_condition in Ea, Ex, Ey, Er, Ep.
  apply Qabs_Qle_condition. lra.
Qed.

End rounding.

(** ** Rounding and percentages *)

Section percentages.

Local Open Scope Q_scope.

Lemma Qsum_from (l : list Q) (a : Q) : fold_left Qplus l a == a + Qsum l.
Proof.
  unfold Qsum. revert a. induction l as [|x l IH]; intros a; simpl; [lra|].
  rewrite (IH (a + x)), (IH (0 + x)). lra.
Qed.

Lemma Qsum_cons (x : Q) (l : list Q) : Qsum (x :: l) == x + Qsum l.
Proof. unfold Qsum at 1. simpl. rewrite Qsum_from. lra. Qed.

Lemma Qsum_permutation (l l' : list Q) : l ≡ₚ l' → Qsum l == Qsum l'.
Proof.
  induction 1 as [|x l l' _ IH|x y l|l l' l'' _ IH1 _ IH2].
  - reflexivity.
  - rewrite !Qsum_cons, IH. reflexivity.
  - rewrite !Qsum_cons. lra.
  - by rewrite IH1.
Qed.

Lemma dict_set_values {V : Type} (P : V → Prop) (k : pystr) (v : V)
    (d : list (pystr * V)) :
  Forall (λ kv, P kv.2) d → P v → Forall (λ kv, P kv.2) (dict_set k v d).
Proof.
  intros Hd Hv. induction Hd as [|[k' v'] d Hkv Hd IH].
  - by repeat constructor.
  - cbn [dict_set]. destruct (bool_decide (k' = k)); by constructor.
Qed.

Lemma dict_get_values {V : Type} (P : V → Prop) (k : pystr) (v : V)
    (d : list (pystr * V)) :
  Forall (λ kv, P kv.2) d → dict_get k d = Some v → P v.
Proof.
  intros Hd. induction Hd as [|[k' v'] d Hkv Hd IH]; [done|].
  cbn [dict_get]. destruct (bool_decide (k' = k)); [|done].
  by intros [= <-].
Qed.

Lemma data_fold_talk_nonneg (turns : list SpeakerSegment) :
  Forall (λ t, turn_start_seconds t <= turn_end_seconds t) turns →
  ∀ data : list (pystr * speaker_datum),
    Forall (λ kv, 0 <= d_talk_time kv.2) data →
    Forall (λ kv, 0 <= d_talk_time kv.2) (fold_left data_step turns data).
Proof.
  induction 1 as [|t turns Ht Hturns IH]; intros data Hdata; [done|].
  cbn [fold_left]. apply IH. unfold data_step.
  apply (dict_set_values (λ d, 0 <= d_talk_time d)); [done|].
  cbn [d_talk_time].
  destruct (dict_get (turn_speaker_id t) data) as [d|] eqn:E.
  - pose proof (dict_get_values (λ d, 0 <= d_talk_time d) _ _ _ Hdata E) as Hd.
    cbn beta in Hd. lra.
  - cbn [d_talk_time]. lra.
Qed.

Lemma Qsum_member (l : list Q) :
  Forall (λ x, 0 <= x) l → 0 <= Qsum l ∧ ∀ x, x ∈ l → x <= Qsum l.
Proof.
  induction 1 as [|y l Hy Hl [IH0 IH]].
  - split; [by change (Qsum []) with 0|]. intros x Hx. by apply elem_of_nil in Hx.
  - split; [rewrite Qsum_cons; lra|].
    intros x Hx. rewrite Qsum_cons.
    apply elem_of_cons in Hx as [->|Hx]; [lra|].
    specialize (IH x Hx). lra.
Qed.

Lemma rounded_shares_sum (ts : list Q) (T : Q) :
  0 < T → Forall (λ t, 0 <= t <= T) ts →
  Qabs (Qsum (map (λ t, py_round (float_mul (float_div t T) 100) 1) ts)
        - Qsum ts / T * 100)
  <= ((1 # 20) + (1 # 10000000000000)) * inject_Z (Z.of_nat (length ts)).
Proof.
  intros HT. induction 1 as [|t ts Ht _ IH].
  - cbn [map length]. change (Qsum []) with 0.
    change (inject_Z (Z.of_nat 0)) with 0.
    assert (H : 0 / T * 100 == 0) by (field; lra). rewrite H.
    apply Qabs_Qle_condition. lra.
  - cbn [map length]. rewrite !Qsum_cons, Nat2Z.inj_succ.
    unfold Z.succ. rewrite inject_Z_plus. change (inject_Z 1) with 1.
    pose proof (share_error t T Ht HT) as Herr.
    apply Qabs_Qle_condition in Herr, IH. apply Qabs_Qle_condition.
    assert (H : (t + Qsum ts) / T * 100 == t / T * 100 + Qsum ts / T * 100)
      by (field; lra).
    rewrite H. lra.
Qed.

Lemma make_metrics_pct (T : Q) (data : list (pystr * speaker_datum)) :
  map talk_time_pct (map (make_metrics T) data)
  = map (λ t, py_round (if Qpos_bool T
                         then float_mul (float_div t T) 100 else 0) 1)
      (map (λ kv, d_talk_time kv.2) data).
Proof. rewrite !map_map. apply map_ext. by intros [k d]. Qed.

Lemma Qpos_bool_true (x : Q) : Qpos_bool x = true ↔ 0 < x.
Proof.
  unfold Qpos_bool. rewrite negb_true_iff. apply Qle_bool_false.
Qed.

Lemma metrics_of_nonempty (y : TranscriptSegment) (l : list TranscriptSegment) :
  metrics_of (y :: l)
  = stable_sort by_talk_time_desc
      (map (make_metrics (total_talk_time (y :: l)))
         (fold_left data_step (consolidate (y :: l)) [])).
Proof. reflexivity. Qed.

(** C6 (amended). For every segment list given to
    [compute_speaker_metrics] whose turns do not end before they start,
    when the total talk time is greater than 0 the [talk_time_pct] values
    of the [n] returned speakers, each rounded to one decimal on its own,
    sum to 100 within [n * (0.05 + 1e-13)]: 0.05 for each decimal rounding
    and 1e-13 for the binary roundings of the quotient, the product and
    [round]; and every speaker's [talk_time_pct] is 0 when the total talk
    time is not greater than 0. *)
Theorem talk_time_pct_sum (segments : list TranscriptSegment) :
  (Forall (λ t, turn_start_seconds t <= turn_end_seconds t)
     (consolidate segments) →
   0 < total_talk_time segments →
   Qabs (pct_sum segments - 100)
   <= ((1 # 20) + (1 # 10000000000000))
      * inject_Z (Z.of_nat (length (metrics_of segments))))
  ∧ (¬ 0 < total_talk_time segments →
     Forall (λ m, talk_time_pct m == 0) (metrics_of segments)).
Proof.
  destruct segments as [|y l].
  { split; [|by constructor]. unfold total_talk_time, Qsum. simpl. lra. }
  unfold pct_sum. rewrite metrics_of_nonempty.
  set (T := total_talk_time (y :: l)).
  set (data := fold_left data_step (consolidate (y :: l)) []).
  split.
  - intros Hturns HT.
    rewrite (Qsum_permutation _ (map talk_time_pct (map (make_metrics T) data)))
      by apply Permutation_map, stable_sort_perm.
    rewrite (Permutation_length (stable_sort_perm _ _)).
    rewrite make_metrics_pct, length_map.
    rewrite (proj2 (Qpos_bool_true T) HT).
    pose proof (data_fold_talk_nonneg _ Hturns [] (Forall_nil_2 _)) as Hdata.
    fold data in Hdata.
    assert (Hnonneg : Forall (λ x, 0 <= x) (map (λ kv, d_talk_time kv.2) data)).
    { by apply Forall_fmap. }
    pose proof (Qsum_member _ Hnonneg) as [_ Hmem].
    assert (Hshares : Forall (λ t, 0 <= t <= T)
                        (map (λ kv, d_talk_time kv.2) data)).
    { rewrite Forall_forall in Hnonneg. apply Forall_forall. intros t Ht.
      split; [by apply Hnonneg|by apply Hmem]. }
    pose proof (rounded_shares_sum _ T HT Hshares) as H.
    rewrite length_map in H.
    assert (Hsum : Qsum (map (λ kv, d_talk_time kv.2) data) / T * 100 == 100).
    { change (Qsum (map (λ kv, d_talk_time kv.2) data)) with T. field. lra. }
    by rewrite Hsum in H.
  - intros HT.
    assert (Hb : Qpos_bool T = false).
    { destruct (Qpos_bool T) eqn:E; [|done]. by apply Qpos_bool_true in E. }
    apply Forall_forall. intros m Hm.
    rewrite (stable_sort_perm _ _) in Hm.
    apply list_elem_of_fmap in Hm as ([k d] & -> & _).
    simpl. rewrite Hb. apply py_round_1_zero.
Qed.

(** C6 as stated fails: the total talk time is positive and the sum of the
    percentages is further than 0.1 from 100. *)
Lemma talk_time_pct_sum_off :
  0 < total_talk_time six_speakers
  ∧ ¬ Qabs (pct_sum six_speakers - 100) <= 1 # 10.
Proof.
  split.
  - by vm_compute.
  - vm_compute. intros H. by apply H.
Qed.

(** It fails for two speakers as well: shares of 0.35 and 99.65 percent
    are reported as the binary64 numbers nearest to 0.4 and 99.7, whose sum
    is above 100.1. *)
Example talk_time_pct_two_speakers_off :
  map talk_time_pct (metrics_of short_and_long)
  = [binary64 (997 # 10); binary64 (4 # 10)]
  ∧ ¬ Qabs (pct_sum short_and_long - 100) <= 1 # 10.
Proof.
  split.
  - by vm_compute.
  - vm_compute. intros H. by apply H.
Qed.

Lemma talk_time_pct_sum_witness :
  Forall (λ t, turn_start_seconds t <= turn_end_seconds t)
    (consolidate alice_and_bob)
  ∧ 0 < total_talk_time alice_and_bob
  ∧ Qabs (pct_sum alice_and_bob - 100)
    <= ((1 # 20) + (1 # 10000000000000))
       * inject_Z (Z.of_nat (length (metrics_of alice_and_bob))).
Proof.
  assert (Hturns : Forall (λ t, turn_start_seconds t <= turn_end_seconds t)
                     (consolidate alice_and_bob)).
  { repeat constructor; by vm_compute. }
  assert (H : 0 < total_talk_time alice_and_bob) by (by vm_compute).
  split; [exact Hturns|]. split; [exact H|].
  exact (proj1 (talk_time_pct_sum alice_and_bob) Hturns H).
Defined.

End percentages.

(** ** Frame merge *)

Lemma by_timestamp_total (x y : frame) :
  by_timestamp x y = true ∨ by_timestamp y x = true.
Proof.
  unfold by_timestamp. rewrite !Qle_bool_true.
  destruct (Qlt_le_dec x.1 y.1); [left; lra|by right].
Qed.

Lemma by_timestamp_trans (x y z : frame) :
  by_timestamp x y = true → by_timestamp y z = true → by_timestamp x z = true.
Proof. unfold by_timestamp. rewrite !Qle_bool_true. lra. Qed.

Lemma sorted_frames_chronological (l : list frame) :
  chronological (stable_sort by_timestamp l).
Proof.
  unfold chronological.
  eapply StronglySorted_weaken;
    [|apply stable_sort_sorted; [apply by_timestamp_total|apply by_timestamp_trans]].
  intros a b Hab. by apply Qle_bool_true.
Qed.

Lemma merge_sweep_sublist (min_gap last_time : Q) (l : list frame) :
  merge_sweep min_gap last_time l `sublist_of` l.
Proof.
  revert last_time. induction l as [|[t f] l IH]; intros last_time; simpl; [done|].
  destruct (Qle_bool _ _).
  - apply sublist_skip, IH.
  - apply sublist_cons, IH.
Qed.

Lemma spaced_cons (gap : Q) (x : frame) (l : list frame) :
  (∀ b, head l = Some b → (gap <= b.1 - x.1)%Q) → spaced gap l →
  spaced gap (x :: l).
Proof.
  intros Hhd Hl [|i] a b Ha Hb; simpl in *.
  - inversion Ha; subst. apply Hhd. by destruct l.
  - by eapply Hl.
Qed.

Lemma merge_sweep_spaced (min_gap last_time : Q) (l : list frame) :
  spaced min_gap (merge_sweep min_gap last_time l)
  ∧ ∀ b, head (merge_sweep min_gap last_time l) = Some b →
         (min_gap <= b.1 - last_time)%Q.
Proof.
  revert last_time. induction l as [|[t f] l IH]; intros last_time; simpl.
  - split; [by intros [|?] ??|done].
  - destruct (Qle_bool min_gap (t - last_time)) eqn:E.
    + apply Qle_bool_true in E. destruct (IH t) as [Hsp Hhd]. split.
      * by apply spaced_cons.
      * intros b Hb. simpl in Hb. by inversion Hb; subst.
    + apply IH.
Qed.


(** ** Downsampling *)

Lemma sorted_lookup {A : Type} (R : A → A → Prop) (l : list A) :
  StronglySorted R l ↔
  ∀ (i j : nat) (a b : A), i < j → l !! i = Some a → l !! j = Some b → R a b.
Proof.
  split.
  - induction 1 as [|x l Hl IH Hx]; intros i j a b Hij Ha Hb; [done|].
    destruct j as [|j]; [lia|]. destruct i as [|i]; simpl in *.
    + inversion Ha; subst.
      eapply (proj1 (Forall_forall _ _) Hx), list_elem_of_lookup_2, Hb.
    + eapply (IH i j); [lia|done..].
  - induction l as [|x l IH]; intros H; constructor.
    + apply IH. intros i j a b Hij Ha Hb. by apply (H (S i) (S j)); [lia|..].
    + apply Forall_forall. intros y Hy.
      apply list_elem_of_lookup in Hy as [j Hj].
      by apply (H 0 (S j)); [lia|..].
Qed.

Lemma omap_list_total {A B : Type} (f : A → outcome B) (l : list A) :
  (∀ x, x ∈ l → ∃ y, f x = Ret y) →
  ∃ ys, omap_list f l = Ret ys ∧ length ys = length l
    ∧ ∀ i x, l !! i = Some x → ∃ y, f x = Ret y ∧ ys !! i = Some y.
Proof.
  induction l as [|x l IH]; intros H; simpl.
  - exists []. by repeat split.
  - destruct (H x) as [y Hy]; [left|].
    destruct IH as (ys & Hys & Hlen & Hlook).
    { intros z Hz. apply H. by right. }
    exists (y :: ys). rewrite Hy, Hys. simpl. repeat split; [by rewrite Hlen|].
    intros [|i] z Hz; simpl in *.
    + inversion Hz; subst. eauto.
    + eauto.
Qed.

Lemma py_index_in_range {A : Type} (l : list A) (j : Z) :
  (0 <= j < Z.of_nat (length l))%Z →
  ∃ x, py_index l j = Ret x ∧ l !! Z.to_nat j = Some x.
Proof.
  intros Hj. unfold py_index.
  destruct (j <? 0)%Z eqn:E; [lia|]. rewrite E.
  destruct (l !! Z.to_nat j) as [x|] eqn:Hx; [eauto|].
  apply lookup_ge_None in Hx. lia.
Qed.

Lemma downsample_index (i len target : Z) :
  (0 <= i)%Z → (0 <= len)%Z → (0 < target)%Z →
  py_trunc (inject_Z i * (inject_Z len / inject_Z target)) = (i * len / target)%Z.
Proof.
  intros Hi Hlen Ht.
  assert (Hne : ¬ inject_Z target == 0).
  { unfold Qeq. simpl. lia. }
  assert (Heq : inject_Z i * (inject_Z len / inject_Z target)
                == inject_Z (i * len) / inject_Z target).
  { rewrite inject_Z_mult. by field. }
  unfold py_trunc.
  assert (Hpos : (0 <= inject_Z i * (inject_Z len / inject_Z target))%Q).
  { rewrite Heq. apply Qle_shift_div_l.
    - change 0%Q with (inject_Z 0). rewrite <- Zlt_Qlt. lia.
    - rewrite Qmult_0_l. change 0%Q with (inject_Z 0). rewrite <- Zle_Qle. nia. }
  apply Qle_bool_true in Hpos. rewrite Hpos.
  rewrite (Qfloor_comp _ _ Heq). symmetry. apply Zdiv_Qdiv.
Qed.

Lemma downsample_index_bound (i len target : Z) :
  (0 <= i < target)%Z → (0 < len)%Z →
  (0 <= i * len / target < len)%Z.
Proof.
  intros Hi Hlen. split.
  - apply Z.div_pos; nia.
  - apply Z.div_lt_upper_bound; nia.
Qed.

Lemma downsample_index_increasing (i j len target : Z) :
  (0 <= i < j)%Z → (0 < target < len)%Z →
  (i * len / target < j * len / target)%Z.
Proof.
  intros Hij Ht.
  assert (H : ((i * len + 1 * target) / target <= j * len / target)%Z).
  { apply Z.div_le_mono; nia. }
  rewrite Z.div_add in H by lia. lia.
Qed.

Section index.

Local Open Scope Q_scope.

Lemma Qmult_le_left (x y z : Q) : x <= y → 0 <= z → z * x <= z * y.
Proof.
  intros Hxy Hz. rewrite !(Qmult_comm z). by apply Qmult_le_compat_r.
Qed.

(** The binary64 value of [i * (len / target)] is within [3 * 2^-53 * len]
    of the exact product. *)
Lemma binary64_index_error (len target i : Z) :
  (0 <= i < target)%Z → (target < len)%Z →
  let exact := inject_Z i * (inject_Z len / inject_Z target) in
  let c := float_mul (inject_Z i) (float_div (inject_Z len) (inject_Z target)) in
  0 <= c
  ∧ Qabs (c - exact) <= 3 * inject_Z len * (1 # 9007199254740992).
Proof.
  intros Hi Hlt exact c. subst exact c. unfold float_mul, float_div.
  assert (Ht : 0 < inject_Z target).
  { change 0 with (inject_Z 0). rewrite <- Zlt_Qlt. lia. }
  assert (Hi0 : 0 <= inject_Z i).
  { change 0 with (inject_Z 0). rewrite <- Zle_Qle. lia. }
  assert (Hit : inject_Z i <= inject_Z target) by (rewrite <- Zle_Qle; lia).
  assert (Hlen : 0 < inject_Z len).
  { change 0 with (inject_Z 0). rewrite <- Zlt_Qlt. lia. }
  set (iq := inject_Z i) in *. set (lq := inject_Z len) in *.
  set (tq := inject_Z target) in *.
  assert (HL : 0 < lq / tq) by (by apply Qlt_shift_div_l; rewrite ?Qmult_0_l).
  pose proof (binary64_near (lq / tq) (lq / tq)) as Es.
  lapply Es; [clear Es; intros Es|rewrite Qabs_pos by lra; apply Qle_refl].
  pose proof (binary64_nonneg (lq / tq)) as Hs. lapply Hs; [clear Hs; intros Hs|lra].
  set (L := lq / tq) in *. set (s := binary64 L) in *.
  set (u := 1 # 9007199254740992) in *.
  assert (Hu : 0 < u ∧ u <= 1) by (by split).
  apply Qabs_Qle_condition in Es as [Es1 Es2].
  assert (HiL : iq * L <= lq).
  { assert (H : iq * L == iq * lq / tq) by (unfold L; field; lra).
    rewrite H. apply Qle_shift_div_r; [done|].
    rewrite (Qmult_comm lq tq). apply Qmult_le_compat_r; lra. }
  assert (HiL0 : 0 <= iq * L) by (apply Qmult_le_0_compat; lra).
  assert (HiLu : 0 <= iq * L * u) by (apply Qmult_le_0_compat; lra).
  assert (HiLu1 : iq * L * u <= iq * L).
  { rewrite <- (Qmult_1_r (iq * L)) at 2. apply Qmult_le_left; lra. }
  assert (E1 : iq * s - iq * L <= iq * L * u).
  { assert (H : iq * s - iq * L == iq * (s - L)) by ring.
    assert (H' : iq * L * u == iq * (L * u)) by ring.
    rewrite H, H'. apply Qmult_le_left; lra. }
  assert (E2 : - (iq * L * u) <= iq * s - iq * L).
  { assert (H : iq * s - iq * L == iq * (s - L)) by ring.
    assert (H' : - (iq * L * u) == iq * (- (L * u))) by ring.
    rewrite H, H'. apply Qmult_le_left; lra. }
  assert (His0 : 0 <= iq * s) by (apply Qmult_le_0_compat; lra).
  pose proof (binary64_near (iq * s) (2 * (iq * L))) as Ec.
  lapply Ec; [clear Ec; intros Ec|rewrite Qabs_pos by done; lra].
  fold u in Ec. apply Qabs_Qle_condition in Ec as [Ec1 Ec2].
  split; [by apply binary64_nonneg|].
  set (c := binary64 (iq * s)) in *.
  assert (Hb : 2 * (iq * L) * u == 2 * (iq * L * u)) by ring.
  rewrite Hb in Ec1, Ec2.
  assert (Hlu : iq * L * u <= lq * u).
  { apply Qmult_le_compat_r; lra. }
  apply Qabs_Qle_condition. lra.
Qed.

(** Where the binary64 index lies: at the floor of the exact quotient, or
    one below it, which takes a product [i * len] that [target] divides. *)
Lemma binary64_index_spec (len target i : Z) :
  (0 <= i < target)%Z → (target < len)%Z → (len * target <= 2 ^ 51)%Z →
  (i * len / target - 1 <= binary64_index len target i <= i * len / target)%Z
  ∧ (0 <= binary64_index len target i)%Z
  ∧ (((i * len) mod target)%Z ≠ 0%Z →
     binary64_index len target i = (i * len / target)%Z).
Proof.
  intros Hi Hlt Hsize.
  destruct (binary64_index_error len target i Hi Hlt) as [Hc0 Herr].
  unfold binary64_index, py_trunc.
  set (c := float_mul (inject_Z i) (float_div (inject_Z len) (inject_Z target))) in *.
  rewrite (proj2 (Qle_bool_true 0 c) Hc0).
  pose proof (Z.div_mod (i * len) target) as Hdm. lapply Hdm; [clear Hdm; intros Hdm|lia].
  pose proof (Z.mod_pos_bound (i * len) target) as Hr. lapply Hr; [clear Hr; intros Hr|lia].
  set (E := (i * len / target)%Z) in *. set (r := ((i * len) mod target)%Z) in *.
  assert (Hq : inject_Z i * inject_Z len
               == inject_Z target * inject_Z E + inject_Z r).
  { rewrite <- !inject_Z_mult, <- inject_Z_plus. by rewrite Hdm. }
  assert (Ht : 1 <= inject_Z target).
  { change 1 with (inject_Z 1). rewrite <- Zle_Qle. lia. }
  assert (HW : inject_Z len * inject_Z target <= 2251799813685248).
  { rewrite <- inject_Z_mult. change 2251799813685248 with (inject_Z (2 ^ 51)).
    by rewrite <- Zle_Qle. }
  assert (Hr0 : 0 <= inject_Z r).
  { change 0 with (inject_Z 0). rewrite <- Zle_Qle. lia. }
  assert (Hr1 : inject_Z r <= inject_Z target - 1).
  { change 1 with (inject_Z 1). unfold Qminus. rewrite <- inject_Z_opp, <- inject_Z_plus.
    rewrite <- Zle_Qle. lia. }
  assert (Hrpos : r ≠ 0%Z → 1 <= inject_Z r).
  { intros Hne. change 1 with (inject_Z 1). rewrite <- Zle_Qle. lia. }
  set (iq := inject_Z i) in *. set (lq := inject_Z len) in *.
  set (tq := inject_Z target) in *. set (rq := inject_Z r) in *.
  assert (Hd : tq * / tq == 1) by (apply Qmult_inv_r; lra).
  assert (Hd0 : 0 < / tq) by (apply Qinv_lt_0_compat; lra).
  assert (Hd1 : / tq <= 1).
  { apply Qle_shift_inv_r; lra. }
  assert (Hexact : iq * (lq / tq) == inject_Z E + rq * / tq).
  { assert (H : iq * (lq / tq) == iq * lq * / tq) by (unfold Qdiv; ring).
    rewrite H, Hq.
    assert (H' : (tq * inject_Z E + rq) * / tq
                 == inject_Z E * (tq * / tq) + rq * / tq) by ring.
    rewrite H', Hd. ring. }
  assert (Hdelta : 3 * lq * (1 # 9007199254740992) < / tq).
  { apply Qlt_shift_inv_l; [lra|].
    assert (H : 3 * lq * (1 # 9007199254740992) * tq
                == 3 * (1 # 9007199254740992) * (lq * tq)) by ring.
    rewrite H. lra. }
  assert (Hrd0 : 0 <= rq * / tq) by (apply Qmult_le_0_compat; lra).
  assert (Hrd1 : rq * / tq <= 1 - / tq).
  { assert (H : (tq - 1) * / tq == tq * / tq - / tq) by ring.
    rewrite Hd in H. rewrite <- H. apply Qmult_le_compat_r; lra. }
  assert (Hrd : r ≠ 0%Z → / tq <= rq * / tq).
  { intros Hne. rewrite <- (Qmult_1_l (/ tq)) at 1.
    apply Qmult_le_compat_r; [by apply Hrpos|lra]. }
  rewrite Hexact in Herr. apply Qabs_Qle_condition in Herr as [Herr1 Herr2].
  pose proof (Qfloor_le c) as Hf1. pose proof (Qlt_floor c) as Hf2.
  rewrite inject_Z_plus in Hf2. change (inject_Z 1) with 1 in Hf2.
  assert (Hup : (Qfloor c < E + 1)%Z).
  { rewrite Zlt_Qlt, inject_Z_plus. change (inject_Z 1) with 1. lra. }
  assert (Hdown : (E - 1 < Qfloor c + 1)%Z).
  { rewrite Zlt_Qlt. unfold Z.sub. rewrite !inject_Z_plus.
    change (inject_Z (- (1))) with (- (1)). change (inject_Z 1) with 1. lra. }
  assert (H0 : (0 <= Qfloor c)%Z).
  { change 0%Z with (Qfloor 0). by apply Qfloor_resp_le. }
  split; [lia|]. split; [done|].
  intros Hne. specialize (Hrd Hne).
  assert (Hdown' : (E < Qfloor c + 1)%Z).
  { rewrite Zlt_Qlt, inject_Z_plus. change (inject_Z 1) with 1. lra. }
  lia.
Qed.

(** The binary64 indices increase with [i]. *)
Lemma binary64_index_increasing (len target i j : Z) :
  (0 <= i < j)%Z → (j < target)%Z → (target < len)%Z →
  (len * target <= 2 ^ 51)%Z →
  (binary64_index len target i < binary64_index len target j)%Z.
Proof.
  intros Hij Hj Hlt Hsize.
  destruct (binary64_index_spec len target i) as ([_ Hi1] & _ & _); [lia..|].
  destruct (binary64_index_spec len target j) as ([Hj0 _] & _ & Hj1); [lia..|].
  pose proof (downsample_index_increasing i j len target) as Hinc.
  lapply Hinc; [clear Hinc; intros Hinc|lia]. lapply Hinc; [clear Hinc; intros Hinc|lia].
  destruct (Z.eq_dec ((j * len) mod target)%Z 0%Z) as [Hdiv|Hndiv].
  - pose proof (Z.div_mod (j * len) target) as Hdm.
    lapply Hdm; [clear Hdm; intros Hdm|lia]. rewrite Hdiv in Hdm.
    assert (Hlt' : (i * len / target < j * len / target - 1)%Z).
    { apply Z.div_lt_upper_bound; [lia|]. nia. }
    lia.
  - specialize (Hj1 Hndiv). lia.
Qed.

End index.

(** C3 (amended). Whenever the merged frame list is longer than a target
    frame count of at least one (and [len * target] is at most [2^51]), the
    downsampling step returns exactly [target] frames, the [i]-th being the
    frame at the index [int(i * (len / target))] that binary64 arithmetic
    gives.  That index is [floor (i * len / target)] when [target] does not
    divide [i * len], and is that floor or one below it when it does.  The
    indices increase strictly, so an ascending list stays ascending. *)
Theorem downsample_frames_binary64_indices (all_frames : list frame) (target : Z) :
  (0 < target)%Z → (target < Z.of_nat (length all_frames))%Z →
  (Z.of_nat (length all_frames) * target <= 2 ^ 51)%Z →
  ∃ out, downsample_frames_binary64 all_frames target = Ret out
    ∧ Z.of_nat (length out) = target
    ∧ (∀ i : nat, (Z.of_nat i < target)%Z →
         let index := binary64_index (Z.of_nat (length all_frames)) target
                        (Z.of_nat i) in
         let floor := (Z.of_nat i * Z.of_nat (length all_frames) / target)%Z in
         is_Some (out !! i)
         ∧ out !! i = all_frames !! Z.to_nat index
         ∧ (floor - 1 <= index <= floor)%Z
         ∧ (((Z.of_nat i * Z.of_nat (length all_frames)) mod target)%Z ≠ 0%Z →
            index = floor))
    ∧ (∀ i j : nat, i < j → (Z.of_nat j < target)%Z →
         (binary64_index (Z.of_nat (length all_frames)) target (Z.of_nat i)
          < binary64_index (Z.of_nat (length all_frames)) target (Z.of_nat j))%Z)
    ∧ (chronological all_frames → chronological out).
Proof.
  intros Hpos Hlt Hsize. unfold downsample_frames_binary64.
  set (len := Z.of_nat (length all_frames)) in *.
  destruct (target <? len)%Z eqn:E1; [|lia].
  destruct (target =? 0)%Z eqn:E2; [lia|].
  set (f := λ i : Z, py_index all_frames (binary64_index len target i)).
  assert (Hrange : ∀ (i : nat) (z : Z),
             py_range target !! i = Some z ↔ z = Z.of_nat i ∧ (z < target)%Z).
  { intros i z. unfold py_range. rewrite list_lookup_fmap.
    destruct (seq 0 (Z.to_nat target) !! i) as [n|] eqn:Hn; simpl.
    - apply lookup_seq in Hn as [-> Hn]. simpl. split.
      + intros [= <-]. lia.
      + intros [-> _]. done.
    - split; [done|]. intros [-> Hz].
      apply lookup_ge_None in Hn. rewrite length_seq in Hn. lia. }
  assert (Hspec : ∀ i : nat, (Z.of_nat i < target)%Z →
             (Z.of_nat i * len / target - 1 <= binary64_index len target (Z.of_nat i)
              <= Z.of_nat i * len / target)%Z
             ∧ (0 <= binary64_index len target (Z.of_nat i) < len)%Z
             ∧ (((Z.of_nat i * len) mod target)%Z ≠ 0%Z →
                binary64_index len target (Z.of_nat i)
                = (Z.of_nat i * len / target)%Z)).
  { intros i Hi.
    destruct (binary64_index_spec len target (Z.of_nat i)) as (Hb & H0 & Hnd);
      [lia..|].
    pose proof (downsample_index_bound (Z.of_nat i) len target) as Hbound.
    split; [done|]. split; [lia|done]. }
  assert (Hf : ∀ i : nat, (Z.of_nat i < target)%Z →
             ∃ x, f (Z.of_nat i) = Ret x
               ∧ all_frames !! Z.to_nat (binary64_index len target (Z.of_nat i))
                 = Some x).
  { intros i Hi. unfold f. apply py_index_in_range. fold len.
    by destruct (Hspec i Hi) as (_ & ? & _). }
  destruct (omap_list_total f (py_range target)) as (out & Hout & Hlen & Hlook).
  { intros z Hz. apply list_elem_of_lookup in Hz as [i Hi].
    apply Hrange in Hi as [-> Hi]. destruct (Hf i Hi) as (x & Hx & _). eauto. }
  assert (Hget : ∀ i : nat, (Z.of_nat i < target)%Z →
             is_Some (out !! i)
             ∧ out !! i
               = all_frames !! Z.to_nat (binary64_index len target (Z.of_nat i))).
  { intros i Hi.
    destruct (Hlook i (Z.of_nat i)) as (y & Hy & Hyi); [by apply Hrange|].
    destruct (Hf i Hi) as (x & Hx & Hxi).
    rewrite Hx in Hy. inversion Hy; subst. rewrite Hyi, Hxi. eauto. }
  assert (Hinc : ∀ i j : nat, i < j → (Z.of_nat j < target)%Z →
             (binary64_index len target (Z.of_nat i)
              < binary64_index len target (Z.of_nat j))%Z).
  { intros i j Hij Hj. apply binary64_index_increasing; lia. }
  exists out. split; [exact Hout|]. split; [|split; [|split; [exact Hinc|]]].
  - rewrite Hlen. unfold py_range. rewrite length_map, length_seq. lia.
  - intros i Hi. cbn zeta.
    destruct (Hget i Hi) as [Hsome Hidx]. destruct (Hspec i Hi) as (Hb & _ & Hnd).
    split; [exact Hsome|]. split; [exact Hidx|]. split; [exact Hb|exact Hnd].
  - unfold chronological. rewrite !sorted_lookup. intros Hsorted i j a b Hij Ha Hb.
    assert (Hj : (Z.of_nat j < target)%Z).
    { apply lookup_lt_Some in Hb. rewrite Hlen in Hb. unfold py_range in Hb.
      rewrite length_map, length_seq in Hb. lia. }
    destruct (Hget i) as [_ Hi']; [lia|]. destruct (Hget j Hj) as [_ Hj'].
    rewrite Ha in Hi'. rewrite Hb in Hj'.
    eapply (Hsorted (Z.to_nat (binary64_index len target (Z.of_nat i)))
                    (Z.to_nat (binary64_index len target (Z.of_nat j)))); [|done..].
    specialize (Hinc i j Hij Hj).
    destruct (Hspec i) as (_ & ? & _); [lia|]. lia.
Qed.

Lemma downsample_frames_binary64_indices_witness :
  (0 < 3)%Z
  ∧ (3 < Z.of_nat (length [(0, str "a"); (5, str "b"); (10, str "c");
                           (15, str "d"); (20, str "e")]%Q))%Z
  ∧ ∃ out, downsample_frames_binary64
             [(0, str "a"); (5, str "b"); (10, str "c"); (15, str "d"); (20, str "e")]%Q 3
           = Ret out ∧ Z.of_nat (length out) = 3%Z.
Proof.
  split; [lia|]. split; [simpl; lia|].
  destruct (downsample_frames_binary64_indices
              [(0, str "a"); (5, str "b"); (10, str "c"); (15, str "d"); (20, str "e")]%Q 3)
    as (out & Hout & Hlen & _); [lia|simpl; lia|simpl; lia|].
  exists out. by split.
Defined.

(** C3 as stated fails for a target of zero frames: the step of the
    division raises [ZeroDivisionError] instead of returning no frame. *)
Lemma downsample_frames_zero_target :
  ¬ ∃ out, downsample_frames_binary64 [(0%Q, str "frame_0001.jpg")] 0 = Ret out
           ∧ Z.of_nat (length out) = 0%Z.
Proof. intros (out & Hout & _). vm_compute in Hout. discriminate Hout. Qed.

(** It fails for the index as well: of 565 frames with a target of 500, the
    frame picked for [i = 100] is the one at index 112, where
    [floor (100 * 565 / 500)] is 113; the binary64 quotient [565 / 500] is
    just below 1.13. *)
Example binary64_index_below_floor :
  binary64_index 565 500 100 = 112%Z ∧ (100 * 565 / 500)%Z = 113%Z.
Proof. split; by vm_compute. Qed.

(** ** Temporal aligner *)


Lemma find_first {A : Type} (P : A → bool) (l : list A) :
  match find P l with
  | Some x => ∃ pre post, l = pre ++ x :: post
                ∧ Forall (λ y, P y = false) pre ∧ P x = true
  | None => Forall (λ y, P y = false) l
  end.
Proof.
  induction l as [|a l IH]; simpl; [constructor|].
  destruct (P a) eqn:Ea.
  - exists [], l. by repeat split.
  - destruct (find P l) as [x|].
    + destruct IH as (pre & post & -> & Hpre & Hx).
      exists (a :: pre), post. repeat split; [|done]. by constructor.
    + by constructor.
Qed.

Lemma closest_step_some (T : Q) (c x : TranscriptSegment) (d : Q) :
  closest_step T (Some c, Some d) x
  = if Qle_bool d (start_distance T x) then (Some c, Some d)
    else (Some x, Some (start_distance T x)).
Proof.
  unfold closest_step, start_distance. cbn [snd].
  by destruct (Qle_bool _ _).
Qed.

Lemma closest_step_none (T : Q) (o : option TranscriptSegment) (x : TranscriptSegment) :
  closest_step T (o, None) x = (Some x, Some (start_distance T x)).
Proof. reflexivity. Qed.

Lemma closest_fold (T : Q) (l : list TranscriptSegment) (c : TranscriptSegment) :
  ∃ s, fold_left (closest_step T) l (Some c, Some (start_distance T c))
       = (Some s, Some (start_distance T s))
    ∧ ((s = c ∧ Forall (λ x, (start_distance T c <= start_distance T x)%Q) l)
       ∨ (∃ pre post, l = pre ++ s :: post
            ∧ Forall (λ x, (start_distance T s < start_distance T x)%Q) pre
            ∧ (start_distance T s < start_distance T c)%Q
            ∧ Forall (λ x, (start_distance T s <= start_distance T x)%Q) post)).
Proof.
  revert c. induction l as [|x l IH]; intros c.
  - exists c. split; [done|]. left. by split.
  - cbn [fold_left]. rewrite closest_step_some.
    destruct (Qle_bool (start_distance T c) (start_distance T x)) eqn:E.
    + apply Qle_bool_true in E.
      destruct (IH c) as (s & Hs & [[-> Hall]|(pre & post & -> & Hpre & Hlt & Hpost)]).
      * exists c. split; [done|]. left. split; [done|]. by constructor.
      * exists s. split; [done|]. right. exists (x :: pre), post.
        repeat split; try done. constructor; [lra|done].
    + apply Qle_bool_false in E.
      destruct (IH x) as (s & Hs & [[-> Hall]|(pre & post & -> & Hpre & Hlt & Hpost)]).
      * exists x. split; [done|]. right. exists [], l. repeat split; try done.
      * exists s. split; [done|]. right. exists (x :: pre), post.
        repeat split; try done; [|lra]. by constructor.
Qed.


(** ** Alignment tolerance and the end-to-end scenario *)

Section scenarios.

Local Open Scope Q_scope.

(** A frame at [T] with the only segment starting 9.9 seconds later is
    linked to that segment. *)
Lemma alignment_within_tolerance (T : Q) (s : TranscriptSegment) :
  start_seconds s == T + (99 # 10) →
  find_transcript_segment T [s] = segment_link s.
Proof.
  intros Hs. unfold find_transcript_segment. cbn [find].
  assert (Henc : encloses T s = false).
  { unfold encloses. rewrite (proj2 (Qle_bool_false (start_seconds s) T)); [done|].
    rewrite Hs. lra. }
  rewrite Henc. cbn [fold_left]. rewrite closest_step_none.
  assert (Hd : start_distance T s < 10).
  { unfold start_distance. apply Qabs_case; intros; rewrite Hs in *; lra. }
  by rewrite (proj2 (Qle_bool_false 10 _) Hd).
Qed.

(** With the only segment starting 10.1 seconds later the frame gets the
    sentinel. *)
Lemma alignment_beyond_tolerance (T : Q) (s : TranscriptSegment) :
  start_seconds s == T + (101 # 10) →
  find_transcript_segment T [s] = (no_transcript, None, None).
Proof.
  intros Hs. unfold find_transcript_segment. cbn [find].
  assert (Henc : encloses T s = false).
  { unfold encloses. rewrite (proj2 (Qle_bool_false (start_seconds s) T)); [done|].
    rewrite Hs. lra. }
  rewrite Henc. cbn [fold_left]. rewrite closest_step_none.
  assert (Hd : 10 <= start_distance T s).
  { unfold start_distance. apply Qabs_case; intros; rewrite Hs in *; lra. }
  by rewrite (proj2 (Qle_bool_true 10 _) Hd).
Qed.

(** Alice speaks from 0 to 3 and Bob from 3 to 7: a frame at 5 is aligned
    to Bob's segment, whose speaker is [speaker_2], and the percentages are
    (the binary64 numbers nearest to) 57.1 for Bob and 42.9 for Alice, Bob
    first. *)
Example alice_and_bob_scenario :
  ∃ segs, parse_srt float_decimal alice_and_bob_srt = Ret segs
    ∧ find_transcript_segment 5 segs
      = (str "Hi Alice, good to see you", Some (str "speaker_2"), Some (str "Bob"))
    ∧ map (λ m, (m_speaker_name m, Qred (talk_time_seconds m), Qred (talk_time_pct m)))
        (metrics_of segs)
      = [(Some (str "Bob"), 4, binary64 (571 # 10));
         (Some (str "Alice"), 3, binary64 (429 # 10))].
Proof. eexists. split; [by vm_compute|]. split; by vm_compute. Qed.

End scenarios.

(** * Further properties of the pipeline *)

(** ** Formatting, then parsing *)

Lemma fmt_02d_digits (z : Z) :
  (0 <= z < 100)%Z →
  digit_field 2 2 (fmt_02d z) ∧ digits_value (fmt_02d z) = z.
Proof.
  intros Hz.
  assert (Hall : forallb (λ k : nat,
             (length (fmt_02d (Z.of_nat k)) =? 2)
             && forallb is_digit (fmt_02d (Z.of_nat k))
             && (digits_value (fmt_02d (Z.of_nat k)) =? Z.of_nat k)%Z)
           (seq 0 100) = true) by (by vm_compute).
  rewrite forallb_forall in Hall.
  specialize (Hall (Z.to_nat z)). rewrite Z2Nat.id in Hall by lia.
  destruct (andb_prop _ _ (Hall ltac:(apply in_seq; lia))) as [H12 H3].
  apply andb_prop in H12 as [H1 H2].
  apply Nat.eqb_eq in H1. apply Z.eqb_eq in H3.
  split; [|done]. split; [lia|done].
Qed.

(** X1. Formatting whole seconds below one hundred hours and parsing the
    result gives the seconds back. *)
Theorem format_then_parse (py_float : pystr → option Q) (n : Z) :
  (0 <= n < 360000)%Z →
  parse_timestamp py_float (seconds_to_timestamp (inject_Z n)) = Ret (inject_Z n).
Proof.
  intros Hn.
  pose proof (Z.div_mod n 3600 ltac:(lia)) as H1.
  pose proof (Z.mod_pos_bound n 3600 ltac:(lia)) as B1.
  pose proof (Z.div_mod (n mod 3600) 60 ltac:(lia)) as H2.
  pose proof (Z.mod_pos_bound (n mod 3600) 60 ltac:(lia)) as B2.
  set (h := (n / 3600)%Z) in *. set (m := (n mod 3600 / 60)%Z) in *.
  set (s := ((n mod 3600) mod 60)%Z) in *.
  assert (Hh : (0 <= h < 100)%Z).
  { split; [apply Z.div_pos; lia|apply Z.div_lt_upper_bound; lia]. }
  assert (Hm : (0 <= m < 60)%Z).
  { split; [apply Z.div_pos; lia|apply Z.div_lt_upper_bound; lia]. }
  assert (Hn' : n = (h * 3600 + m * 60 + s)%Z) by lia.
  rewrite (seconds_to_timestamp_fields h m s 0 (inject_Z n));
    [|lia|done|done|done|done|rewrite <- Hn'; ring].
  destruct (fmt_02d_digits h Hh) as [[Fh1 Fh2] Vh].
  destruct (fmt_02d_digits m ltac:(lia)) as [Fm Vm].
  destruct (fmt_02d_digits s ltac:(lia)) as [Fs Vs].
  change (fmt_02d h ++ str ":" ++ fmt_02d m ++ str ":" ++ fmt_02d s)
    with (fmt_02d h ++ ":"%char :: fmt_02d m ++ ":"%char :: fmt_02d s).
  rewrite parse_hms_exact; [|split; [lia|done]|done|done].
  by rewrite Vh, Vm, Vs, <- Hn'.
Qed.

Lemma format_then_parse_witness :
  (0 <= 3723 < 360000)%Z
  ∧ parse_timestamp float_decimal (seconds_to_timestamp (inject_Z 3723))
    = Ret (inject_Z 3723).
Proof.
  split; [lia|]. apply (format_then_parse float_decimal 3723). lia.
Defined.

(** Beyond one hundred hours the hour field has three digits, which no
    notation accepts: the round trip gives 0. *)
Example format_then_parse_100_hours :
  parse_timestamp float_decimal (seconds_to_timestamp (inject_Z 360000)) = Ret 0%Q.
Proof. by vm_compute. Qed.

(** ** The timeline of the freeform parser *)

Lemma plain_segments_spans (items : list (Q * pystr * option pystr))
    (segs : list TranscriptSegment) (speaker_counter : gmap pystr pystr) :
  map segment_span (plain_segments items segs speaker_counter)
  = map segment_span segs ++ item_spans items.
Proof.
  revert segs speaker_counter.
  induction items as [|[[start txt] sp] rest IH]; intros segs speaker_counter.
  - simpl. by rewrite app_nil_r.
  - cbn [plain_segments item_spans].
    destruct (assign_speaker_id speaker_counter sp) as [counter' sid].
    rewrite IH, map_app, <- app_assoc. done.
Qed.

Lemma item_spans_chained (items : list (Q * pystr * option pystr)) :
  chained (item_spans items).
Proof.
  induction items as [|[[start txt] sp] rest IH]; [by intros [|?] ??|].
  intros [|i] a b Ha Hb; cbn [item_spans] in *.
  - simpl in Ha, Hb. inversion Ha; subst a. cbn [snd].
    destruct rest as [|[[next txt'] sp'] rest']; [done|].
    simpl in Hb. by inversion Hb.
  - by apply (IH i).
Qed.

Lemma item_spans_last (items : list (Q * pystr * option pystr)) (a : Q * Q) :
  last (item_spans items) = Some a → a.2 = (a.1 + 10)%Q.
Proof.
  induction items as [|[[start txt] sp] rest IH]; [done|].
  cbn [item_spans]. destruct rest as [|[[next txt'] sp'] rest'].
  - simpl. by intros [= <-].
  - intros Hl. apply IH. exact Hl.
Qed.

(** X2. The freeform parser lays the segments end to end: every segment
    ends at the start of the next one, and the last segment ends ten
    seconds after its start. *)
Theorem parse_plain_text_timeline (py_float : pystr → option Q) (content : pystr) :
  ∃ segs, parse_plain_text py_float content = Ret segs
    ∧ (∀ (i : nat) (a b : TranscriptSegment),
         segs !! i = Some a → segs !! S i = Some b →
         end_seconds a = start_seconds b)
    ∧ (∀ a, last segs = Some a → end_seconds a = (start_seconds a + 10)%Q).
Proof.
  unfold parse_plain_text.
  destruct (plain_items_return py_float (split_on newline (strip content)))
    as [items ->].
  cbn [obind]. eexists. split; [reflexivity|].
  pose proof (plain_segments_spans items [] ∅) as Hspans.
  cbn [map app] in Hspans.
  set (segs := plain_segments items [] ∅) in *. split.
  - intros i a b Ha Hb.
    apply (item_spans_chained items i (segment_span a) (segment_span b)).
    + by rewrite <- Hspans, list_lookup_fmap, Ha.
    + by rewrite <- Hspans, list_lookup_fmap, Hb.
  - intros a Ha. apply (item_spans_last items (segment_span a)).
    rewrite <- Hspans. change (map segment_span segs) with (segment_span <$> segs).
    by rewrite fmap_last, Ha.
Qed.

(** ** The speaker metrics list *)

Lemma dict_set_keys {V : Type} (k : pystr) (v : V) (d : list (pystr * V)) :
  map fst (dict_set k v d)
  = if bool_decide (k ∈ map fst d) then map fst d else map fst d ++ [k].
Proof.
  induction d as [|[k' v'] d IH]; [done|].
  cbn [dict_set]. destruct (bool_decide_reflect (k' = k)) as [Hk|Hk].
  - subst k'. cbn [map fst]. rewrite bool_decide_true; [done|].
    apply elem_of_cons. by left.
  - cbn [map fst]. rewrite IH. case_bool_decide as Hin.
    + rewrite bool_decide_true; [done|]. apply elem_of_cons. by right.
    + rewrite bool_decide_false; [done|].
      intros [?|?]%elem_of_cons; congruence.
Qed.

Lemma data_fold_keys (turns : list SpeakerSegment)
    (data : list (pystr * speaker_datum)) :
  NoDup (map fst data) →
  NoDup (map fst (fold_left data_step turns data))
  ∧ ∀ k, k ∈ map fst (fold_left data_step turns data)
         ↔ k ∈ map fst data ∨ k ∈ map turn_speaker_id turns.
Proof.
  revert data. induction turns as [|t turns IH]; intros data Hnd.
  - simpl. split; [done|]. intros k. rewrite elem_of_nil. tauto.
  - cbn [fold_left].
    assert (Hkeys : map fst (data_step data t)
                    = if bool_decide (turn_speaker_id t ∈ map fst data)
                      then map fst data
                      else map fst data ++ [turn_speaker_id t]).
    { unfold data_step. apply dict_set_keys. }
    destruct (IH (data_step data t)) as [Hnd' Hin'].
    { rewrite Hkeys. case_bool_decide as Hin; [done|].
      apply NoDup_app. repeat split; [done| |apply NoDup_singleton].
      intros x Hx Hx'. apply list_elem_of_singleton in Hx'. by subst. }
    split; [done|]. intros k. rewrite Hin', Hkeys. cbn [map].
    rewrite elem_of_cons. case_bool_decide as Hin.
    + split; [tauto|]. intros [?|[->|?]]; tauto.
    + rewrite elem_of_app, list_elem_of_singleton. tauto.
Qed.

Lemma make_metrics_ids (T : Q) (data : list (pystr * speaker_datum)) :
  map m_speaker_id (map (make_metrics T) data) = map fst data.
Proof. rewrite map_map. apply map_ext. by intros [k d]. Qed.

Lemma by_talk_time_desc_total (x y : SpeakerMetrics) :
  by_talk_time_desc x y = true ∨ by_talk_time_desc y x = true.
Proof.
  unfold by_talk_time_desc. rewrite !Qle_bool_true.
  destruct (Qlt_le_dec (talk_time_seconds x) (talk_time_seconds y)); [right; lra|by left].
Qed.

Lemma by_talk_time_desc_trans (x y z : SpeakerMetrics) :
  by_talk_time_desc x y = true → by_talk_time_desc y z = true →
  by_talk_time_desc x z = true.
Proof. unfold by_talk_time_desc. rewrite !Qle_bool_true. lra. Qed.

(** X3. The metrics list has exactly one entry for each speaker id that
    occurs among the turns, and it is sorted by the rounded talk time, the
    largest first. *)
Theorem speaker_metrics_one_per_speaker (segments : list TranscriptSegment) :
  let '(metrics, turns, _) := compute_speaker_metrics segments in
  NoDup (map m_speaker_id metrics)
  ∧ (∀ id, id ∈ map m_speaker_id metrics ↔ id ∈ map turn_speaker_id turns)
  ∧ StronglySorted (λ a b, (talk_time_seconds b <= talk_time_seconds a)%Q) metrics.
Proof.
  unfold compute_speaker_metrics.
  destruct segments as [|y l].
  { cbn. repeat split; try constructor; done. }
  cbn [truthy negb].
  set (turns := consolidate (y :: l)).
  set (data := fold_left data_step turns []).
  set (T := Qsum _).
  destruct (data_fold_keys turns [] (NoDup_nil_2)) as [Hnd Hin].
  fold data in Hnd, Hin.
  assert (Hperm : map m_speaker_id (stable_sort by_talk_time_desc
                                      (map (make_metrics T) data))
                  ≡ₚ map fst data).
  { rewrite <- (make_metrics_ids T). apply Permutation_map, stable_sort_perm. }
  split; [by rewrite Hperm|]. split.
  - intros id. rewrite Hperm, Hin. cbn [map]. rewrite elem_of_nil. tauto.
  - eapply StronglySorted_weaken;
      [|apply stable_sort_sorted;
         [apply by_talk_time_desc_total|apply by_talk_time_desc_trans]].
    intros a b Hab. by apply Qle_bool_true.
Qed.

(** ** Conservation of the totals *)

Section conservation.

Local Open Scope Q_scope.

Lemma dict_set_Qsum {V : Type} (f : V → Q) (k : pystr) (v : V)
    (d : list (pystr * V)) :
  Qsum (map (λ kv, f kv.2) (dict_set k v d))
    + from_option f 0 (dict_get k d)
  == Qsum (map (λ kv, f kv.2) d) + f v.
Proof.
  induction d as [|[k' v'] d IH].
  - cbn. unfold Qsum. simpl. lra.
  - cbn [dict_set dict_get map]. case_bool_decide.
    + cbn [map from_option snd]. rewrite !Qsum_cons. cbn [snd]. lra.
    + cbn [map]. rewrite !Qsum_cons. cbn [snd]. lra.
Qed.

Lemma data_step_talk_time (data : list (pystr * speaker_datum)) (seg : SpeakerSegment) :
  Qsum (map (λ kv, d_talk_time kv.2) (data_step data seg))
  == Qsum (map (λ kv, d_talk_time kv.2) data)
     + (turn_end_seconds seg - turn_start_seconds seg).
Proof.
  unfold data_step.
  destruct (dict_get (turn_speaker_id seg) data) as [d|] eqn:E;
    match goal with
    | |- context [dict_set ?k ?v ?d] =>
        pose proof (dict_set_Qsum d_talk_time k v d) as H
    end;
    rewrite E in H; cbn [from_option d_talk_time] in *; lra.
Qed.

Lemma data_fold_talk_time (turns : list SpeakerSegment)
    (data : list (pystr * speaker_datum)) :
  Qsum (map (λ kv, d_talk_time kv.2) (fold_left data_step turns data))
  == Qsum (map (λ kv, d_talk_time kv.2) data)
     + Qsum (map (λ t, turn_end_seconds t - turn_start_seconds t) turns).
Proof.
  revert data. induction turns as [|t turns IH]; intros data.
  - cbn [fold_left map]. change (Qsum []) with 0. lra.
  - cbn [fold_left map]. rewrite IH, data_step_talk_time, Qsum_cons. lra.
Qed.

End conservation.

Lemma data_step_words (data : list (pystr * speaker_datum)) (seg : SpeakerSegment) :
  sum_list (map (λ kv, d_word_count kv.2) (data_step data seg))
  = sum_list (map (λ kv, d_word_count kv.2) data) + turn_word_count seg.
Proof.
  unfold data_step.
  destruct (dict_get (turn_speaker_id seg) data) as [d|] eqn:E;
    match goal with
    | |- context [dict_set ?k ?v ?d] =>
        pose proof (dict_set_sum d_word_count k v d) as H
    end;
    rewrite E in H; cbn [from_option d_word_count] in *; lia.
Qed.

Lemma data_fold_words (turns : list SpeakerSegment)
    (data : list (pystr * speaker_datum)) :
  sum_list (map (λ kv, d_word_count kv.2) (fold_left data_step turns data))
  = sum_list (map (λ kv, d_word_count kv.2) data)
    + sum_list (map turn_word_count turns).
Proof.
  revert data. induction turns as [|t turns IH]; intros data; simpl; [lia|].
  rewrite IH, data_step_words. lia.
Qed.

Lemma make_metrics_words (T : Q) (data : list (pystr * speaker_datum)) :
  map m_word_count (map (make_metrics T) data) = map (λ kv, d_word_count kv.2) data.
Proof. rewrite map_map. apply map_ext. by intros [k d]. Qed.

Lemma metrics_words_turns (segments : list TranscriptSegment) :
  nat_sum (map m_word_count (metrics_of segments))
  = nat_sum (map turn_word_count (consolidate segments)).
Proof.
  unfold metrics_of, compute_speaker_metrics.
  destruct segments as [|y l]; [done|]. cbn [truthy negb fst snd].
  rewrite !nat_sum_sum_list.
  rewrite (sum_list_permutation _ _
             (Permutation_map m_word_count (stable_sort_perm _ _))).
  rewrite make_metrics_words, data_fold_words. done.
Qed.

(** X4. The aggregation per speaker loses no talk time: the total talk time,
    summed over the speakers, is the sum of the durations of the turns,
    whatever the order of the turns and the number of speakers. *)
Theorem total_talk_time_conserved (segments : list TranscriptSegment) :
  (total_talk_time segments
   == Qsum (map (λ t, turn_end_seconds t - turn_start_seconds t)
              (consolidate segments)))%Q.
Proof.
  unfold total_talk_time.
  generalize (consolidate segments) as turns. intros turns.
  rewrite data_fold_talk_time.
  change (Qsum (map (λ kv, d_talk_time kv.2) [])) with 0%Q. lra.
Qed.

(** ** Turns are the maximal runs of one speaker *)

Lemma runs_cons_head (seg : TranscriptSegment) (rest : list TranscriptSegment) :
  ∃ run others, runs (seg :: rest) = (seg :: run) :: others.
Proof.
  cbn [runs]. destruct (runs rest) as [|[|next run] others]; eauto.
  case_bool_decide; eauto.
Qed.

Lemma runs_uniform (c : pystr) (run : list TranscriptSegment) :
  run_of c run → runs run = [run].
Proof.
  intros [Hne Hall]. induction Hall as [|seg run Hseg Hall IH]; [done|].
  destruct run as [|next run]; [done|].
  cbn [runs]. cbn [runs] in IH. rewrite IH by done.
  apply Forall_cons_1 in Hall as [Hnext _].
  rewrite bool_decide_true by congruence. done.
Qed.

Lemma runs_break (c : pystr) (run : list TranscriptSegment)
    (seg : TranscriptSegment) (rest : list TranscriptSegment) :
  run_of c run → resolved_speaker seg ≠ c →
  runs (run ++ seg :: rest) = run :: runs (seg :: rest).
Proof.
  intros [Hne Hall] Hseg. induction Hall as [|a run Ha Hall IH]; [done|].
  destruct run as [|b run].
  - cbn [app]. destruct (runs_cons_head seg rest) as (r & o & E).
    cbn [runs] in E |- *. rewrite E.
    rewrite bool_decide_false by congruence. done.
  - specialize (IH ltac:(done)).
    change ((a :: b :: run) ++ seg :: rest)
      with (a :: ((b :: run) ++ seg :: rest)).
    cbn [runs]. cbn [runs] in IH. rewrite IH.
    apply Forall_cons_1 in Hall as [Hb _].
    rewrite bool_decide_true by congruence. done.
Qed.

Lemma open_run_turn (c : pystr) (run : list TranscriptSegment) (st : consolidation) :
  open_run c run st →
  truthy (current_text_parts st) = true
  ∧ mkTurn (or_unknown (current_speaker st)) (current_speaker_name st)
      (current_start st) (current_end st)
      (join (str " ") (current_text_parts st))
      (word_count_of (join (str " ") (current_text_parts st)))
    = turn_of_run run.
Proof.
  intros ([Hne Hall] & Hc & -> & -> & -> & -> & ->).
  destruct run as [|seg run]; [done|]. split; [done|].
  unfold turn_of_run. cbn [head from_option].
  apply Forall_cons_1 in Hall as [Hseg _]. rewrite Hseg.
  cbn [or_unknown]. by rewrite Hc.
Qed.

Lemma consolidate_open_run (rest : list TranscriptSegment) :
  ∀ (c : pystr) (run : list TranscriptSegment) (st : consolidation),
    open_run c run st →
    consolidate_finish (fold_left consolidate_step rest st)
    = speaker_segments st ++ map turn_of_run (runs (run ++ rest)).
Proof.
  induction rest as [|seg rest IH]; intros c run st Hst.
  - cbn [fold_left]. rewrite app_nil_r.
    destruct (open_run_turn c run st Hst) as [Hparts Hturn].
    unfold consolidate_finish. rewrite Hparts.
    destruct Hst as (Hrun & Hc & Hcur & Hst).
    rewrite (runs_uniform c run Hrun). cbn [map]. rewrite <- Hturn.
    rewrite Hcur. cbn [truthy_opt or_unknown]. by rewrite Hc.
  - cbn [fold_left].
    destruct (open_run_turn c run st Hst) as [Hparts Hturn].
    destruct Hst as (Hrun & Hc & Hcur & Hname & Hstart & Hend & Htexts).
    destruct (decide (resolved_speaker seg = c)) as [Heq|Hne].
    + assert (Hstep : consolidate_step st seg
                      = mkCons (current_speaker st) (current_speaker_name st)
                          (current_start st) (end_seconds seg)
                          (current_text_parts st ++ [text seg])
                          (speaker_segments st)).
      { unfold consolidate_step. fold (resolved_speaker seg).
        rewrite bool_decide_false; [done|]. rewrite Hcur, Heq. tauto. }
      rewrite Hstep, (IH c (run ++ [seg])).
      * cbn [speaker_segments]. by rewrite <- app_assoc.
      * destruct Hrun as [Hrne Hall]. repeat split; cbn; try done.
        -- by destruct run.
        -- apply Forall_app. split; [done|]. by constructor.
        -- rewrite Hname. by destruct run.
        -- rewrite Hstart. by destruct run.
        -- by rewrite last_snoc.
        -- by rewrite Htexts, map_app.
    + assert (Hstep : consolidate_step st seg
                      = mkCons (Some (resolved_speaker seg)) (speaker_name seg)
                          (start_seconds seg) (end_seconds seg) [text seg]
                          (speaker_segments st ++ [turn_of_run run])).
      { unfold consolidate_step. fold (resolved_speaker seg).
        rewrite bool_decide_true by (rewrite Hcur; congruence).
        by rewrite Hparts, Hturn. }
      rewrite Hstep, (IH (resolved_speaker seg) [seg]).
      * cbn [speaker_segments].
        rewrite (runs_break c run seg rest Hrun Hne).
        cbn [map app]. by rewrite <- app_assoc.
      * repeat split; cbn; try done.
        -- by repeat constructor.
        -- apply or_unknown_truthy.
Qed.

Lemma consolidate_as_runs (segments : list TranscriptSegment) :
  consolidate segments = map turn_of_run (runs segments).
Proof.
  destruct segments as [|seg rest]; [done|].
  unfold consolidate. cbn [fold_left].
  rewrite (consolidate_open_run rest (resolved_speaker seg) [seg]).
  - done.
  - unfold consolidate_step. cbn.
    repeat split; try done.
    + by repeat constructor.
    + apply or_unknown_truthy.
Qed.

Lemma runs_concat (segments : list TranscriptSegment) :
  concat (runs segments) = segments.
Proof.
  induction segments as [|seg rest IH]; [done|].
  cbn [runs]. destruct (runs rest) as [|[|next run] others] eqn:E.
  - cbn in IH. by subst.
  - destruct rest as [|a rest']; [done|].
    destruct (runs_cons_head a rest') as (r & o & E'). congruence.
  - case_bool_decide; cbn [concat app] in *; by rewrite ?IH.
Qed.

Lemma runs_run_of (segments : list TranscriptSegment) :
  Forall (λ run, ∃ c, run_of c run) (runs segments).
Proof.
  induction segments as [|seg rest IH]; [constructor|].
  cbn [runs]. destruct (runs rest) as [|[|next run] others] eqn:E.
  - repeat constructor. exists (resolved_speaker seg).
    split; [done|]. by repeat constructor.
  - repeat constructor. exists (resolved_speaker seg).
    split; [done|]. by repeat constructor.
  - apply Forall_cons_1 in IH as [(c & Hne & Hall) IH].
    case_bool_decide as Hsame.
    + constructor; [|done]. exists c. split; [done|].
      constructor; [|done]. apply Forall_cons_1 in Hall as [Hnext _]. congruence.
    + constructor; [|constructor; [|done]].
      * exists (resolved_speaker seg). split; [done|]. by repeat constructor.
      * exists c. by split.
Qed.

(** X5. The turns are the maximal runs of consecutive segments of one
    speaker: cutting the transcript into such runs and turning each run into
    one turn (speaker and start of the first segment, end of the last, texts
    joined by spaces) gives the list of turns of the source's loop.  The runs
    are non-empty, have one speaker each, and together are the transcript. *)
Theorem consolidate_maximal_runs (segments : list TranscriptSegment) :
  consolidate segments = map turn_of_run (runs segments)
  ∧ concat (runs segments) = segments
  ∧ Forall (λ run, ∃ c, run_of c run) (runs segments).
Proof.
  split; [apply consolidate_as_runs|].
  split; [apply runs_concat|apply runs_run_of].
Qed.

(** ** Word counts *)

Lemma words_go_space (a b w : pystr) :
  length (words_go w (a ++ str " " ++ b))
  = length (words_go w a) + length (words_go [] b).
Proof.
  revert w. induction a as [|c a IH]; intros w.
  - change ([] ++ str " " ++ b) with (" "%char :: b). cbn [words_go].
    change (is_space " ") with true. cbn iota. by destruct w.
  - change ((c :: a) ++ str " " ++ b) with (c :: (a ++ str " " ++ b)).
    cbn [words_go]. destruct (is_space c).
    + destruct w; cbn [length]; by rewrite IH.
    + apply IH.
Qed.

Lemma word_count_of_join (parts : list pystr) :
  word_count_of (join (str " ") parts) = sum_list (map word_count_of parts).
Proof.
  induction parts as [|x parts IH]; [done|].
  destruct parts as [|y parts].
  - cbn [join map]. unfold sum_list. cbn [sum_list_with id]. lia.
  - change (join (str " ") (x :: y :: parts))
      with (x ++ str " " ++ join (str " ") (y :: parts)).
    unfold word_count_of, split_ws in *. rewrite words_go_space, IH. done.
Qed.

Lemma turns_of_runs_words (rs : list (list TranscriptSegment)) :
  sum_list (map turn_word_count (map turn_of_run rs))
  = sum_list (map (λ seg, word_count_of (text seg)) (concat rs)).
Proof.
  induction rs as [|run rs IH]; [done|].
  cbn [map concat]. rewrite map_app, sum_list_with_app, <- IH.
  simpl sum_list_with at 1. f_equal. unfold id.
  cbn [turn_of_run turn_word_count].
  by rewrite word_count_of_join, map_map.
Qed.

(** X6. The word counts of the speaker metrics add up to the number of
    words of the transcript: joining the texts of a turn with spaces and
    counting again neither loses nor invents a word. *)
Theorem metrics_word_total (segments : list TranscriptSegment) :
  nat_sum (map m_word_count (metrics_of segments))
  = nat_sum (map (λ seg, word_count_of (text seg)) segments).
Proof.
  rewrite metrics_words_turns, !nat_sum_sum_list.
  rewrite consolidate_as_runs, turns_of_runs_words.
  by rewrite runs_concat.
Qed.

(** ** What the frame merge drops *)

Lemma merge_sweep_covers (min_gap : Q) (l : list frame) :
  StronglySorted (λ a b : frame, (a.1 <= b.1)%Q) l →
  ∀ (last_time : Q) (f : frame), f ∈ l →
    f ∈ merge_sweep min_gap last_time l
    ∨ (∃ k, k ∈ merge_sweep min_gap last_time l ∧ covered_by min_gap f k)
    ∨ (f.1 - last_time < min_gap)%Q.
Proof.
  induction 1 as [|[t fn] l Hsorted IH Hhead]; intros last_time f Hf.
  { by apply elem_of_nil in Hf. }
  cbn [merge_sweep].
  destruct (Qle_bool min_gap (t - last_time)) eqn:E.
  - apply elem_of_cons in Hf as [->|Hf]; [left; left|].
    destruct (IH t f Hf) as [Hin|[(k & Hk & Hcov)|Hclose]].
    + left. by right.
    + right. left. exists k. split; [by right|done].
    + right. left. exists (t, fn). split; [left|].
      split; [|done]. rewrite Forall_forall in Hhead. by apply (Hhead f).
  - apply Qle_bool_false in E.
    apply elem_of_cons in Hf as [->|Hf]; [by right; right|].
    apply IH, Hf.
Qed.

(** X7. The merge drops a candidate frame only for being too close to a
    frame it keeps: every candidate with a non-negative timestamp is kept
    itself, or lies less than [min_gap] after a kept frame. *)
Theorem merge_frames_coverage (baseline scene_changes : list frame)
    (min_gap : Q) (f : frame) :
  f ∈ baseline ++ scene_changes → (0 <= f.1)%Q →
  f ∈ merge_frames baseline scene_changes min_gap
  ∨ ∃ k, k ∈ merge_frames baseline scene_changes min_gap ∧ covered_by min_gap f k.
Proof.
  intros Hf Hpos. unfold merge_frames.
  destruct (merge_sweep_covers min_gap
              (stable_sort by_timestamp (baseline ++ scene_changes))
              (sorted_frames_chronological _) (- min_gap) f)
    as [Hin|[Hcov|Hclose]]; [|by left|by right|lra].
  by rewrite stable_sort_perm.
Qed.

Lemma merge_frames_coverage_witness :
  (31%Q, str "scene_0001.jpg") ∈ sample_baseline ++ sample_scene_changes
  ∧ (0 <= 31)%Q
  ∧ ((31%Q, str "scene_0001.jpg") ∈ merge_frames sample_baseline sample_scene_changes 5
     ∨ ∃ k, k ∈ merge_frames sample_baseline sample_scene_changes 5
            ∧ covered_by 5 (31%Q, str "scene_0001.jpg") k).
Proof.
  assert (Hin : (31%Q, str "scene_0001.jpg") ∈ sample_baseline ++ sample_scene_changes).
  { unfold sample_baseline, sample_scene_changes. cbn [app].
    do 4 apply list_elem_of_further. apply list_elem_of_here. }
  assert (Hpos : (0 <= 31)%Q) by lra.
  split; [exact Hin|]. split; [exact Hpos|].
  exact (merge_frames_coverage sample_baseline sample_scene_changes 5
           (31%Q, str "scene_0001.jpg") Hin Hpos).
Defined.

(** ** Every outcome of the downsampling step *)

(** X8. The downsampling step has three outcomes and no other: with more
    frames than a target of zero it raises [ZeroDivisionError]; otherwise it
    returns, never failing on an index: all frames when there are no more
    than [target], exactly [target] of them when there are more, and no
    frame at all for a negative target.  Every returned frame is a frame of
    the input. *)
Theorem downsample_frames_outcome (all_frames : list frame) (target : Z) :
  let len := Z.of_nat (length all_frames) in
  (target = 0%Z ∧ all_frames ≠ []
   ∧ downsample_frames all_frames target = Raise ZeroDivisionError)
  ∨ ((target ≠ 0%Z ∨ all_frames = [])
     ∧ ∃ out, downsample_frames all_frames target = Ret out
         ∧ Z.of_nat (length out) = Z.min len (Z.max 0 target)
         ∧ (∀ f, f ∈ out → f ∈ all_frames)
         ∧ ((len <= target)%Z → out = all_frames)).
Proof.
  intros len. unfold downsample_frames. fold len.
  destruct (target <? len)%Z eqn:E1.
  - apply Z.ltb_lt in E1. destruct (target =? 0)%Z eqn:E2.
    + apply Z.eqb_eq in E2. left. repeat split; [done|].
      intros ->. subst len. simpl in E1. lia.
    + apply Z.eqb_neq in E2. right. split; [by left|].
      set (f := λ i : Z, py_index all_frames
                  (py_trunc (inject_Z i * (inject_Z len / inject_Z target)))).
      destruct (Z_lt_le_dec target 0) as [Hneg|Hpos].
      * exists []. unfold py_range.
        replace (Z.to_nat target) with 0 by lia. cbn.
        repeat split; [lia| |lia].
        intros x Hx. by apply elem_of_nil in Hx.
      * assert (Hf : ∀ z, z ∈ py_range target →
                  ∃ x, f z = Ret x ∧ x ∈ all_frames).
        { intros z Hz. unfold py_range in Hz.
          apply list_elem_of_fmap in Hz as (n & -> & Hn).
          apply elem_of_seq in Hn. unfold f.
          rewrite downsample_index by lia.
          destruct (py_index_in_range all_frames
                      (Z.of_nat n * len / target)) as (x & Hx & Hlook).
          { fold len. apply downsample_index_bound; lia. }
          exists x. split; [done|]. by eapply list_elem_of_lookup_2. }
        destruct (omap_list_total f (py_range target)) as (out & Hout & Hlen & Hlook).
        { intros z Hz. destruct (Hf z Hz) as (x & Hx & _). eauto. }
        exists out. split; [exact Hout|]. split; [|split; [|lia]].
        -- rewrite Hlen. unfold py_range. rewrite length_map, length_seq. lia.
        -- intros x Hx. apply list_elem_of_lookup in Hx as [i Hi].
           assert (Hi' : is_Some (py_range target !! i)).
           { apply lookup_lt_is_Some. rewrite <- Hlen.
             by eapply lookup_lt_Some. }
           destruct Hi' as [z Hz].
           destruct (Hlook i z Hz) as (y & Hy & Hyi).
           destruct (Hf z) as (x' & Hx' & Hin); [by eapply list_elem_of_lookup_2|].
           congruence.
  - apply Z.ltb_ge in E1. right. split.
    + destruct all_frames; [by right|left]. subst len. simpl in E1. lia.
    + exists all_frames. repeat split; [lia|done].
Qed.

(** ** Range of the percentages *)

Section percentages.

Local Open Scope Q_scope.

Lemma metrics_pct_range (segments : list TranscriptSegment) :
  Forall (λ t, turn_start_seconds t <= turn_end_seconds t) (consolidate segments) →
  Forall (λ m, 0 <= talk_time_pct m <= 100) (metrics_of segments).
Proof.
  intros Hturns. destruct segments as [|y l]; [constructor|].
  rewrite metrics_of_nonempty.
  set (T := total_talk_time (y :: l)).
  pose proof (data_fold_talk_nonneg _ Hturns [] (Forall_nil_2 _)) as Hdata.
  assert (Hsum : Forall (λ x, 0 <= x)
                   (map (λ kv, d_talk_time kv.2)
                      (fold_left data_step (consolidate (y :: l)) []))).
  { by apply Forall_fmap. }
  apply Qsum_member in Hsum as [_ Hmem]. fold (total_talk_time (y :: l)) in Hmem.
  fold T in Hmem.
  rewrite stable_sort_perm. apply Forall_fmap.
  rewrite Forall_forall in Hdata. apply Forall_forall. intros [k d] Hkd.
  cbn [make_metrics talk_time_pct compose]. apply py_round_1_range.
  destruct (Qpos_bool T) eqn:E; [|lra].
  apply share_range; [|by apply Qpos_bool_true]. split.
  - apply (Hdata (k, d) Hkd).
  - apply Hmem. apply list_elem_of_fmap. by exists (k, d).
Qed.

End percentages.

Lemma timeline_runs (rs : list (list TranscriptSegment)) :
  timeline (concat rs) → Forall timeline rs.
Proof.
  induction rs as [|run rs IH]; [constructor|].
  cbn [concat]. intros [Hall Hsorted].
  apply Forall_app in Hall as [Hrun Hrest].
  apply StronglySorted_app in Hsorted as (_ & Hsrun & Hsrest).
  constructor; [by split|]. apply IH. by split.
Qed.

Lemma timeline_span (run : list TranscriptSegment) :
  timeline run → run ≠ [] →
  (from_option start_seconds 0 (head run)
   <= from_option end_seconds 0 (last run))%Q.
Proof.
  intros [Hall Hsorted] Hne.
  destruct run as [|a run]; [done|]. cbn [head from_option].
  destruct (last (a :: run)) as [b|] eqn:Hlast; [|by rewrite last_cons in Hlast; destruct (last run)].
  cbn [from_option].
  assert (Hb : b ∈ a :: run).
  { apply last_Some_elem_of in Hlast. done. }
  rewrite Forall_forall in Hall. specialize (Hall b Hb). cbn beta in Hall.
  apply elem_of_cons in Hb as [->|Hb]; [done|].
  apply StronglySorted_inv in Hsorted as [_ Hhead].
  rewrite Forall_forall in Hhead. specialize (Hhead b Hb). cbn beta in Hhead.
  lra.
Qed.

(** X9. On a timeline (no segment ends before it starts, segments in the
    order of their start times) no turn ends before it starts, and every
    speaker's [talk_time_pct] lies between 0 and 100. *)
Theorem talk_time_pct_range (segments : list TranscriptSegment) :
  timeline segments →
  Forall (λ t, (turn_start_seconds t <= turn_end_seconds t)%Q)
    (consolidate segments)
  ∧ Forall (λ m, (0 <= talk_time_pct m <= 100)%Q) (metrics_of segments).
Proof.
  intros Htl.
  assert (Hturns : Forall (λ t, (turn_start_seconds t <= turn_end_seconds t)%Q)
                     (consolidate segments)).
  { rewrite consolidate_as_runs. apply Forall_fmap.
    rewrite <- (runs_concat segments) in Htl. apply timeline_runs in Htl.
    pose proof (runs_run_of segments) as Hruns.
    rewrite Forall_forall in Htl, Hruns. apply Forall_forall. intros run Hrun.
    destruct (Hruns run Hrun) as (c & Hne & _).
    cbn [compose turn_of_run turn_start_seconds turn_end_seconds].
    by apply timeline_span; [apply Htl|]. }
  split; [exact Hturns|]. by apply metrics_pct_range.
Qed.

Lemma talk_time_pct_range_witness :
  timeline alice_and_bob
  ∧ Forall (λ m, (0 <= talk_time_pct m <= 100)%Q) (metrics_of alice_and_bob).
Proof.
  assert (H : timeline alice_and_bob).
  { split.
    - repeat constructor; cbn; lra.
    - repeat constructor; cbn; lra. }
  split; [exact H|]. exact (proj2 (talk_time_pct_range alice_and_bob H)).
Defined.

(** ** The frame merge is idempotent *)

Lemma stable_sort_sorted_id {A : Type} (before : A → A → bool) (l : list A) :
  StronglySorted (λ a b, before a b = true) l → stable_sort before l = l.
Proof.
  induction 1 as [|x l Hl IH Hx]; [done|].
  unfold stable_sort in *. cbn [foldr]. rewrite IH.
  destruct l as [|y l]; [done|]. cbn [sort_insert].
  apply Forall_cons_1 in Hx as [-> _]. done.
Qed.

Lemma spaced_tail (gap : Q) (x : frame) (l : list frame) :
  spaced gap (x :: l) → spaced gap l.
Proof. intros H i a b Ha Hb. by apply (H (S i) a b). Qed.

Lemma merge_sweep_fixed (min_gap : Q) (l : list frame) :
  ∀ last_time : Q,
    spaced min_gap l →
    (∀ b, head l = Some b → (min_gap <= b.1 - last_time)%Q) →
    merge_sweep min_gap last_time l = l.
Proof.
  induction l as [|[t f] l IH]; intros last_time Hsp Hhd; [done|].
  cbn [merge_sweep].
  assert (E : Qle_bool min_gap (t - last_time) = true).
  { apply Qle_bool_true. by apply (Hhd (t, f)). }
  rewrite E. f_equal. apply IH; [by eapply spaced_tail|].
  intros b Hb. apply (Hsp 0 (t, f) b); [done|]. by destruct l; simplify_eq/=.
Qed.

Lemma chronological_sorted_id (l : list frame) :
  chronological l → stable_sort by_timestamp l = l.
Proof.
  intros Hl. apply stable_sort_sorted_id.
  eapply StronglySorted_weaken; [|exact Hl].
  intros a b Hab. by apply Qle_bool_true.
Qed.

(** X10. A frame list that is already in order, spaced by [min_gap] and
    does not start before time 0 goes through the merge unchanged. *)
Theorem merge_frames_fixed_point (l : list frame) (min_gap : Q) :
  chronological l → spaced min_gap l →
  (∀ b, head l = Some b → (0 <= b.1)%Q) →
  merge_frames l [] min_gap = l.
Proof.
  intros Hl Hsp Hhd. unfold merge_frames. rewrite app_nil_r.
  rewrite chronological_sorted_id by done.
  apply merge_sweep_fixed; [done|].
  intros b Hb. specialize (Hhd b Hb). lra.
Qed.

Lemma merge_frames_fixed_point_witness :
  chronological sample_baseline ∧ spaced 2 sample_baseline
  ∧ (∀ b, head sample_baseline = Some b → (0 <= b.1)%Q)
  ∧ merge_frames sample_baseline [] 2 = sample_baseline.
Proof.
  assert (H1 : chronological sample_baseline).
  { unfold chronological, sample_baseline.
    repeat (constructor; [|repeat (constructor; [cbn; lra|]); constructor]).
    constructor. }
  assert (H2 : spaced 2 sample_baseline).
  { intros i a b Ha Hb. unfold sample_baseline in *.
    do 4 (destruct i as [|i]; [simplify_eq/=; lra|]). done. }
  assert (H3 : ∀ b, head sample_baseline = Some b → (0 <= b.1)%Q).
  { intros b [= <-]. cbn. lra. }
  split; [exact H1|]. split; [exact H2|]. split; [exact H3|].
  exact (merge_frames_fixed_point sample_baseline 2 H1 H2 H3).
Defined.

(** X11. Merging is idempotent: merging the result of a merge again, with
    the same gap and nothing added, changes nothing. *)
Theorem merge_frames_idempotent (baseline scene_changes : list frame) (min_gap : Q) :
  merge_frames (merge_frames baseline scene_changes min_gap) [] min_gap
  = merge_frames baseline scene_changes min_gap.
Proof.
  unfold merge_frames at 1. rewrite app_nil_r.
  set (merged := merge_frames baseline scene_changes min_gap).
  assert (Hchron : chronological merged).
  { unfold merged, merge_frames, chronological.
    eapply StronglySorted_sub; [apply merge_sweep_sublist|].
    apply sorted_frames_chronological. }
  rewrite chronological_sorted_id by done.
  unfold merged, merge_frames.
  destruct (merge_sweep_spaced min_gap (- min_gap)
              (stable_sort by_timestamp (baseline ++ scene_changes)))
    as [Hsp Hhd].
  by apply merge_sweep_fixed.
Qed.

(** ** Baseline frame collection *)

Section baseline.

Variable path_exists : pystr → bool.
Variable output_dir : pystr.
Variables interval duration : Q.

Local Open Scope Q_scope.

Lemma baseline_count_spec (k : nat) :
  0 < interval →
  inject_Z (Z.of_nat k) * interval < duration
  ↔ (k < baseline_count interval duration)%nat.
Proof.
  intros Hi. unfold baseline_count.
  set (x := duration / interval).
  assert (Hx : inject_Z (Z.of_nat k) * interval < duration
               ↔ inject_Z (Z.of_nat k) < x).
  { assert (Hd : duration == x * interval) by (unfold x; field; lra).
    split; intros H.
    - unfold x. apply Qlt_shift_div_l; [done|lra].
    - rewrite Hd. apply Qmult_lt_r; done. }
  rewrite Hx.
  pose proof (Qle_ceiling x) as Hup. pose proof (Qceiling_lt x) as Hlo.
  split; intros H.
  - assert (H' : (Z.of_nat k < Qceiling x)%Z); [|lia].
    rewrite Zlt_Qlt. lra.
  - assert (H' : (Z.of_nat k <= Qceiling x - 1)%Z) by lia.
    rewrite Zle_Qle in H'. lra.
Qed.

Lemma baseline_loop_run (m : nat) :
  0 < interval →
  ∀ (k : nat) (timestamp : Q) (frames : list frame) (fuel : nat),
    timestamp == inject_Z (Z.of_nat k) * interval →
    (k + m = Nat.max k (baseline_count interval duration))%nat →
    (m < fuel)%nat →
    ∃ out,
      baseline_loop fuel path_exists output_dir interval duration
        (Z.of_nat k + 1) timestamp frames = Ret (frames ++ out)
      ∧ Forall2 same_frame out
          (baseline_schedule path_exists output_dir interval k m).
Proof.
  intros Hi. induction m as [|m IH]; intros k ts frames fuel Hts Hkm Hfuel.
  - destruct fuel as [|fuel]; [lia|]. cbn [baseline_loop].
    assert (E : Qle_bool duration ts = true).
    { apply Qle_bool_true. rewrite Hts.
      destruct (Qlt_le_dec (inject_Z (Z.of_nat k) * interval) duration) as [H|H];
        [|done].
      apply baseline_count_spec in H; [lia|done]. }
    rewrite E. cbn [negb]. exists []. rewrite app_nil_r. split; [done|constructor].
  - destruct fuel as [|fuel]; [lia|]. cbn [baseline_loop].
    assert (E : Qle_bool duration ts = false).
    { apply Qle_bool_false. rewrite Hts. apply baseline_count_spec; [done|lia]. }
    rewrite E. cbn [negb].
    replace (Z.of_nat k + 1 + 1)%Z with (Z.of_nat (S k) + 1)%Z by lia.
    set (frames' := if path_exists _ then _ else frames).
    destruct (IH (S k) (ts + interval) frames' fuel) as (out & Hout & Hsched).
    { rewrite Hts, Nat2Z.inj_succ. unfold Z.succ. rewrite inject_Z_plus.
      change (inject_Z 1) with 1. ring. }
    { lia. }
    { lia. }
    rewrite Hout. unfold baseline_schedule. cbn [seq flat_map].
    fold (baseline_schedule path_exists output_dir interval (S k) m).
    unfold frames'.
    destruct (path_exists (os_path_join output_dir (frame_filename (Z.of_nat k + 1)))).
    + exists ((ts, frame_filename (Z.of_nat k + 1)) :: out).
      split; [by rewrite <- app_assoc|].
      cbn [app]. constructor; [by split|done].
    + exists out. by split.
Qed.



End baseline.





(** X13. With an interval that is not positive and a positive duration the
    collection loop of [extract_baseline_frames] never ends: the timestamp
    never reaches the duration, whatever number of iterations is allowed. *)
Theorem extract_baseline_frames_hangs (path_exists : pystr → bool)
    (duration : Q) (output_dir : pystr) (interval : Q) (fuel : nat) :
  (interval <= 0)%Q → (0 < duration)%Q →
  extract_baseline_frames fuel path_exists duration output_dir interval
  = Raise OutOfFuel.
Proof.
  intros Hi Hd. unfold extract_baseline_frames.
  enough (H : ∀ (ts : Q) (frames : list frame) (frame_num : Z),
             (ts < duration)%Q →
             baseline_loop fuel path_exists output_dir interval duration
               frame_num ts frames = Raise OutOfFuel) by (by apply H).
  induction fuel as [|fuel IH]; intros ts frames frame_num Hts; [done|].
  cbn [baseline_loop].
  assert (E : Qle_bool duration ts = false) by (apply Qle_bool_false; lra).
  rewrite E. cbn [negb]. apply IH. lra.
Qed.

Lemma extract_baseline_frames_hangs_witness :
  (0 <= 0)%Q ∧ (0 < 60)%Q
  ∧ extract_baseline_frames 1000 (λ _, true) 60 (str "out/frames") 0
    = Raise OutOfFuel.
Proof.
  assert (H1 : (0 <= 0)%Q) by lra.
  assert (H2 : (0 < 60)%Q) by lra.
  split; [exact H1|]. split; [exact H2|].
  exact (extract_baseline_frames_hangs (λ _, true) 60 (str "out/frames") 0 1000 H1 H2).
Defined.

(** ** Format detection *)

(** X14. Whatever the suffix of the file name and whatever the content,
    [parse_transcript] returns a segment list and raises nothing, and in
    that list the speaker identifiers are [speaker_1], [speaker_2], ... in
    the order in which the speaker labels are first seen. *)
Theorem parse_transcript_returns (py_float : pystr → option Q)
    (ext content : pystr) :
  ∃ segs, parse_transcript py_float ext content = Ret segs
    ∧ first_seen_resolution segs.
Proof.
  unfold parse_transcript.
  destruct (bool_decide (ext = str ".vtt")); [apply parse_vtt_resolves|].
  destruct (bool_decide (ext = str ".srt")); [apply parse_srt_resolves|].
  destruct (startswith (str "WEBVTT") (strip content)); [apply parse_vtt_resolves|].
  destruct (search_lines re_srt_cue content);
    [apply parse_srt_resolves|apply parse_plain_text_resolves].
Qed.

(** ** Session index: the aligned frames *)

Lemma find_transcript_segment_source (T : Q) (segments : list TranscriptSegment) :
  find_transcript_segment T segments = (no_transcript, None, None)
  ∨ ∃ s, s ∈ segments ∧ find_transcript_segment T segments = segment_link s.
Proof.
  unfold find_transcript_segment.
  pose proof (find_first (encloses T) segments) as Hfind.
  destruct (find (encloses T) segments) as [s|].
  - right. destruct Hfind as (pre & post & -> & _ & _).
    exists s. split; [|done]. apply elem_of_app. right. left.
  - destruct segments as [|c l]; [by left|].
    cbn [fold_left]. rewrite closest_step_none.
    destruct (closest_fold T l c) as (s & -> & Hs).
    destruct (Qle_bool 10 (start_distance T s)); cbn [negb]; [by left|].
    right. exists s. split; [|done].
    destruct Hs as [[-> _]|(pre & post & -> & _)]; [left|].
    right. apply elem_of_app. right. left.
Qed.

Lemma set_if_truthy_value (value : option pystr) (v : pystr) :
  set_if_truthy value = Some v ↔ value = Some v ∧ v ≠ [].
Proof.
  unfold set_if_truthy. destruct value as [[|c w]|]; cbn; split;
    try (intros [? ?]); try intros ?; simplify_eq; done.
Qed.

(** X15. The frame entries of the session index: one entry per frame, in
    the order of the frames and with their screenshot names; the transcript
    text of an entry is the "no transcript available" sentinel with no
    speaker key, or the text of a segment of the transcript with the
    speaker keys of that segment; and a speaker key that is present never
    holds an empty string. *)
Theorem output_frames_entries (segments : list TranscriptSegment)
    (all_frames : list frame) :
  map fd_screenshot (output_frames segments all_frames) = map snd all_frames
  ∧ Forall
      (λ e,
         ((fd_transcript_segment e = no_transcript
           ∧ fd_speaker_id e = None ∧ fd_speaker_name e = None)
          ∨ ∃ s, s ∈ segments ∧ fd_transcript_segment e = text s
              ∧ fd_speaker_id e = set_if_truthy (speaker_id s)
              ∧ fd_speaker_name e = set_if_truthy (speaker_name s))
         ∧ fd_speaker_id e ≠ Some [] ∧ fd_speaker_name e ≠ Some [])
      (output_frames segments all_frames).
Proof.
  unfold output_frames. split.
  - rewrite map_map. apply map_ext. intros [t f]. cbn [frame_entry].
    by destruct (find_transcript_segment t segments) as [[? ?] ?].
  - apply Forall_fmap, Forall_forall. intros [t f] _.
    cbn [compose frame_entry].
    destruct (find_transcript_segment_source t segments) as [->|(s & Hs & ->)].
    + cbn. split; [by left|]. by split.
    + unfold segment_link. cbn [fd_transcript_segment fd_speaker_id fd_speaker_name].
      split; [right; by exists s|].
      split; intros H; apply set_if_truthy_value in H as [_ H]; done.
Qed.

(** * The call analyzer *)

(** ** The phrase matcher *)

Lemma match_literal_spells (ic : bool) (phrase s m rest : pystr) :
  match_literal ic phrase s = Some (m, rest) ↔ s = m ++ rest ∧ spells ic phrase m.
Proof.
  unfold spells. revert s m rest.
  induction phrase as [|p phrase IH]; intros s m rest; cbn [match_literal].
  - split.
    + intros [= <- <-]. split; [done|constructor].
    + intros [-> H]. by inversion H.
  - destruct s as [|c s].
    + split; [done|]. intros [Hs H]. inversion H; subst. done.
    + destruct (char_matches ic p c) eqn:E.
      * destruct (match_literal ic phrase s) as [[m' rest']|] eqn:E'.
        -- apply IH in E' as [-> Hm']. split.
           ++ intros [= <- <-]. split; [done|by constructor].
           ++ intros [Hs H]. inversion H as [|p' c' phrase' m'' Hc Hm'' Hp Hm]; subst.
              injection Hs as <- Hs.
              assert (Hlen : length m' = length m'').
              { apply Forall2_length in Hm', Hm''. congruence. }
              apply app_inj_1 in Hs as [-> ->]; done.
        -- split; [done|]. intros [Hs H].
           inversion H as [|p' c' phrase' m'' Hc Hm'' Hp Hm]; subst.
           injection Hs as <- Hs.
           assert (Hsome : match_literal ic phrase s = Some (m'', rest))
             by (by apply IH).
           congruence.
      * split; [done|]. intros [Hs H].
        inversion H as [|p' c' phrase' m'' Hc Hm'' Hp Hm]; subst.
        injection Hs as <- Hs. congruence.
Qed.

Lemma match_alternatives_some (ic bounded : bool) (done_ : pystr)
    (phrases : list pystr) (s m : pystr) :
  match_alternatives ic bounded (last done_) phrases s = Some m →
  ∃ phrase rest, phrase ∈ phrases ∧ s = m ++ rest ∧ spells ic phrase m
    ∧ (bounded = true → word_boundary (last (done_ ++ m)) rest = true).
Proof.
  induction phrases as [|phrase phrases IH]; [done|].
  cbn [match_alternatives].
  destruct (match_literal ic phrase s) as [[m' rest]|] eqn:E.
  - rewrite <- last_app.
    destruct (negb bounded || word_boundary (last (done_ ++ m')) rest) eqn:Eb.
    + intros [= ->]. apply match_literal_spells in E as [-> Hm].
      exists phrase, rest. split; [left|]. split; [done|]. split; [done|].
      intros ->. done.
    + intros H. destruct (IH H) as (ph & rest' & Hin & Hrest).
      exists ph, rest'. split; [by right|done].
  - intros H. destruct (IH H) as (ph & rest' & Hin & Hrest).
    exists ph, rest'. split; [by right|done].
Qed.

Lemma match_alternatives_none (ic bounded : bool) (done_ : pystr)
    (phrases : list pystr) (s : pystr) :
  match_alternatives ic bounded (last done_) phrases s = None →
  ∀ phrase m rest, phrase ∈ phrases → s = m ++ rest → spells ic phrase m →
    bounded = true ∧ word_boundary (last (done_ ++ m)) rest = false.
Proof.
  induction phrases as [|phrase phrases IH]; intros H ph m rest Hin Hs Hm.
  { by apply elem_of_nil in Hin. }
  cbn [match_alternatives] in H.
  apply elem_of_cons in Hin as [->|Hin].
  - rewrite (proj2 (match_literal_spells ic phrase s m rest)) in H by done.
    rewrite <- last_app in H.
    destruct bounded; cbn [negb orb] in H; [|done].
    destruct (word_boundary (last (done_ ++ m)) rest); done.
  - apply (IH (ltac:(destruct (match_literal ic phrase s) as [[m' rest']|];
                      [by destruct (negb bounded || _)|done]))
             ph m rest Hin Hs Hm).
Qed.

Lemma search_from_some (ic bounded : bool) (phrases : list pystr) (s : pystr) :
  ∀ (done_ m : pystr),
    search_from ic bounded phrases (last done_) s = Some m →
    ∃ phrase pre post, phrase ∈ phrases ∧ s = pre ++ m ++ post
      ∧ spells ic phrase m
      ∧ (bounded = true →
         word_boundary (last (done_ ++ pre)) (m ++ post) = true
         ∧ word_boundary (last (done_ ++ pre ++ m)) post = true).
Proof.
  induction s as [|c s IH]; intros done_ m; cbn [search_from].
  - destruct (negb bounded || word_boundary (last done_) []) eqn:Eb; [|done].
    destruct (match_alternatives ic bounded (last done_) phrases []) as [m'|] eqn:E;
      [|done].
    intros [= ->]. apply match_alternatives_some in E as (ph & rest & Hin & Hs & Hm & Hb).
    exists ph, [], rest. rewrite app_nil_r. cbn [app].
    split; [done|]. split; [done|]. split; [done|].
    intros ->. cbn [negb orb] in Eb. split; [by rewrite <- Hs|auto].
  - destruct (if negb bounded || word_boundary (last done_) (c :: s)
              then match_alternatives ic bounded (last done_) phrases (c :: s)
              else None) as [m'|] eqn:E.
    + intros [= ->].
      destruct (negb bounded || word_boundary (last done_) (c :: s)) eqn:Eb; [|done].
      apply match_alternatives_some in E as (ph & rest & Hin & Hs & Hm & Hb).
      exists ph, [], rest. rewrite app_nil_r. cbn [app].
      split; [done|]. split; [done|]. split; [done|].
    intros ->. cbn [negb orb] in Eb. split; [by rewrite <- Hs|auto].
    + intros H. rewrite <- (last_snoc c done_) in H.
      destruct (IH _ _ H) as (ph & pre & post & Hin & -> & Hm & Hb).
      exists ph, (c :: pre), post.
      split; [done|]. split; [done|]. split; [done|].
      intros Hbd. destruct (Hb Hbd) as [Hb1 Hb2].
      by rewrite <- !app_assoc in Hb1, Hb2.
Qed.

Lemma search_from_head (ic bounded : bool) (phrases : list pystr)
    (prev : option ascii) (s : pystr) :
  search_from ic bounded phrases prev s = None →
  (if negb bounded || word_boundary prev s
   then match_alternatives ic bounded prev phrases s else None) = None.
Proof.
  destruct s as [|c s]; cbn [search_from];
    by destruct (if negb bounded || _ then _ else None).
Qed.

Lemma search_from_tail (ic bounded : bool) (phrases : list pystr)
    (prev : option ascii) (c : ascii) (s : pystr) :
  search_from ic bounded phrases prev (c :: s) = None →
  search_from ic bounded phrases (Some c) s = None.
Proof.
  cbn [search_from]. by destruct (if negb bounded || _ then _ else None).
Qed.

Lemma search_from_none (ic bounded : bool) (phrases : list pystr) (s : pystr) :
  ∀ done_ : pystr,
    search_from ic bounded phrases (last done_) s = None →
    ∀ phrase pre m post, phrase ∈ phrases → s = pre ++ m ++ post →
      spells ic phrase m →
      bounded = true
      ∧ (word_boundary (last (done_ ++ pre)) (m ++ post) = false
         ∨ word_boundary (last (done_ ++ pre ++ m)) post = false).
Proof.
  assert (Hhere : ∀ done_ s' ph m post,
            search_from ic bounded phrases (last done_) s' = None →
            ph ∈ phrases → s' = m ++ post → spells ic ph m →
            bounded = true
            ∧ (word_boundary (last done_) (m ++ post) = false
               ∨ word_boundary (last (done_ ++ m)) post = false)).
  { intros done_ s' ph m post H Hin Hs Hm. apply search_from_head in H.
    destruct (negb bounded || word_boundary (last done_) s') eqn:Eb.
    - destruct (match_alternatives_none _ _ _ _ _ H ph m post Hin Hs Hm)
        as [Hbd Hb]. split; [done|by right].
    - apply orb_false_iff in Eb as [Hbd Eb]. apply negb_false_iff in Hbd.
      split; [done|]. left. by rewrite <- Hs. }
  induction s as [|c s IH]; intros done_ H ph pre m post Hin Hs Hm.
  - destruct pre as [|c' pre]; [|done]. rewrite app_nil_r.
    by apply (Hhere done_ [] ph m post).
  - destruct pre as [|c' pre].
    + rewrite app_nil_r. by apply (Hhere done_ (c :: s) ph m post).
    + injection Hs as <- Hs. apply search_from_tail in H.
      rewrite <- (last_snoc c done_) in H.
      destruct (IH _ H ph pre m post Hin Hs Hm) as [Hbd Hb].
      split; [done|]. by rewrite <- !app_assoc in Hb.
Qed.

(** [re.search] finds a match exactly when some phrase of the pattern
    occurs, and what it returns is the text of an occurrence. *)
Lemma re_search_occurs (ic : bool) (pattern : phrase_pattern) (s : pystr) :
  (∀ m, re_search ic pattern s = Some m →
        ∃ phrase pre post, phrase ∈ pp_phrases pattern
          ∧ occurrence (pp_anchor pattern) ic phrase s pre m post)
  ∧ (re_search ic pattern s = None → ¬ occurs ic pattern s).
Proof.
  unfold re_search, occurs, occurrence.
  destruct pattern as [[| |] phrases]; cbn [pp_anchor pp_phrases]; split.
  - intros m H. apply (search_from_some ic true phrases s []) in H
      as (ph & pre & post & Hin & Hs & Hm & Hb).
    destruct (Hb eq_refl) as [Hb1 Hb2]. exists ph, pre, post. by repeat split.
  - intros H (ph & pre & m & post & Hin & Hs & Hm & Hb1 & Hb2).
    destruct (search_from_none ic true phrases s [] H ph pre m post Hin Hs Hm)
      as [_ [Hb|Hb]]; cbn [app] in Hb; congruence.
  - intros m H. apply (match_alternatives_some ic false [] phrases s) in H
      as (ph & rest & Hin & Hs & Hm & _).
    exists ph, [], rest. by repeat split.
  - intros H (ph & pre & m & post & Hin & Hs & Hm & ->).
    by destruct (match_alternatives_none ic false [] phrases s H ph m post Hin Hs Hm).
  - intros m H. apply (search_from_some ic false phrases s []) in H
      as (ph & pre & post & Hin & Hs & Hm & _).
    exists ph, pre, post. by repeat split.
  - intros H (ph & pre & m & post & Hin & Hs & Hm & _).
    by destruct (search_from_none ic false phrases s [] H ph pre m post Hin Hs Hm).
Qed.

(** ** Pattern detection *)

Lemma lower_char_idem (c : ascii) : lower_char (lower_char c) = lower_char c.
Proof. by destruct c as [[] [] [] [] [] [] [] []]. Qed.

Lemma lower_part (text pre m post : pystr) :
  lower text = pre ++ m ++ post → lower m = m.
Proof.
  intros H.
  assert (Hall : Forall (λ c, lower_char c = c) (lower text)).
  { unfold lower. apply Forall_fmap, Forall_forall. intros c _.
    apply lower_char_idem. }
  rewrite H in Hall. apply Forall_app in Hall as [_ Hall].
  apply Forall_app in Hall as [Hall _]. clear H.
  unfold lower. induction Hall as [|c m Hc Hm IH]; [done|].
  cbn [map]. by rewrite Hc, IH.
Qed.

Lemma spells_lower (phrase m : pystr) : spells true phrase m → phrase = lower m.
Proof.
  unfold spells, lower. induction 1 as [|p c phrase m Hc Hm IH]; [done|].
  cbn [map]. cbn [char_matches] in Hc. apply Ascii.eqb_eq in Hc. by rewrite Hc, IH.
Qed.

(** X16. [detect_patterns] reports at most one detection for a text and a
    table.  It reports none exactly when no phrase of the table occurs in
    the lower-cased text (between word boundaries); otherwise the detection
    belongs to the first pattern of the table that occurs: its
    [matched_phrase] is a phrase of that pattern, as written in the table,
    at a place where it occurs, its [confidence] is the one of that pattern
    and its [text] is the text as given. *)
Theorem detect_patterns_first_pattern (text : pystr)
    (patterns : list (phrase_pattern * pystr)) (type : pystr)
    (timestamp_seconds : Q) (speaker_id speaker_name : option pystr) :
  match detect_patterns text patterns type timestamp_seconds speaker_id speaker_name with
  | [] => ∀ p, p ∈ patterns → ¬ occurs true p.1 (lower text)
  | [d] =>
      ∃ before pattern conf after pre post,
        patterns = before ++ (pattern, conf) :: after
        ∧ (∀ p, p ∈ before → ¬ occurs true p.1 (lower text))
        ∧ matched_phrase d ∈ pp_phrases pattern
        ∧ occurrence (pp_anchor pattern) true (matched_phrase d) (lower text)
            pre (matched_phrase d) post
        ∧ d = mkDetected type text timestamp_seconds
                (seconds_to_timestamp timestamp_seconds) speaker_id speaker_name
                conf (matched_phrase d)
  | _ => False
  end.
Proof.
  unfold detect_patterns.
  set (ts := timestamp_seconds). set (sid := speaker_id). set (sname := speaker_name).
  induction patterns as [|[pattern conf] patterns IH]; cbn [detect_loop].
  { intros p Hp. by apply elem_of_nil in Hp. }
  destruct (re_search_occurs true pattern (lower text)) as [Hsome Hnone].
  destruct (re_search true pattern (lower text)) as [m|].
  - destruct (Hsome m eq_refl) as (ph & pre & post & Hin & Hocc).
    assert (Hm : ph = m).
    { destruct Hocc as (Hs & Hsp & _).
      rewrite (spells_lower _ _ Hsp). by eapply lower_part. }
    subst ph. exists [], pattern, conf, patterns, pre, post.
    cbn [matched_phrase app]. repeat split; try done.
    + intros p Hp. by apply elem_of_nil in Hp.
    + apply Hocc.
    + apply Hocc.
    + apply Hocc.
  - specialize (Hnone eq_refl).
    destruct (detect_loop text (lower text) patterns type ts sid sname)
      as [|d [|d' l]]; [| |done].
    + intros p [->|Hp]%elem_of_cons; [done|by apply IH].
    + destruct IH as (before & pat & c & after & pre & post & -> & Hbefore & Hrest).
      exists ((pattern, conf) :: before), pat, c, after, pre, post.
      split; [done|]. split; [|done].
      intros p [->|Hp]%elem_of_cons; [done|by apply Hbefore].
Qed.

Lemma detect_patterns_text (text : pystr)
    (patterns : list (phrase_pattern * pystr)) (type : pystr)
    (ts : Q) (sid sname : option pystr) :
  map dp_text (detect_patterns text patterns type ts sid sname) = []
  ∨ map dp_text (detect_patterns text patterns type ts sid sname) = [text].
Proof.
  unfold detect_patterns.
  induction patterns as [|[pattern conf] patterns IH]; cbn [detect_loop];
    [by left|].
  destruct (re_search true pattern (lower text)); [by right|done].
Qed.

(** ** Question classification *)

Lemma any_pattern_occurs (table : list phrase_pattern) (s : pystr) :
  any_pattern table s = true ↔ table_occurs table s.
Proof.
  unfold any_pattern, table_occurs. rewrite existsb_exists. split.
  - intros (pattern & Hin & H). apply bool_decide_eq_true in H as [m Hm].
    exists pattern. split; [by apply list_elem_of_In|].
    destruct (re_search_occurs false pattern s) as [Hsome _].
    destruct (Hsome m Hm) as (ph & pre & post & Hph & Hocc).
    by exists ph, pre, m, post.
  - intros (pattern & Hin & Hocc). exists pattern.
    split; [by apply list_elem_of_In|]. apply bool_decide_eq_true.
    destruct (re_search_occurs false pattern s) as [_ Hnone].
    destruct (re_search false pattern s) as [m|]; [by eexists|].
    by destruct (Hnone eq_refl).
Qed.

Lemma question_mark_in (text : pystr) :
  existsb (is_char "?") text = true ↔ "?"%char ∈ text.
Proof.
  rewrite existsb_exists. split.
  - intros (c & Hin & Hc). unfold is_char in Hc. apply Ascii.eqb_eq in Hc.
    subst. by apply list_elem_of_In.
  - intros Hin. exists "?"%char. split; [by apply list_elem_of_In|done].
Qed.

(** X17. [classify_question] gives no label exactly to the texts without a
    question mark.  A text with a question mark is [clarifying] when a
    clarifying phrase occurs in its lower-cased, stripped form; failing
    that, [open_discovery] when an open-discovery phrase occurs; failing
    that, [closed_confirmation] when a closed-confirmation phrase occurs;
    and [rhetorical] when none does. *)
Theorem classify_question_priority (text : pystr) :
  let s := strip (lower text) in
  (classify_question text = None ↔ "?"%char ∉ text)
  ∧ ("?"%char ∈ text →
     (table_occurs CLARIFYING_PATTERNS s →
      classify_question text = Some (str "clarifying"))
     ∧ (¬ table_occurs CLARIFYING_PATTERNS s →
        (table_occurs OPEN_DISCOVERY_PATTERNS s →
         classify_question text = Some (str "open_discovery"))
        ∧ (¬ table_occurs OPEN_DISCOVERY_PATTERNS s →
           (table_occurs CLOSED_CONFIRMATION_PATTERNS s →
            classify_question text = Some (str "closed_confirmation"))
           ∧ (¬ table_occurs CLOSED_CONFIRMATION_PATTERNS s →
              classify_question text = Some (str "rhetorical"))))).
Proof.
  intros s. unfold classify_question. fold s.
  pose proof (question_mark_in text) as Hq.
  pose proof (any_pattern_occurs CLARIFYING_PATTERNS s) as Hc.
  pose proof (any_pattern_occurs OPEN_DISCOVERY_PATTERNS s) as Ho.
  pose proof (any_pattern_occurs CLOSED_CONFIRMATION_PATTERNS s) as Hl.
  destruct (existsb (is_char "?") text); cbn [negb];
    [|split; [|intros Hin; apply Hq in Hin; done];
      split; [intros _ Hin; apply Hq in Hin; done|done]].
  assert (Hin : "?"%char ∈ text) by (by apply Hq).
  destruct (any_pattern CLARIFYING_PATTERNS s);
    destruct (any_pattern OPEN_DISCOVERY_PATTERNS s);
    destruct (any_pattern CLOSED_CONFIRMATION_PATTERNS s);
    (split; [split; [done|intros Hn; by destruct Hn]|intros _]);
    repeat match goal with
      | |- _ ∧ _ => split
      | |- table_occurs ?t s → _ => intros ?
      | |- ¬ table_occurs ?t s → _ => intros ?
      end;
    try done;
    repeat match goal with
      | H : _ ↔ table_occurs ?t s, Hocc : table_occurs ?t s |- _ =>
          apply H in Hocc; try done
      | H : _ ↔ table_occurs ?t s, Hnot : ¬ table_occurs ?t s |- _ =>
          destruct Hnot; by apply H
      end.
Qed.

Lemma classify_question_priority_witness :
  "?"%char ∈ str "Pardon?"
  ∧ table_occurs CLARIFYING_PATTERNS (strip (lower (str "Pardon?")))
  ∧ classify_question (str "Pardon?") = Some (str "clarifying").
Proof.
  assert (H1 : "?"%char ∈ str "Pardon?").
  { apply question_mark_in. reflexivity. }
  assert (H2 : table_occurs CLARIFYING_PATTERNS (strip (lower (str "Pardon?")))).
  { exists (mkPattern Anywhere
              [str "sorry"; str "pardon"; str "excuse me"; str "come again"]).
    split; [do 2 apply list_elem_of_further; apply list_elem_of_here|].
    exists (str "pardon"), [], (str "pardon"), (str "?").
    split; [cbn [pp_phrases]; apply list_elem_of_further, list_elem_of_here|].
    split; [reflexivity|]. split; [|exact I].
    repeat constructor. }
  split; [exact H1|]. split; [exact H2|].
  exact (proj1 (proj2 (classify_question_priority (str "Pardon?")) H1) H2).
Defined.

(** ** Transcript analysis *)

Lemma analyzed_text_more (done_ more : list index_frame) (t : pystr) :
  analyzed_text done_ t → analyzed_text (done_ ++ more) t.
Proof.
  intros (H1 & H2 & f & Hf & Ht). repeat split; try done.
  exists f. split; [|done]. apply elem_of_app. by left.
Qed.

Lemma texts_within_extend (seen : gset pystr) (texts new : list pystr) (t : pystr) :
  texts_within seen texts → t ∉ seen → new = [] ∨ new = [t] →
  texts_within ({[ t ]} ∪ seen) (texts ++ new).
Proof.
  intros [Hnd Hin] Ht [->| ->].
  - rewrite app_nil_r. split; [done|]. intros t' Ht'.
    apply elem_of_union. right. by apply Hin.
  - split.
    + apply NoDup_app. split; [done|]. split; [|apply NoDup_singleton].
      intros t' Ht' Heq. apply list_elem_of_singleton in Heq. subst.
      apply Ht. by apply Hin.
    + intros t' [Ht'|Ht']%elem_of_app; apply elem_of_union.
      * right. by apply Hin.
      * left. apply list_elem_of_singleton in Ht'. by apply elem_of_singleton.
Qed.

Lemma analyze_step_invariant (done_ : list index_frame)
    (st : analysis * gset pystr) (frame : index_frame) :
  analysis_invariant done_ st →
  analysis_invariant (done_ ++ [frame]) (analyze_step st frame).
Proof.
  destruct st as [a seen].
  intros (Hseen & Hpp & Hob & Hbs & Hai & Hq & Hqm).
  assert (Hskip : analysis_invariant (done_ ++ [frame]) (a, seen)).
  { split; [|done]. intros t Ht. by apply analyzed_text_more, Hseen. }
  unfold analyze_step.
  set (text := default [] (if_transcript_segment frame)).
  destruct (negb (truthy text) || bool_decide (text = no_transcript)) eqn:E1;
    [done|].
  apply orb_false_iff in E1 as [E1 E2]. apply negb_false_iff in E1.
  apply bool_decide_eq_false in E2.
  case_bool_decide as E3; [done|].
  cbn [fst snd] in *.
  assert (Htext : analyzed_text (done_ ++ [frame]) text).
  { split; [by intros Hnil; rewrite Hnil in E1|]. split; [done|].
    exists frame. split; [apply elem_of_app; right; left|].
    unfold text in *. destruct (if_transcript_segment frame); [done|].
    by cbn in E1. }
  split; [|cbn [fst snd questions pain_points objections buying_signals action_items]].
  { cbn [snd]. intros t [Ht|Ht]%elem_of_union.
    - apply elem_of_singleton in Ht. by subst.
    - by apply analyzed_text_more, Hseen. }
  split; [|split; [|split; [|split; [|split]]]].
  - rewrite map_app. apply texts_within_extend; [done..|apply detect_patterns_text].
  - rewrite map_app. apply texts_within_extend; [done..|apply detect_patterns_text].
  - rewrite map_app. apply texts_within_extend; [done..|apply detect_patterns_text].
  - rewrite map_app. apply texts_within_extend; [done..|apply detect_patterns_text].
  - rewrite map_app. apply texts_within_extend; [done..|].
    destruct (classify_question text); [by right|by left].
  - apply Forall_app. split; [done|].
    destruct (classify_question text) eqn:Ec; [|constructor].
    repeat constructor. cbn [q_text]. apply question_mark_in.
    unfold classify_question in Ec.
    by destruct (existsb (is_char "?") text).
Qed.

Lemma analyze_fold_invariant (frames : list index_frame) :
  ∀ (done_ : list index_frame) (st : analysis * gset pystr),
    analysis_invariant done_ st →
    analysis_invariant (done_ ++ frames) (fold_left analyze_step frames st).
Proof.
  induction frames as [|frame frames IH]; intros done_ st Hst.
  - by rewrite app_nil_r.
  - cbn [fold_left]. rewrite (cons_middle frame), app_assoc.
    by apply IH, analyze_step_invariant.
Qed.

Lemma texts_within_once (frames : list index_frame) (seen : gset pystr)
    (texts : list pystr) :
  (∀ t, t ∈ seen → analyzed_text frames t) → texts_within seen texts →
  once_each frames texts.
Proof.
  intros Hseen [Hnd Hin]. split; [done|].
  apply Forall_forall. intros t Ht. by apply Hseen, Hin.
Qed.

(** X18. [analyze_transcript] looks at every distinct transcript text
    once, however many frames carry it: in each of the five result lists no
    text appears twice, and every text in them is the transcript text of
    some frame, is not empty and is not the "no transcript available"
    sentinel; every question has a question mark. *)
Theorem analyze_transcript_once_per_text (frames : list index_frame) :
  let a := analyze_transcript frames in
  once_each frames (map dp_text (pain_points a))
  ∧ once_each frames (map dp_text (objections a))
  ∧ once_each frames (map dp_text (buying_signals a))
  ∧ once_each frames (map dp_text (action_items a))
  ∧ once_each frames (map q_text (questions a))
  ∧ Forall (λ q, "?"%char ∈ q_text q) (questions a).
Proof.
  intros a. unfold a, analyze_transcript.
  destruct (analyze_fold_invariant frames [] (mkAnalysis [] [] [] [] [], ∅))
    as (Hseen & Hpp & Hob & Hbs & Hai & Hq & Hqm).
  { split; [intros t Ht; by apply elem_of_empty in Ht|].
    assert (Hnil : texts_within ∅ []).
    { split; [apply NoDup_nil_2|]. intros t Ht. by apply elem_of_nil in Ht. }
    cbn. repeat (split; [exact Hnil|]). constructor. }
  cbn [app] in *.
  repeat (split; [by eapply texts_within_once|]). exact Hqm.
Qed.

(** ** Health indicators *)

Section health.

Variable fmt_value : Q → pystr.
Variable fmt_0f : Q → pystr.

Ltac indicator_cases :=
  repeat match goal with
    | |- context [if ?b then _ else _] => destruct b
    | |- context [match ?l with [] => _ | _ :: _ => _ end] => destruct l
    end;
  (split; [by (left + right)|]);
  repeat (constructor; [cbn [snd status]; by vm_compute|]); constructor.

Lemma talk_ratio_part (speakers : list index_speaker) (call_type : pystr) :
  indicator_part (str "talk_ratio") (talk_ratio fmt_value speakers call_type).
Proof. unfold talk_ratio. indicator_cases. Qed.

Lemma question_quality_part (qs : list Question) (call_type : pystr) :
  indicator_part (str "question_quality") (question_quality fmt_0f qs call_type).
Proof. unfold question_quality. cbn zeta. indicator_cases. Qed.

Lemma pain_discovery_part (l : list DetectedPattern) (call_type : pystr) :
  indicator_part (str "pain_discovery") (pain_discovery l call_type).
Proof. unfold pain_discovery. indicator_cases. Qed.

Lemma objection_handling_part (l : list DetectedPattern) :
  indicator_part (str "objections") (objection_handling l).
Proof. unfold objection_handling. indicator_cases. Qed.

Lemma buying_intent_part (l : list DetectedPattern) :
  indicator_part (str "buying_intent") (buying_intent l).
Proof. unfold buying_intent. indicator_cases. Qed.

Lemma next_steps_part (l : list DetectedPattern) :
  indicator_part (str "next_steps") (next_steps l).
Proof. unfold next_steps. indicator_cases. Qed.

End health.

(** X19. The health indicators: no key is set twice; every status is one
    of the five [main] has an icon for, so the fallback icon is never
    printed; and [next_steps] is always reported, as [good] exactly when
    there are action items. *)
Theorem health_indicators_statuses (fmt_value fmt_0f : Q → pystr)
    (a : analysis) (speakers : list index_speaker) (call_type : pystr) :
  let indicators :=
    generate_health_indicators fmt_value fmt_0f a speakers call_type in
  NoDup (map fst indicators)
  ∧ Forall (λ kv, status_icon (status kv.2) ≠ str "?") indicators
  ∧ ∃ i, (str "next_steps", i) ∈ indicators
      ∧ (status i = str "good" ↔ action_items a ≠ []).
Proof.
  intros indicators. unfold indicators, generate_health_indicators.
  destruct (talk_ratio_part fmt_value speakers call_type) as [K1 S1].
  destruct (question_quality_part fmt_0f (questions a) call_type) as [K2 S2].
  destruct (pain_discovery_part (pain_points a) call_type) as [K3 S3].
  destruct (objection_handling_part (objections a)) as [K4 S4].
  destruct (buying_intent_part (buying_signals a)) as [K5 S5].
  destruct (next_steps_part (action_items a)) as [K6 S6].
  split; [|split].
  - rewrite !map_app.
    destruct K1 as [-> | ->], K2 as [-> | ->], K3 as [-> | ->],
      K4 as [-> | ->], K5 as [-> | ->], K6 as [-> | ->];
      apply (bool_decide_unpack _); by vm_compute.
  - repeat (apply Forall_app; split); done.
  - unfold next_steps. destruct (action_items a) as [|d l]; cbn [truthy].
    + eexists. split.
      * do 5 (apply elem_of_app; right). apply list_elem_of_here.
      * cbn [status]. split; [by vm_compute|done].
    + eexists. split.
      * do 5 (apply elem_of_app; right). apply list_elem_of_here.
      * cbn [status]. done.
Qed.

(** ** The talk ratio of a two-speaker call *)

Section top_share.

Local Open Scope Q_scope.

(** Half of the total or more is reported as 50 percent or more. *)
Lemma share_at_least_half (t T : Q) :
  0 < T → T / 2 <= t → 50 <= py_round (float_mul (float_div t T) 100) 1.
Proof.
  intros HT Ht.
  assert (Hdiv : T / 2 == T * (1 # 2)) by (by field).
  assert (Hhalf : 1 # 2 <= t / T).
  { apply Qle_shift_div_l; [done|]. lra. }
  assert (Ha : 1 # 2 <= float_div t T).
  { change (1 # 2) with (binary64 (1 # 2)) at 1. by apply binary64_mono. }
  assert (Hx : 50 <= float_mul (float_div t T) 100).
  { assert (H50 : binary64 50 == 50) by (by vm_compute).
    rewrite <- H50. apply binary64_mono. lra. }
  assert (H50 : py_round 50 1 == 50) by (by vm_compute).
  rewrite <- H50 at 1. by apply py_round_mono.
Qed.

Lemma stable_sort_head {A : Type} (before : A → A → bool) (l : list A)
    (top : A) (rest : list A) :
  (∀ x y, before x y = true ∨ before y x = true) →
  (∀ x y z, before x y = true → before y z = true → before x z = true) →
  stable_sort before l = top :: rest →
  ∀ x, x ∈ l → before top x = true.
Proof.
  intros Htotal Htrans Hsort x Hx.
  pose proof (stable_sort_sorted before Htotal Htrans l) as Hsorted.
  rewrite <- (stable_sort_perm before l), Hsort in Hx.
  rewrite Hsort in Hsorted.
  apply StronglySorted_inv in Hsorted as [_ Hall].
  apply elem_of_cons in Hx as [->|Hx].
  - by destruct (Htotal top top).
  - rewrite Forall_forall in Hall. by apply Hall.
Qed.

Lemma by_pct_desc_total (x y : index_speaker) :
  by_pct_desc x y = true ∨ by_pct_desc y x = true.
Proof.
  unfold by_pct_desc. rewrite !Qle_bool_true.
  destruct (Qlt_le_dec (default 0 (is_talk_time_pct x))
              (default 0 (is_talk_time_pct y))); [right; lra|by left].
Qed.

Lemma by_pct_desc_trans (x y z : index_speaker) :
  by_pct_desc x y = true → by_pct_desc y z = true → by_pct_desc x z = true.
Proof. unfold by_pct_desc. rewrite !Qle_bool_true. lra. Qed.

Lemma top_share_of_two (T : Q) (data : list (pystr * speaker_datum)) :
  length data = 2%nat → T == Qsum (map (λ kv, d_talk_time kv.2) data) → 0 < T →
  ∃ m, m ∈ map (make_metrics T) data ∧ 50 <= talk_time_pct m.
Proof.
  intros Hlen HT Hpos.
  destruct data as [|[k1 d1] [|[k2 d2] [|? ?]]]; try done. clear Hlen.
  cbn [map snd] in HT. rewrite !Qsum_cons in HT. change (Qsum []) with 0 in HT.
  assert (Hshare : ∀ t, T / 2 <= t →
            50 <= py_round (if Qpos_bool T
                            then float_mul (float_div t T) 100 else 0) 1).
  { intros t Ht. rewrite (proj2 (Qpos_bool_true T) Hpos).
    by apply share_at_least_half. }
  assert (Hdiv : T / 2 == T * (1 # 2)) by (by field).
  destruct (Qlt_le_dec (d_talk_time d1) (T / 2)) as [Hlt|Hge].
  - exists (make_metrics T (k2, d2)). split; [cbn [map]; right; left|].
    cbn [make_metrics talk_time_pct]. apply Hshare. lra.
  - exists (make_metrics T (k1, d1)). split; [cbn [map]; left|].
    cbn [make_metrics talk_time_pct]. by apply Hshare.
Qed.

Lemma two_speakers_half (segments : list TranscriptSegment) :
  length (metrics_of segments) = 2%nat → 0 < total_talk_time segments →
  ∃ m, m ∈ metrics_of segments ∧ 50 <= talk_time_pct m.
Proof.
  intros Hlen HT. destruct segments as [|y l].
  { by cbn in Hlen. }
  assert (Hperm : metrics_of (y :: l)
                  ≡ₚ map (make_metrics (total_talk_time (y :: l)))
                       (fold_left data_step (consolidate (y :: l)) [])).
  { rewrite metrics_of_nonempty. apply stable_sort_perm. }
  rewrite (Permutation_length Hperm), length_map in Hlen.
  destruct (top_share_of_two (total_talk_time (y :: l))
              (fold_left data_step (consolidate (y :: l)) []) Hlen)
    as (m & Hm & Hpct); [reflexivity|done|].
  exists m. split; [by rewrite Hperm|done].
Qed.

End top_share.

(** X20. On a call with exactly two speakers and some talk time, the
    speaker who talks most has a share of at least 50 percent, so for a
    discovery call the talk ratio indicator built from the speaker metrics
    is always [good]: its [needs_attention] branch, for a top share below
    40 percent, takes at least three speakers. *)
Theorem talk_ratio_two_speakers (fmt_value : Q → pystr)
    (segments : list TranscriptSegment) :
  length (metrics_of segments) = 2 → (0 < total_talk_time segments)%Q →
  ∃ top_speaker_pct,
    (50 <= top_speaker_pct)%Q
    ∧ talk_ratio fmt_value (index_speakers (metrics_of segments)) (str "discovery")
      = [(str "talk_ratio",
          mkIndicator (str "good")
            (str "Good balance with top speaker at "
             ++ fmt_value top_speaker_pct ++ str "%"))].
Proof.
  intros Hlen HT.
  destruct (two_speakers_half segments Hlen HT) as (m & Hm & Hpct).
  unfold talk_ratio, index_speakers. rewrite length_map, Hlen. cbn [Nat.leb].
  set (speakers := map _ (metrics_of segments)).
  destruct (stable_sort by_pct_desc speakers) as [|top rest] eqn:Hsort.
  { pose proof (Permutation_length (stable_sort_perm by_pct_desc speakers)) as Hl.
    rewrite Hsort in Hl. unfold speakers in Hl. rewrite length_map, Hlen in Hl.
    done. }
  assert (Htop : top ∈ speakers).
  { rewrite <- (stable_sort_perm by_pct_desc speakers), Hsort. left. }
  apply list_elem_of_fmap in Htop as (mt & -> & Hmt).
  pose proof (stable_sort_head by_pct_desc speakers _ _
                by_pct_desc_total by_pct_desc_trans Hsort
                (mkIndexSpeaker (Some (talk_time_pct m)))) as Hmax.
  unfold by_pct_desc in Hmax. cbn [is_talk_time_pct default] in Hmax |- *.
  unfold id in Hmax.
  rewrite Qle_bool_true in Hmax.
  assert (Hge : (talk_time_pct m <= talk_time_pct mt)%Q).
  { apply Hmax. apply list_elem_of_fmap. by exists m. }
  exists (talk_time_pct mt). split; [lra|].
  rewrite bool_decide_true by done.
  unfold Qlt_bool, id. rewrite (proj2 (Qle_bool_true 40 (talk_time_pct mt))) by lra.
  done.
Qed.

Lemma talk_ratio_two_speakers_witness :
  length (metrics_of alice_and_bob) = 2
  ∧ (0 < total_talk_time alice_and_bob)%Q
  ∧ ∃ top_speaker_pct,
      (50 <= top_speaker_pct)%Q
      ∧ talk_ratio (λ _, []) (index_speakers (metrics_of alice_and_bob))
          (str "discovery")
        = [(str "talk_ratio",
            mkIndicator (str "good")
              (str "Good balance with top speaker at "
               ++ [] ++ str "%"))].
Proof.
  assert (H1 : length (metrics_of alice_and_bob) = 2) by (by vm_compute).
  assert (H2 : (0 < total_talk_time alice_and_bob)%Q) by (by vm_compute).
  split; [exact H1|]. split; [exact H2|].
  exact (talk_ratio_two_speakers (λ _, []) alice_and_bob H1 H2).
Defined.

(** ** Question counts of the call review *)

Lemma dict_get_set {V : Type} (k k' : pystr) (v : V) (d : list (pystr * V)) :
  dict_get k' (dict_set k v d)
  = if bool_decide (k = k') then Some v else dict_get k' d.
Proof.
  induction d as [|[k0 v0] d IH]; cbn [dict_set dict_get].
  - done.
  - destruct (bool_decide_reflect (k0 = k)) as [->|Hne]; cbn [dict_get].
    + by destruct (bool_decide (k = k')).
    + rewrite IH. destruct (bool_decide_reflect (k0 = k')) as [->|Hne'].
      * by rewrite bool_decide_false.
      * done.
Qed.

Lemma dict_get_elem {V : Type} (k : pystr) (v : V) (d : list (pystr * V)) :
  NoDup (map fst d) → (k, v) ∈ d ↔ dict_get k d = Some v.
Proof.
  induction d as [|[k0 v0] d IH]; cbn [map fst dict_get]; intros Hnd.
  - split; [intros H; by apply elem_of_nil in H|done].
  - apply NoDup_cons in Hnd as [Hk0 Hnd].
    destruct (bool_decide_reflect (k0 = k)) as [->|Hne].
    + split.
      * intros [[= ->]|Hin]%elem_of_cons; [done|].
        destruct Hk0. apply list_elem_of_fmap. by exists (k, v).
      * intros [= ->]. left.
    + rewrite <- IH by done. split.
      * intros [[= -> ->]|Hin]%elem_of_cons; done.
      * intros Hin. by right.
Qed.

Lemma questions_of_type_snoc (qtype : pystr) (qs : list Question) (q : Question) :
  questions_of_type qtype (qs ++ [q])
  = questions_of_type qtype qs + (if bool_decide (question_type q = qtype) then 1 else 0).
Proof.
  unfold questions_of_type. rewrite filter_app, length_app. f_equal.
  rewrite filter_cons, filter_nil.
  destruct (decide (question_type q = qtype)) as [Heq|Hne].
  - by rewrite bool_decide_true.
  - by rewrite bool_decide_false.
Qed.

Lemma question_counts_invariant (qs : list Question) :
  let counts := fold_left count_step qs [] in
  NoDup (map fst counts)
  ∧ (∀ qtype, dict_get qtype counts
              = if questions_of_type qtype qs =? 0 then None
                else Some (questions_of_type qtype qs))
  ∧ sum_list (map (λ kv, kv.2) counts) = length qs.
Proof.
  induction qs as [|q qs IH] using rev_ind; [by repeat split; try constructor|].
  cbn zeta in *. rewrite fold_left_app. cbn [fold_left].
  set (counts := fold_left count_step qs []) in *.
  destruct IH as (Hnd & Hget & Hsum).
  unfold count_step. set (qtype := question_type q).
  split; [|split].
  - rewrite dict_set_keys. case_bool_decide as Hin; [done|].
    apply NoDup_app. split; [done|]. split; [|apply NoDup_singleton].
    intros k Hk Hk'. apply list_elem_of_singleton in Hk'. by subst.
  - intros ty. rewrite dict_get_set, questions_of_type_snoc. fold qtype.
    destruct (bool_decide_reflect (qtype = ty)) as [<-|Hne].
    + rewrite Hget.
      destruct (questions_of_type qtype qs) as [|n]; cbn [Nat.eqb default].
      * done.
      * replace (S n + 1 =? 0) with false by (symmetry; apply Nat.eqb_neq; lia).
        done.
    + rewrite Nat.add_0_r. apply Hget.
  - pose proof (dict_set_sum id qtype (default 0 (dict_get qtype counts) + 1) counts)
      as H.
    rewrite length_app. cbn [length].
    destruct (dict_get qtype counts); cbn [from_option default id] in H;
      unfold id in *; cbn [default]; lia.
Qed.

(** X21. The [by_type] counts of the call review: every question type
    that occurs has one entry, holding the number of questions of that
    type; no type has two entries or an entry of zero; and the counts add
    up to the total number of questions. *)
Theorem question_counts_by_type (a : analysis) :
  NoDup (map fst (question_counts a))
  ∧ (∀ qtype n, (qtype, n) ∈ question_counts a
                ↔ n = questions_of_type qtype (questions a) ∧ 0 < n)
  ∧ sum_list (map snd (question_counts a)) = length (questions a).
Proof.
  unfold question_counts.
  destruct (question_counts_invariant (questions a)) as (Hnd & Hget & Hsum).
  cbn zeta in *. split; [done|]. split; [|done].
  intros qtype n. rewrite (dict_get_elem _ _ _ Hnd), Hget.
  destruct (questions_of_type qtype (questions a)) as [|k]; cbn [Nat.eqb].
  - split; [done|]. intros [-> H]. lia.
  - split; [intros [= <-]; split; [done|lia]|]. by intros [-> _].
Qed.

(** * Scene change detection *)

(** ** Decimal numerals *)

Lemma digits_value_uint (d : Decimal.uint) (acc : nat) :
  fold_left (λ a c, (10 * a + digit_val c)%Z)
    (str (NilEmpty.string_of_uint d)) (Z.of_nat acc)
  = Z.of_nat (Nat.of_uint_acc d acc).
Proof.
  revert acc. unfold str.
  induction d as [|d IH|d IH|d IH|d IH|d IH|d IH|d IH|d IH|d IH|d IH];
    intros acc; [done|..];
    cbn [NilEmpty.string_of_uint list_ascii_of_string fold_left Nat.of_uint_acc];
    rewrite Nat.tail_mul_spec, <- IH; f_equal;
    match goal with
    | |- context [digit_val ?c] =>
        let v := eval vm_compute in (digit_val c) in
        change (digit_val c) with v
    end; lia.
Qed.

Lemma digits_value_str_of_nat (n : nat) : digits_value (str_of_nat n) = Z.of_nat n.
Proof.
  unfold digits_value, str_of_nat.
  assert (Hn : Nat.to_uint n ≠ Decimal.Nil).
  { intros Hk. pose proof (Unsigned.of_to n) as Hk'.
    rewrite Hk in Hk'. cbn in Hk'. subst n. discriminate Hk. }
  assert (Hs : NilZero.string_of_uint (Nat.to_uint n)
               = NilEmpty.string_of_uint (Nat.to_uint n)).
  { by destruct (Nat.to_uint n). }
  rewrite Hs. change 0%Z with (Z.of_nat 0).
  rewrite digits_value_uint. f_equal. apply Unsigned.of_to.
Qed.

Lemma digits_value_zeros (k : nat) (s : pystr) :
  digits_value (repeat "0"%char k ++ s) = digits_value s.
Proof.
  unfold digits_value. rewrite fold_left_app. f_equal.
  induction k as [|k IH]; [done|]. cbn [repeat fold_left]. exact IH.
Qed.

Lemma fmt_04d_value (n : nat) : digits_value (fmt_04d (Z.of_nat n)) = Z.of_nat n.
Proof.
  unfold fmt_04d.
  destruct (Z.of_nat n <? 0)%Z eqn:E; [apply Z.ltb_lt in E; lia|].
  rewrite digits_value_zeros, Z.abs_eq, Nat2Z.id by lia.
  apply digits_value_str_of_nat.
Qed.

Lemma scene_filename_inj (i j : nat) : scene_filename i = scene_filename j → i = j.
Proof.
  unfold scene_filename. intros H. apply app_inv_head in H.
  apply app_inv_tail in H.
  apply Nat2Z.inj. by rewrite <- (fmt_04d_value i), <- (fmt_04d_value j), H.
Qed.

(** ** The two loops *)

Section scene_changes.

Variable py_float : pystr → option Q.
Variable path_exists : pystr → bool.

Lemma scene_times_loop_outcome (lines : list pystr) :
  ∀ scene_times : list Q,
    match scene_times_loop py_float lines scene_times with
    | Ret out =>
        Forall (pts_time_readable py_float) lines
        ∧ ∃ new, out = scene_times ++ new ∧ length new ≤ length lines
    | Raise e =>
        e = ValueError ∧ ¬ Forall (pts_time_readable py_float) lines
    end.
Proof.
  induction lines as [|line lines IH]; intros scene_times; cbn [scene_times_loop].
  - split; [constructor|]. exists []. by rewrite app_nil_r.
  - destruct (re_search_groups re_pts_time line) as [g|] eqn:Hg.
    + destruct (py_float (group 1 g)) as [t|] eqn:Ht.
      * specialize (IH (scene_times ++ [t])).
        destruct (scene_times_loop py_float lines (scene_times ++ [t])) as [out|e].
        -- destruct IH as (Hall & new & -> & Hlen). split.
           ++ constructor; [|done]. intros g' Hg'. by simplify_eq.
           ++ exists (t :: new). rewrite <- app_assoc. split; [done|]. cbn. lia.
        -- destruct IH as [-> Hnot]. split; [done|].
           intros Hall. apply Forall_cons_1 in Hall as [_ Hall]. done.
      * split; [done|]. intros Hall. apply Forall_cons_1 in Hall as [Hline _].
        destruct (Hline g Hg) as [t Ht']. congruence.
    + specialize (IH scene_times).
      destruct (scene_times_loop py_float lines scene_times) as [out|e].
      * destruct IH as (Hall & new & -> & Hlen). split.
        -- constructor; [|done]. intros g' Hg'. congruence.
        -- exists new. split; [done|]. cbn. lia.
      * destruct IH as [-> Hnot]. split; [done|].
        intros Hall. apply Forall_cons_1 in Hall as [_ Hall]. done.
Qed.

Lemma scene_frames_loop_schedule (output_dir : pystr) (scene_times : list Q) :
  ∀ (i : nat) (frames : list frame),
    scene_frames_loop path_exists output_dir i scene_times frames
    = frames ++ scene_schedule path_exists output_dir i scene_times.
Proof.
  unfold scene_schedule.
  induction scene_times as [|t scene_times IH]; intros i frames;
    cbn [scene_frames_loop imap concat].
  - by rewrite app_nil_r.
  - rewrite IH, Nat.add_0_r.
    assert (Himap : ∀ f g : nat → Q → list frame,
              (∀ j x, f j x = g j x) → imap f scene_times = imap g scene_times).
    { intros f g Hfg. by apply imap_ext. }
    rewrite (Himap
      (λ j timestamp,
         if path_exists (os_path_join output_dir (scene_filename (S i + j)))
         then [(timestamp, scene_filename (S i + j))] else [])
      ((λ j timestamp,
          if path_exists (os_path_join output_dir (scene_filename (i + j)))
          then [(timestamp, scene_filename (i + j))] else []) ∘ S)).
    + destruct (path_exists _); by rewrite <- ?app_assoc.
    + intros j x. cbn [compose]. by rewrite Nat.add_succ_r.
Qed.

Lemma scene_schedule_entries (output_dir : pystr) (scene_times : list Q) (i : nat) :
  Forall (λ f : frame, ∃ j, scene_times !! j = Some f.1
                         ∧ f.2 = scene_filename (i + j))
    (scene_schedule path_exists output_dir i scene_times)
  ∧ NoDup (map snd (scene_schedule path_exists output_dir i scene_times))
  ∧ length (scene_schedule path_exists output_dir i scene_times)
    ≤ length scene_times.
Proof.
  revert i. induction scene_times as [|t scene_times IH]; intros i.
  { split; [constructor|]. split; [constructor|done]. }
  pose proof (scene_frames_loop_schedule output_dir (t :: scene_times) i []) as H.
  cbn [scene_frames_loop app] in H.
  rewrite scene_frames_loop_schedule in H. rewrite <- H. clear H.
  destruct (IH (S i)) as (Hent & Hnd & Hlen).
  assert (Hent' : Forall (λ f : frame, ∃ j, (t :: scene_times) !! j = Some f.1
                            ∧ f.2 = scene_filename (i + j))
                    (scene_schedule path_exists output_dir (S i) scene_times)).
  { eapply Forall_impl; [exact Hent|]. intros f (j & Hj & Hf).
    exists (S j). split; [done|]. by rewrite Nat.add_succ_r. }
  destruct (path_exists _).
  - split; [|split].
    + apply Forall_app. split; [|done]. repeat constructor.
      exists 0. split; [done|]. by rewrite Nat.add_0_r.
    + rewrite map_app. apply NoDup_app. split; [apply NoDup_singleton|].
      split; [|done]. intros name Hname Hin.
      apply list_elem_of_singleton in Hname. subst name.
      apply list_elem_of_fmap in Hin as (f & Hf & Hin).
      rewrite Forall_forall in Hent. destruct (Hent f Hin) as (j & _ & Hj).
      cbn [snd] in Hf. rewrite Hj in Hf. apply scene_filename_inj in Hf. lia.
    + rewrite length_app. cbn. lia.
  - cbn [app]. split; [done|]. split; [done|]. cbn. lia.
Qed.

End scene_changes.

(** X22. [detect_scene_changes] returns when the [pts_time:] field of
    every line of the diagnostic output that has one is a number for
    [float], and raises [ValueError] when one is not (the call is not
    guarded).  When it returns, the frames are, in the order of the scene
    times, the [i]-th scene time with the file [scene_i] (numbered from 0
    with four digits) for every [i] whose file exists; so no two frames
    share a file, and there are no more frames than lines. *)
Theorem detect_scene_changes_outcome (py_float : pystr → option Q)
    (path_exists : pystr → bool) (stderr output_dir : pystr) :
  let lines := split_on newline stderr in
  match detect_scene_changes py_float path_exists stderr output_dir with
  | Ret frames =>
      Forall (pts_time_readable py_float) lines
      ∧ (∃ scene_times,
           length scene_times ≤ length lines
           ∧ frames = scene_schedule path_exists output_dir 0 scene_times
           ∧ Forall (λ f : frame, ∃ i, scene_times !! i = Some f.1
                                    ∧ f.2 = scene_filename i) frames)
      ∧ NoDup (map snd frames)
      ∧ length frames ≤ length lines
  | Raise e => e = ValueError ∧ ¬ Forall (pts_time_readable py_float) lines
  end.
Proof.
  intros lines. unfold detect_scene_changes. fold lines.
  pose proof (scene_times_loop_outcome py_float lines []) as H.
  destruct (scene_times_loop py_float lines []) as [scene_times|e];
    cbn [obind]; [|done].
  destruct H as (Hall & new & -> & Hlen). cbn [app] in *.
  rewrite scene_frames_loop_schedule. cbn [app].
  destruct (scene_schedule_entries path_exists output_dir new 0)
    as (Hent & Hnd & Hlen').
  split; [done|]. split; [|split; [done|lia]].
  exists new. split; [done|]. split; [done|]. done.
Qed.

(** * The session index *)

(** ** Screenshot names *)

Lemma frame_filename_inj (i j : nat) :
  frame_filename (Z.of_nat i) = frame_filename (Z.of_nat j) → i = j.
Proof.
  unfold frame_filename. intros H. apply app_inv_head in H.
  apply app_inv_tail in H.
  apply Nat2Z.inj. by rewrite <- (fmt_04d_value i), <- (fmt_04d_value j), H.
Qed.

Lemma frame_not_scene (z : Z) (i : nat) : frame_filename z ≠ scene_filename i.
Proof.
  unfold frame_filename, scene_filename.
  cbn [str list_ascii_of_string app]. discriminate.
Qed.

Lemma baseline_schedule_names (path_exists : pystr → bool) (output_dir : pystr)
    (interval : Q) (k m : nat) :
  Forall (λ f : frame, ∃ j : nat, k <= j < k + m
                         ∧ f.2 = frame_filename (Z.of_nat (S j)))
    (baseline_schedule path_exists output_dir interval k m)
  ∧ NoDup (map snd (baseline_schedule path_exists output_dir interval k m)).
Proof.
  revert k. induction m as [|m IH]; intros k.
  { split; constructor. }
  unfold baseline_schedule. cbn [seq flat_map].
  fold (baseline_schedule path_exists output_dir interval (S k) m).
  destruct (IH (S k)) as [Hnames Hnd].
  assert (Hnames' : Forall (λ f : frame, ∃ j : nat, k <= j < k + S m
                              ∧ f.2 = frame_filename (Z.of_nat (S j)))
                      (baseline_schedule path_exists output_dir interval (S k) m)).
  { eapply Forall_impl; [exact Hnames|]. intros f (j & Hj & Hf).
    exists j. split; [lia|done]. }
  destruct (path_exists _); [|done].
  cbn [app map]. split.
  - constructor; [|done]. exists k. split; [lia|].
    cbn [snd]. f_equal. lia.
  - constructor; [|done]. intros Hin.
    apply list_elem_of_fmap in Hin as (f & Hf & Hin).
    rewrite Forall_forall in Hnames. destruct (Hnames f Hin) as (j & Hj & Hfj).
    cbn [snd] in Hf. rewrite Hfj in Hf.
    replace (Z.of_nat k + 1)%Z with (Z.of_nat (S k)) in Hf by lia.
    apply frame_filename_inj in Hf. lia.
Qed.

Lemma same_frame_names (l l' : list frame) :
  Forall2 same_frame l l' → map snd l = map snd l'.
Proof.
  induction 1 as [|a b l l' [_ Hab] Hl IH]; [done|].
  cbn [map]. by rewrite Hab, IH.
Qed.

Lemma merge_frames_names (baseline scene_changes : list frame) (min_gap : Q) :
  NoDup (map snd baseline) → NoDup (map snd scene_changes) →
  (∀ name, name ∈ map snd baseline → name ∉ map snd scene_changes) →
  NoDup (map snd (merge_frames baseline scene_changes min_gap)).
Proof.
  intros Hb Hs Hdisj. unfold merge_frames.
  eapply sublist_NoDup;
    [|apply (fmap_sublist snd), merge_sweep_sublist].
  change (NoDup (map snd (stable_sort by_timestamp (baseline ++ scene_changes)))).
  rewrite stable_sort_perm, map_app. apply NoDup_app. by repeat split.
Qed.

(** ** Downsampling picks a subsequence *)

Lemma picks_sublist {A : Type} (l : list A) (out : list A) (g : nat → nat) :
  (∀ i j, i < j < length out → g i < g j) →
  (∀ i, i < length out → out !! i = l !! g i) →
  out `sublist_of` l.
Proof.
  revert l. induction out as [|x out IH] using rev_ind; intros l Hinc Hget.
  { apply sublist_nil_l. }
  rewrite length_app in Hinc, Hget. cbn [length] in Hinc, Hget.
  assert (Hx : l !! g (length out) = Some x).
  { rewrite <- Hget by lia. by rewrite lookup_app_r, Nat.sub_diag by lia. }
  rewrite <- (take_drop_middle l _ x Hx).
  apply sublist_app; [|by apply sublist_skip, sublist_nil_l].
  apply IH.
  - intros i j Hij. apply Hinc. lia.
  - intros i Hi.
    assert (Hlt : g i < g (length out)) by (apply Hinc; lia).
    rewrite lookup_take_lt by done. rewrite <- Hget by lia.
    by rewrite lookup_app_l.
Qed.

Lemma downsample_frames_sublist (all_frames : list frame) (target : Z) :
  (0 < target)%Z →
  ∃ out, downsample_frames all_frames target = Ret out
    ∧ out `sublist_of` all_frames
    ∧ (Z.of_nat (length out) <= target)%Z.
Proof.
  intros Hpos. unfold downsample_frames.
  set (len := Z.of_nat (length all_frames)).
  destruct (target <? len)%Z eqn:E1.
  2:{ apply Z.ltb_ge in E1. exists all_frames. split; [done|]. split; [done|].
      by fold len. }
  apply Z.ltb_lt in E1.
  destruct (target =? 0)%Z eqn:E2; [apply Z.eqb_eq in E2; lia|].
  set (f := λ i : Z, py_index all_frames
              (py_trunc (inject_Z i * (inject_Z len / inject_Z target)))).
  assert (Hf : ∀ i : nat, (Z.of_nat i < target)%Z →
             ∃ x, f (Z.of_nat i) = Ret x
               ∧ all_frames !! Z.to_nat (Z.of_nat i * len / target) = Some x).
  { intros i Hi. unfold f. rewrite downsample_index by lia.
    apply py_index_in_range. fold len.
    apply downsample_index_bound; lia. }
  assert (Hrange : ∀ (i : nat) (z : Z),
             py_range target !! i = Some z → z = Z.of_nat i ∧ (z < target)%Z).
  { intros i z. unfold py_range. rewrite list_lookup_fmap.
    destruct (seq 0 (Z.to_nat target) !! i) as [n|] eqn:Hn; [|done].
    apply lookup_seq in Hn as [-> Hn]. cbn. intros [= <-]. lia. }
  destruct (omap_list_total f (py_range target)) as (out & Hout & Hlen & Hlook).
  { intros z Hz. apply list_elem_of_lookup in Hz as [i Hi].
    apply Hrange in Hi as [-> Hi]. destruct (Hf i Hi) as (x & Hx & _). eauto. }
  assert (Hlen' : length out = Z.to_nat target).
  { rewrite Hlen. unfold py_range. by rewrite length_map, length_seq. }
  exists out. split; [exact Hout|]. split; [|lia].
  apply (picks_sublist all_frames out
           (λ i, Z.to_nat (Z.of_nat i * len / target))).
  - intros i j Hij.
    assert (H : (Z.of_nat i * len / target < Z.of_nat j * len / target)%Z)
      by (apply downsample_index_increasing; lia).
    assert (H0 : (0 <= Z.of_nat i * len / target)%Z)
      by (apply Z.div_pos; nia).
    lia.
  - intros i Hi.
    assert (Hz : is_Some (py_range target !! i)).
    { apply lookup_lt_is_Some. rewrite <- Hlen. done. }
    destruct Hz as [z Hz]. destruct (Hlook i z Hz) as (y & Hy & Hyi).
    apply Hrange in Hz as [-> Hz]. destruct (Hf i Hz) as (x & Hx & Hxi).
    congruence.
Qed.

(** With the index arithmetic of binary64 the step returns a subsequence
    as well, for the lists within the size bound. *)
Lemma downsample_frames_binary64_sublist (all_frames : list frame) (target : Z) :
  (0 < target)%Z → (Z.of_nat (length all_frames) * target <= 2 ^ 51)%Z →
  ∃ out, downsample_frames_binary64 all_frames target = Ret out
    ∧ out `sublist_of` all_frames
    ∧ (Z.of_nat (length out) <= target)%Z.
Proof.
  intros Hpos Hsize. unfold downsample_frames_binary64.
  set (len := Z.of_nat (length all_frames)) in *.
  destruct (target <? len)%Z eqn:E1.
  2:{ apply Z.ltb_ge in E1. exists all_frames. split; [done|]. split; [done|].
      by fold len. }
  apply Z.ltb_lt in E1.
  destruct (target =? 0)%Z eqn:E2; [apply Z.eqb_eq in E2; lia|].
  set (f := λ i : Z, py_index all_frames (binary64_index len target i)).
  assert (Hidx : ∀ i : nat, (Z.of_nat i < target)%Z →
             (0 <= binary64_index len target (Z.of_nat i) < len)%Z).
  { intros i Hi.
    destruct (binary64_index_spec len target (Z.of_nat i)) as (Hb & H0 & _);
      [lia..|].
    pose proof (downsample_index_bound (Z.of_nat i) len target). lia. }
  assert (Hf : ∀ i : nat, (Z.of_nat i < target)%Z →
             ∃ x, f (Z.of_nat i) = Ret x
               ∧ all_frames !! Z.to_nat (binary64_index len target (Z.of_nat i))
                 = Some x).
  { intros i Hi. unfold f. apply py_index_in_range. fold len. by apply Hidx. }
  assert (Hrange : ∀ (i : nat) (z : Z),
             py_range target !! i = Some z → z = Z.of_nat i ∧ (z < target)%Z).
  { intros i z. unfold py_range. rewrite list_lookup_fmap.
    destruct (seq 0 (Z.to_nat target) !! i) as [n|] eqn:Hn; [|done].
    apply lookup_seq in Hn as [-> Hn]. cbn. intros [= <-]. lia. }
  destruct (omap_list_total f (py_range target)) as (out & Hout & Hlen & Hlook).
  { intros z Hz. apply list_elem_of_lookup in Hz as [i Hi].
    apply Hrange in Hi as [-> Hi]. destruct (Hf i Hi) as (x & Hx & _). eauto. }
  assert (Hlen' : length out = Z.to_nat target).
  { rewrite Hlen. unfold py_range. by rewrite length_map, length_seq. }
  exists out. split; [exact Hout|]. split; [|lia].
  apply (picks_sublist all_frames out
           (λ i, Z.to_nat (binary64_index len target (Z.of_nat i)))).
  - intros i j Hij.
    assert (H : (binary64_index len target (Z.of_nat i)
                 < binary64_index len target (Z.of_nat j))%Z)
      by (apply binary64_index_increasing; lia).
    pose proof (Hidx i). lia.
  - intros i Hi.
    assert (Hz : is_Some (py_range target !! i)).
    { apply lookup_lt_is_Some. rewrite <- Hlen. done. }
    destruct Hz as [z Hz]. destruct (Hlook i z Hz) as (y & Hy & Hyi).
    apply Hrange in Hz as [-> Hz]. destruct (Hf i Hz) as (x & Hx & Hxi).
    congruence.
Qed.

(** ** From the inputs to the index *)

Lemma parse_transcript_ret (py_float : pystr → option Q) (ext content : pystr) :
  ∃ segs, parse_transcript py_float ext content = Ret segs.
Proof.
  unfold parse_transcript.
  destruct (parse_vtt_resolves py_float content) as (v & Hv & _).
  destruct (parse_srt_resolves py_float content) as (s & Hs & _).
  destruct (parse_plain_text_resolves py_float content) as (p & Hp & _).
  repeat match goal with |- context [if ?b then _ else _] => destruct b end; eauto.
Qed.

Lemma frame_entry_fields (segments : list TranscriptSegment) (f : frame) :
  fd_timestamp_seconds (frame_entry segments f) = py_round f.1 2
  ∧ fd_screenshot (frame_entry segments f) = f.2.
Proof.
  destruct f as [t name]. cbn [frame_entry].
  by destruct (find_transcript_segment t segments) as [[? ?] ?].
Qed.

Lemma baseline_frames_names (fuel : nat) (path_exists : pystr → bool)
    (duration : Q) (output_dir : pystr) (interval : Q) :
  (0 < interval)%Q → baseline_count interval duration < fuel →
  ∃ frames,
    extract_baseline_frames fuel path_exists duration output_dir interval
    = Ret frames
    ∧ NoDup (map snd frames)
    ∧ Forall (λ f : frame, ∃ j : nat, f.2 = frame_filename (Z.of_nat (S j))) frames.
Proof.
  intros Hi Hfuel. unfold extract_baseline_frames.
  destruct (baseline_loop_run path_exists output_dir interval duration
              (baseline_count interval duration) Hi 0 0 [] fuel)
    as (out & Hout & Hsched); [cbn; ring|lia|done|].
  cbn [app] in Hout. exists out. split; [exact Hout|].
  destruct (baseline_schedule_names path_exists output_dir interval 0
              (baseline_count interval duration)) as [Hnames Hnd].
  rewrite (same_frame_names _ _ Hsched). split; [done|].
  apply Forall_forall. intros f Hf.
  assert (Hin : f.2 ∈ map snd out) by (apply list_elem_of_fmap; by exists f).
  rewrite (same_frame_names _ _ Hsched) in Hin.
  apply list_elem_of_fmap in Hin as (g & Hg & Hin).
  rewrite Forall_forall in Hnames. destruct (Hnames g Hin) as (j & _ & Hj).
  exists j. by rewrite Hg.
Qed.

(** X23. From the inputs to the index: with a positive frame interval, a
    positive target frame count and readable scene times, [process_video]
    returns an index (given enough iterations for the collection loop).
    Its frame count is the number of its frame entries and is not greater
    than the target; the entries are in the order of their
    [timestamp_seconds]; no two entries share a screenshot; and the speaker
    analysis is the one of the parsed transcript. *)
Theorem process_video_index (fuel : nat) (py_float : pystr → option Q)
    (path_exists : pystr → bool) (duration : Q) (stderr : pystr)
    (ext content : pystr) (frames_dir : pystr)
    (frame_interval scene_threshold : Q) (target_frames : Z) :
  (0 < frame_interval)%Q → baseline_count frame_interval duration < fuel →
  Forall (pts_time_readable py_float) (split_on newline stderr) →
  (0 < target_frames)%Z →
  ∃ index segments,
    process_video fuel py_float path_exists duration stderr ext content
      frames_dir frame_interval scene_threshold target_frames = Ret index
    ∧ parse_transcript py_float ext content = Ret segments
    ∧ total_frames index = length (ix_frames index)
    ∧ (Z.of_nat (total_frames index) <= target_frames)%Z
    ∧ StronglySorted
        (λ a b, (fd_timestamp_seconds a <= fd_timestamp_seconds b)%Q)
        (ix_frames index)
    ∧ NoDup (map fd_screenshot (ix_frames index))
    ∧ speakers (ix_speaker_analysis index) = metrics_of segments
    ∧ total_speakers (ix_speaker_analysis index) = length (metrics_of segments).
Proof.
  intros Hi Hfuel Hpts Htarget. unfold process_video.
  destruct (parse_transcript_ret py_float ext content) as [segments Hsegs].
  rewrite Hsegs. cbn [obind].
  unfold metrics_of.
  destruct (compute_speaker_metrics segments) as [[speaker_metrics turns] n]
    eqn:Hmetrics.
  destruct (baseline_frames_names fuel path_exists duration frames_dir
              frame_interval Hi Hfuel) as (baseline & -> & Hbnd & Hbnames).
  cbn [obind]. unfold detect_scene_changes.
  pose proof (scene_times_loop_outcome py_float (split_on newline stderr) [])
    as Hscene.
  destruct (scene_times_loop py_float (split_on newline stderr) [])
    as [scene_times|e]; [|by destruct Hscene].
  cbn [obind]. rewrite scene_frames_loop_schedule. cbn [app].
  destruct (scene_schedule_entries path_exists frames_dir scene_times 0)
    as (Hsent & Hsnd & _).
  set (scene := scene_schedule path_exists frames_dir 0 scene_times) in *.
  set (merged := merge_frames baseline scene 2).
  assert (Hmnd : NoDup (map snd merged)).
  { apply merge_frames_names; [done..|].
    intros name Hb Hs.
    apply list_elem_of_fmap in Hb as (b & -> & Hb).
    apply list_elem_of_fmap in Hs as (s & Hbs & Hs).
    rewrite Forall_forall in Hbnames, Hsent.
    destruct (Hbnames b Hb) as (j & Hj). destruct (Hsent s Hs) as (i & _ & Hi').
    rewrite Hj, Hi' in Hbs. by apply frame_not_scene in Hbs. }
  assert (Hmchron : chronological merged).
  { unfold merged, merge_frames, chronological.
    eapply StronglySorted_sub; [apply merge_sweep_sublist|].
    apply sorted_frames_chronological. }
  destruct (downsample_frames_sublist merged target_frames Htarget)
    as (out & -> & Hsub & Hlen).
  cbn [obind]. eexists _, segments. split; [reflexivity|].
  cbn [total_frames ix_frames ix_speaker_analysis speakers total_speakers fst].
  rewrite Hmetrics. cbn [fst].
  split; [done|]. split; [done|].
  unfold output_frames. rewrite length_map.
  split; [done|]. split; [|split; [|done]].
  - apply (StronglySorted_fmap (frame_entry segments)
             (λ a b : frame, (a.1 <= b.1)%Q)).
    + intros a b Hab.
      destruct (frame_entry_fields segments a) as [-> _].
      destruct (frame_entry_fields segments b) as [-> _].
      by apply py_round_mono.
    + eapply StronglySorted_sub; [exact Hsub|exact Hmchron].
  - rewrite map_map.
    rewrite (map_ext _ snd)
      by (intros f; apply (frame_entry_fields segments f)).
    eapply sublist_NoDup; [exact Hmnd|]. by apply (fmap_sublist snd).
Qed.

Lemma process_video_index_witness :
  (0 < 5)%Q ∧ baseline_count 5 12 < 4
  ∧ Forall (pts_time_readable float_decimal) (split_on newline [])
  ∧ (0 < 500)%Z
  ∧ ∃ index segments,
      process_video 4 float_decimal (λ _, true) 12 [] (str ".srt")
        alice_and_bob_srt (str "out/frames") 5 (3 # 10) 500 = Ret index
      ∧ parse_transcript float_decimal (str ".srt") alice_and_bob_srt
        = Ret segments
      ∧ total_frames index = length (ix_frames index).
Proof.
  assert (H1 : (0 < 5)%Q) by lra.
  assert (H2 : baseline_count 5 12 < 4) by (vm_compute; lia).
  assert (H3 : Forall (pts_time_readable float_decimal) (split_on newline [])).
  { repeat constructor. intros g Hg. by vm_compute in Hg. }
  assert (H4 : (0 < 500)%Z) by lia.
  split; [exact H1|]. split; [exact H2|]. split; [exact H3|]. split; [exact H4|].
  destruct (process_video_index 4 float_decimal (λ _, true) 12 [] (str ".srt")
              alice_and_bob_srt (str "out/frames") 5 (3 # 10) 500 H1 H2 H3 H4)
    as (index & segments & Hret & Hsegs & Hcount & _).
  exists index, segments. by repeat split.
Defined.

(** ** From the index to the analyzer *)

Lemma analyze_transcript_reported (frames : list index_frame) (t : pystr) :
  t ∈ reported_texts (analyze_transcript frames) → analyzed_text frames t.
Proof.
  unfold analyze_transcript, reported_texts.
  destruct (analyze_fold_invariant frames [] (mkAnalysis [] [] [] [] [], ∅))
    as (Hseen & Hpp & Hob & Hbs & Hai & Hq & _).
  { split; [intros t' Ht; by apply elem_of_empty in Ht|].
    assert (Hnil : texts_within ∅ []).
    { split; [apply NoDup_nil_2|]. intros t' Ht. by apply elem_of_nil in Ht. }
    cbn. repeat (split; [exact Hnil|]). constructor. }
  cbn [app] in *. rewrite !elem_of_app.
  intros [H|[H|[H|[H|H]]]]; apply Hseen;
    [apply Hpp|apply Hob|apply Hbs|apply Hai|apply Hq]; exact H.
Qed.

(** X24. What the analyzer reports comes from the transcript: when the
    frames of the index are those [process_video] builds, every text in the
    result of [analyze_transcript] (a pain point, objection, buying signal,
    action item or question) is the non-empty text of a segment of the
    transcript; frames aligned to no segment contribute nothing. *)
Theorem analyzer_reports_transcript_text (segments : list TranscriptSegment)
    (all_frames : list frame) (t : pystr) :
  t ∈ reported_texts
        (analyze_transcript
           (map index_frame_of (output_frames segments all_frames))) →
  t ≠ [] ∧ ∃ s, s ∈ segments ∧ text s = t.
Proof.
  intros Ht. apply analyze_transcript_reported in Ht
    as (Hne & Hsent & frame & Hframe & Htext).
  split; [done|].
  apply list_elem_of_fmap in Hframe as (e & -> & He).
  unfold output_frames in He. apply list_elem_of_fmap in He as ([ts name] & -> & _).
  cbn [index_frame_of if_transcript_segment] in Htext. injection Htext as Htext.
  cbn [frame_entry] in Htext.
  destruct (find_transcript_segment_source ts segments) as [Hnone|(s & Hs & Hfound)].
  - rewrite Hnone in Htext. cbn [fd_transcript_segment] in Htext. by subst t.
  - rewrite Hfound in Htext. unfold segment_link in Htext.
    cbn [fd_transcript_segment] in Htext. by exists s.
Qed.

Lemma analyzer_reports_transcript_text_witness :
  str "We struggle with reporting" ∈
    reported_texts
      (analyze_transcript
         (map index_frame_of
            (output_frames
               [mkSegment 0 4 (str "We struggle with reporting") None None]
               [(1%Q, str "frame_0001.jpg")])))
  ∧ str "We struggle with reporting" ≠ [].
Proof.
  assert (H : str "We struggle with reporting" ∈
            reported_texts
              (analyze_transcript
                 (map index_frame_of
                    (output_frames
                       [mkSegment 0 4 (str "We struggle with reporting") None None]
                       [(1%Q, str "frame_0001.jpg")])))).
  { vm_compute. left. }
  split; [exact H|].
  exact (proj1 (analyzer_reports_transcript_text _ _ _ H)).
Defined.

(** * Markup in cue text *)

Lemma tag_body_scan (body post : pystr) (pos : nat) :
  ">"%char ∉ body →
  star_greedy (not_char ">") (body ++ ">"%char :: post) pos
    (λ s' pos', rmatch (Lit ">") s' pos' [] (λ _ p _, Some p))
  = Some (S (pos + length body)).
Proof.
  revert pos. induction body as [|c body IH]; intros pos Hgt.
  - cbn. f_equal. lia.
  - apply not_elem_of_cons in Hgt as [Hc Hgt].
    cbn [app star_greedy].
    assert (E : not_char ">" c = true).
    { unfold not_char. apply negb_true_iff, Ascii.eqb_neq. congruence. }
    rewrite E, IH by done. cbn [length]. f_equal. lia.
Qed.

Lemma tag_at_head_matches (s : pystr) :
  tag_at_head s → ∃ n, match_length re_tag s = Some (S n).
Proof.
  intros (body & post & -> & Hne & Hgt).
  destruct body as [|b body]; [done|].
  apply not_elem_of_cons in Hgt as [Hb Hgt].
  assert (E : not_char ">" b = true).
  { unfold not_char. apply negb_true_iff, Ascii.eqb_neq. congruence. }
  unfold match_length, re_tag.
  change (cat [Lit "<"; Plus (not_char ">"); Lit ">"])
    with (Seq (Chr (is_char "<")) (Seq (Seq (Chr (not_char ">")) (Star (not_char ">")))
                                      (Lit ">"))).
  cbn [rmatch app]. change (is_char "<" "<") with true. cbn iota.
  rewrite E. rewrite tag_body_scan by done. eauto.
Qed.

Lemma no_tag_at_gt (s : pystr) : match_length re_tag (">"%char :: s) = None.
Proof. reflexivity. Qed.

Lemma re_sub_go_skip (r : regex) (n : nat) (s : pystr) :
  re_sub_go r n s = re_sub_go r 0 (drop n s).
Proof.
  revert n. induction s as [|c s IH]; intros [|n]; try done.
  cbn [re_sub_go drop]. apply IH.
Qed.

Lemma re_sub_go_chars (r : regex) (s : pystr) (n : nat) (c : ascii) :
  c ∈ re_sub_go r n s → c ∈ s.
Proof.
  revert n. induction s as [|d s IH]; intros n; cbn [re_sub_go].
  { done. }
  destruct n as [|n].
  - destruct (match_length r (d :: s)) as [[|m]|].
    + intros [->|H]%elem_of_cons; [left|right; by eapply IH].
    + intros H. right. by eapply IH.
    + intros [->|H]%elem_of_cons; [left|right; by eapply IH].
  - intros H. right. by eapply IH.
Qed.

Lemma re_sub_tag_free (s : pystr) : tag_free (re_sub re_tag s).
Proof.
  unfold re_sub.
  induction s as [s IH] using (induction_ltof1 _ (@length ascii)).
  unfold ltof in IH.
  destruct s as [|c s].
  { intros pre rest H. symmetry in H. apply app_eq_nil in H as [_ ->].
    intros (? & ? & ? & _). done. }
  cbn [re_sub_go].
  assert (Hkeep : ¬ tag_at_head (c :: s) →
            tag_free (c :: re_sub_go re_tag 0 s)).
  { intros Hno [|c' pre] rest H.
    - cbn [app] in H. subst rest.
      intros (body & post & Heq & Hne & Hgt). injection Heq as -> Hout.
      assert (Hin : ">"%char ∈ re_sub_go re_tag 0 s).
      { rewrite Hout. apply elem_of_app. right. left. }
      apply re_sub_go_chars in Hin.
      apply list_elem_of_split_l in Hin as (b2 & p2 & -> & Hb2).
      destruct b2 as [|b b2].
      + cbn [app re_sub_go] in Hout. rewrite no_tag_at_gt in Hout.
        destruct body as [|b' body]; [done|]. injection Hout as <- _.
        apply Hgt. left.
      + apply Hno. exists (b :: b2), p2. by repeat split.
    - injection H as <- H. by apply (IH s ltac:(cbn; lia) pre rest). }
  destruct (match_length re_tag (c :: s)) as [[|n]|] eqn:E.
  - apply Hkeep. intros H. apply tag_at_head_matches in H as [n Hn]. congruence.
  - rewrite re_sub_go_skip. apply IH. cbn [length]. rewrite length_drop. lia.
  - apply Hkeep. intros H. apply tag_at_head_matches in H as [n Hn]. congruence.
Qed.

(** X25. [extract_speaker_from_vtt_line] leaves no markup in the text of a
    line with a voice tag, and none in the text of a line for which it
    finds no speaker: no tag ([<], a non-empty body without [>], [>])
    starts anywhere in the returned text.  (A line read as [Name: text]
    keeps its markup.) *)
Theorem vtt_text_without_markup (line : pystr) :
  is_Some (re_match re_voice line)
  ∨ (extract_speaker_from_vtt_line line).1 = None →
  tag_free (extract_speaker_from_vtt_line line).2.
Proof.
  unfold extract_speaker_from_vtt_line.
  destruct (re_match re_voice line) as [[g rest]|].
  { intros _. apply re_sub_tag_free. }
  intros [[? H]|H]; [done|].
  destruct (re_match re_speaker_colon line) as [[g rest]|];
    [|apply re_sub_tag_free].
  destruct (speaker_name_ok (strip (group 1 g))); [done|apply re_sub_tag_free].
Qed.

Lemma vtt_text_without_markup_witness :
  (is_Some (re_match re_voice (str "<v Bob><i>Hello</i> there</v>"))
   ∨ (extract_speaker_from_vtt_line (str "<v Bob><i>Hello</i> there</v>")).1 = None)
  ∧ tag_free (extract_speaker_from_vtt_line (str "<v Bob><i>Hello</i> there</v>")).2.
Proof.
  assert (H : is_Some (re_match re_voice (str "<v Bob><i>Hello</i> there</v>"))
              ∨ (extract_speaker_from_vtt_line
                   (str "<v Bob><i>Hello</i> there</v>")).1 = None).
  { left. vm_compute. by eexists. }
  split; [exact H|]. exact (vtt_text_without_markup _ H).
Defined.

(** A line read as [Name: text] keeps its markup. *)
Example colon_line_keeps_markup :
  extract_speaker_from_vtt_line (str "Bob: <i>Hello</i> there")
  = (Some (str "Bob"), str "<i>Hello</i> there").
Proof. by vm_compute. Qed.

(** * Overlap of the pattern tables *)

Lemma detect_patterns_none (text : pystr)
    (patterns : list (phrase_pattern * pystr)) (type : pystr) (ts : Q)
    (sid sname : option pystr) (p : phrase_pattern * pystr) :
  detect_patterns text patterns type ts sid sname = [] →
  p ∈ patterns → ¬ occurs true p.1 (lower text).
Proof.
  unfold detect_patterns.
  induction patterns as [|[pattern conf] patterns IH]; cbn [detect_loop].
  { intros _ Hp. by apply elem_of_nil in Hp. }
  destruct (re_search_occurs true pattern (lower text)) as [_ Hnone].
  destruct (re_search true pattern (lower text)) as [m|]; [done|].
  intros H [->|Hp]%elem_of_cons; [by apply Hnone|by apply IH].
Qed.

(** X26. The tables overlap: a text in which the objection phrase
    [cost too much] occurs as a phrase is reported by [detect_patterns]
    both as an objection and, because of the word [cost], as a buying
    signal. *)
Theorem cost_objection_counts_as_buying_signal (text pre post : pystr)
    (ts : Q) (sid sname : option pystr) :
  occurrence WordBounded true (str "cost too much") (lower text)
    pre (str "cost too much") post →
  detect_patterns text OBJECTION_PATTERNS (str "objection") ts sid sname ≠ []
  ∧ detect_patterns text BUYING_SIGNAL_PATTERNS (str "buying_signal") ts sid sname
    ≠ [].
Proof.
  intros (Hs & Hsp & Hb1 & Hb2). split; intros Hnone.
  - eapply (detect_patterns_none _ _ _ _ _ _
              (mkPattern WordBounded
                 [str "budget"; str "too expensive"; str "cost too much";
                  str "can't afford"], str "high") Hnone).
    { apply list_elem_of_further, list_elem_of_here. }
    exists (str "cost too much"), pre, (str "cost too much"), post.
    split; [cbn [fst pp_phrases]; do 2 apply list_elem_of_further;
            apply list_elem_of_here|].
    by repeat split.
  - eapply (detect_patterns_none _ _ _ _ _ _
              (mkPattern WordBounded
                 [str "what's the pricing"; str "how much"; str "cost";
                  str "investment"], str "high") Hnone).
    { do 2 apply list_elem_of_further. apply list_elem_of_here. }
    exists (str "cost"), pre, (str "cost"), (str " too much" ++ post).
    split; [cbn [fst pp_phrases]; do 2 apply list_elem_of_further;
            apply list_elem_of_here|].
    split; [exact Hs|]. split; [repeat constructor|].
    cbn [fst pp_anchor]. split; [exact Hb1|].
    rewrite last_app. reflexivity.
Qed.

Lemma cost_objection_counts_as_buying_signal_witness :
  occurrence WordBounded true (str "cost too much")
    (lower (str "That would Cost too much")) (str "that would ")
    (str "cost too much") []
  ∧ detect_patterns (str "That would Cost too much") BUYING_SIGNAL_PATTERNS
      (str "buying_signal") 0 None None ≠ [].
Proof.
  assert (H : occurrence WordBounded true (str "cost too much")
                (lower (str "That would Cost too much")) (str "that would ")
                (str "cost too much") []).
  { split; [reflexivity|]. split; [repeat constructor|]. split; reflexivity. }
  split; [exact H|].
  exact (proj2 (cost_objection_counts_as_buying_signal _ _ _ 0 None None H)).
Defined.
